(** * s3ncdu: the size-aggregating tree, the scanner's partitions and the
      browse/delete controller of [src/s3ncdu.py], embedded in Rocq.

    Python objects are mutable and shared ([Node.par] points back at the
    parent whose [ch] dictionary owns the node), so nodes live in a store of
    cells addressed by [addr]; every method takes the store and returns the
    store it leaves behind.  [None] stands for a dereference of an address
    that holds no object, or for a loop that ran out of fuel: neither can
    happen in Python on acyclic data, and the theorems below show that they
    do not happen on the stores the program builds. *)

From Stdlib Require Import ZArith String Ascii List Lia.
From Stdlib Require Import Sorting.Sorted.
From stdpp Require Import base option list gmap strings sorting pretty.

Local Open Scope Z_scope.
Local Open Scope string_scope.
Local Open Scope list_scope.

(** ** Python built-ins used by the program *)

(** [s.split(sep)] for a one-character separator: every occurrence of the
    separator ends a segment, empty segments are kept. *)
Fixpoint split_on (sep : ascii) (s : string) : list string :=
  match s with
  | EmptyString => [""]
  | String c rest =>
      if Ascii.eqb c sep then "" :: split_on sep rest
      else match split_on sep rest with
           | [] => [String c ""]
           | seg :: segs => String c seg :: segs
           end
  end.

(** Truthiness of a [str]: non-empty. *)
Definition truthy (s : string) : bool :=
  match s with EmptyString => false | String _ _ => true end.

(** [str.lower()].  A string is the sequence of its code points, and the
    strings of the model are those whose code points are below 256.  On
    these, [str.lower()] works character by character: it maps the capital
    letters [A-Z] (65-90), [À-Ö] (192-214) and [Ø-Þ] (216-222) to the
    letters 32 code points above them and keeps every other character, the
    multiplication sign (215) among them.  Strings compare by code points,
    as [String.ltb] does. *)
Definition lower_char (c : ascii) : ascii :=
  let n := N_of_ascii c in
  if ((65 <=? n) && (n <=? 90) || (192 <=? n) && (n <=? 214) ||
      (216 <=? n) && (n <=? 222))%N
  then ascii_of_N (n + 32) else c.

Fixpoint lower (s : string) : string :=
  match s with
  | EmptyString => EmptyString
  | String c rest => String (lower_char c) (lower rest)
  end.

(** [sep.join(l)] *)
Fixpoint join (sep : string) (l : list string) : string :=
  match l with
  | [] => ""
  | [x] => x
  | x :: rest => x +:+ sep +:+ join sep rest
  end.

(** [sum(...)] over integers: starts from 0 and adds from the left. *)
Definition py_sum (l : list Z) : Z := fold_left Z.add l 0.

(** [range(start, stop, step)] for a positive step. *)
Definition py_range (start stop step : nat) : list nat :=
  map (fun k => (start + k * step)%nat)
      (seq 0 ((stop - start + step - 1) / step)%nat).

(** [l[i:j]] for [0 <= i <= j]: out-of-range bounds are clamped. *)
Definition slice {A} (l : list A) (i j : nat) : list A :=
  take (j - i)%nat (drop i l).

(** *** Insertion-ordered dictionaries with string keys *)

Definition dict (V : Type) : Type := list (string * V).

Fixpoint dict_get {V} (k : string) (d : dict V) : option V :=
  match d with
  | [] => None
  | (k', v) :: d' => if String.eqb k k' then Some v else dict_get k d'
  end.

(** [k in d] *)
Definition dict_mem {V} (k : string) (d : dict V) : bool :=
  match dict_get k d with Some _ => true | None => false end.

(** [d[k] = v]: an existing key keeps its position, a new one goes last. *)
Fixpoint dict_set {V} (k : string) (v : V) (d : dict V) : dict V :=
  match d with
  | [] => [(k, v)]
  | (k', v') :: d' =>
      if String.eqb k k' then (k', v) :: d' else (k', v') :: dict_set k v d'
  end.

(** [del d[k]] for a key that is present. *)
Fixpoint dict_del {V} (k : string) (d : dict V) : dict V :=
  match d with
  | [] => []
  | (k', v') :: d' =>
      if String.eqb k k' then d' else (k', v') :: dict_del k d'
  end.

(** [d.values()] in insertion order. *)
Definition dict_values {V} (d : dict V) : list V := map snd d.

(** *** [list.sort(key=..., reverse=...)]

    Python's sort is stable and compares keys with [<] only; with
    [reverse=True] the list is reversed, sorted, and reversed again, which
    keeps equal keys in their original order.  A stable sort is determined
    by its input and the order on keys, so insertion sort stands for it. *)
Section Sort.
Context {A K : Type} (lt : K -> K -> bool) (keyf : A -> K).

Fixpoint sort_insert (x : A) (l : list A) : list A :=
  match l with
  | [] => [x]
  | y :: l' =>
      if lt (keyf y) (keyf x) then y :: sort_insert x l' else x :: y :: l'
  end.

Definition stable_sort (l : list A) : list A := foldr sort_insert [] l.

Definition py_sort (rev : bool) (l : list A) : list A :=
  if rev then reverse (stable_sort (reverse l)) else stable_sort l.
End Sort.

(** ** Node *)

Definition addr := positive.

Module Node.

Record t := mk {
  name : string;
  dir : bool;
  size : Z;
  key : string;
  ch : dict addr;
  par : option addr
}.

Definition set_size (s : Z) (n : t) : t :=
  mk (name n) (dir n) s (key n) (ch n) (par n).
Definition set_key (k : string) (n : t) : t :=
  mk (name n) (dir n) (size n) k (ch n) (par n).
Definition set_ch (d : dict addr) (n : t) : t :=
  mk (name n) (dir n) (size n) (key n) d (par n).

End Node.

(** The store of [Node] objects: [next] is the first address never
    allocated. *)
Record Store := mkStore {
  cells : gmap addr Node.t;
  next : addr
}.

Definition deref (σ : Store) (a : addr) : option Node.t := cells σ !! a.

Definition alloc (n : Node.t) (σ : Store) : addr * Store :=
  (next σ, mkStore (<[next σ := n]> (cells σ)) (Pos.succ (next σ))).

(** In-place mutation of the object at [a]. *)
Definition update (a : addr) (f : Node.t -> Node.t) (σ : Store) : Store :=
  mkStore (alter f a (cells σ)) (next σ).

Definition empty_store : Store := mkStore ∅ 1%positive.

(** [sum(c.size for c in d.values())] *)
Definition sum_sizes (σ : Store) (d : dict addr) : option Z :=
  sizes ← mapM (fun c => Node.size <$> deref σ c) (dict_values d);
  Some (py_sum sizes).

(** The two sort keys of [Node.sorted]'s lambda. *)
Inductive sort_key :=
| KInt (z : Z)
| KStr (s : string).

Definition key_lt (a b : sort_key) : bool :=
  match a, b with
  | KInt x, KInt y => Z.ltb x y
  | KStr x, KStr y => String.ltb x y
  | _, _ => false
  end.

Module NodeOps.

(** [Node.sorted]: the children, as (address, object) pairs. *)
Definition sort_lambda (by_ : string) (x : addr * Node.t) : sort_key :=
  if String.eqb by_ "size" then KInt (Node.size x.2)
  else KStr (lower (Node.name x.2)).

(** [list(d.values())]: each reference with the object it points to. *)
Definition values (σ : Store) (d : dict addr) : option (list (addr * Node.t)) :=
  mapM (fun a => pair a <$> deref σ a) (dict_values d).

Definition sorted (σ : Store) (self : addr) (by_ : string)
  : option (list (addr * Node.t)) :=
  n ← deref σ self;
  c ← values σ (Node.ch n);
  Some (py_sort key_lt (sort_lambda by_) (String.eqb by_ "size") c).

(** [Node.recalc]: the fuel bounds the recursion along [par]. *)
Fixpoint recalc_fuel (fuel : nat) (self : addr) (σ : Store) : option Store :=
  match fuel with
  | O => None
  | S fuel' =>
      n ← deref σ self;
      σ1 ← (if Node.dir n
            then s ← sum_sizes σ (Node.ch n);
                 Some (update self (Node.set_size s) σ)
            else Some σ);
      match Node.par n with
      | Some p => recalc_fuel fuel' p σ1
      | None => Some σ1
      end
  end.

Definition recalc (self : addr) (σ : Store) : option Store :=
  recalc_fuel (Pos.to_nat (next σ)) self σ.

(** [Node.all_keys] *)
Fixpoint all_keys_fuel (fuel : nat) (σ : Store) (self : addr)
  : option (list string) :=
  match fuel with
  | O => None
  | S fuel' =>
      n ← deref σ self;
      if negb (Node.dir n)
      then Some (if truthy (Node.key n) then [Node.key n] else [])
      else ks ← mapM (all_keys_fuel fuel' σ) (dict_values (Node.ch n));
           Some (concat ks)
  end.

Definition all_keys (σ : Store) (self : addr) : option (list string) :=
  all_keys_fuel (Pos.to_nat (next σ)) σ self.

(** [Node.count] *)
Fixpoint count_fuel (fuel : nat) (σ : Store) (self : addr) : option Z :=
  match fuel with
  | O => None
  | S fuel' =>
      n ← deref σ self;
      if negb (Node.dir n) then Some 1
      else cs ← mapM (count_fuel fuel' σ) (dict_values (Node.ch n));
           Some (py_sum cs)
  end.

Definition count (σ : Store) (self : addr) : option Z :=
  count_fuel (Pos.to_nat (next σ)) σ self.

End NodeOps.

(** ** Tree *)

Module Tree.

Record t := mk { _root : addr }.

(** [Tree.__init__] *)
Definition init (σ : Store) : t * Store :=
  let '(r, σ') := alloc (Node.mk "/" true 0 "" [] None) σ in (mk r, σ').

(** The [for i, p in enumerate(parts)] loop of [insert]; returns the node
    the loop ends on. *)
Fixpoint walk (key : string) (size : Z) (len : nat) (i : nat)
    (parts : list string) (node : addr) (σ : Store) : option (addr * Store) :=
  match parts with
  | [] => Some (node, σ)
  | p :: rest =>
      let leaf := Nat.eqb i (len - 1) in
      n ← deref σ node;
      match dict_get p (Node.ch n) with
      | None =>
          let '(c, σ1) :=
            alloc (Node.mk p (negb leaf) (if leaf then size else 0)
                           (if leaf then key else "") [] (Some node)) σ in
          let σ2 := update node (Node.set_ch (dict_set p c (Node.ch n))) σ1 in
          walk key size len (S i) rest c σ2
      | Some c =>
          let σ1 :=
            if leaf
            then update c (fun x => Node.set_key key (Node.set_size size x)) σ
            else σ in
          walk key size len (S i) rest c σ1
      end
  end.

(** The [while p:] loop of [insert]. *)
Fixpoint bubble (fuel : nat) (p : option addr) (σ : Store) : option Store :=
  match p with
  | None => Some σ
  | Some a =>
      match fuel with
      | O => None
      | S fuel' =>
          n ← deref σ a;
          s ← sum_sizes σ (Node.ch n);
          bubble fuel' (Node.par n) (update a (Node.set_size s) σ)
      end
  end.

Definition parts_of (key : string) : list string :=
  filter (fun p => truthy p = true) (split_on "/" key).

Definition insert (self : t) (key : string) (size : Z) (σ : Store)
  : option Store :=
  let parts := parts_of key in
  '(node, σ1) ← walk key size (length parts) 0 parts (_root self) σ;
  n ← deref σ1 node;
  bubble (Pos.to_nat (next σ1)) (Node.par n) σ1.

Definition remove (self : t) (node : addr) (σ : Store) : option Store :=
  n ← deref σ node;
  match Node.par n with
  | None => Some σ
  | Some p =>
      pn ← deref σ p;
      if dict_mem (Node.name n) (Node.ch pn)
      then NodeOps.recalc p
             (update p (Node.set_ch (dict_del (Node.name n) (Node.ch pn))) σ)
      else Some σ
  end.

End Tree.

Definition t0 : Tree.t * Store := Tree.init empty_store.

Definition run_inserts (ops : list (string * Z)) (tr : Tree.t) (σ : Store)
  : option Store :=
  foldl (fun acc op => σ' ← acc; Tree.insert tr op.1 op.2 σ') (Some σ) ops.


(** ** Scanner: the partitions of a scan *)

Module Scanner.
Section Listing.
(** [s3.list_objects_v2(Bucket=..., Prefix=prefix, Delimiter="/")]: the
    [Prefix] fields of the response's [CommonPrefixes], the empty list
    when the response has none. *)
Variable common_prefixes : string -> list string.

(** [Scanner._discover]; [asyncio.gather] returns the results in the
    order of its arguments. *)
Fixpoint _discover (prefix : string) (depth : nat) : list string :=
  match depth with
  | O => [prefix]
  | S depth' =>
      match common_prefixes prefix with
      | [] => [prefix]
      | common => concat (map (fun cp => _discover cp depth') common)
      end
  end.

(** [string.digits + string.ascii_lowercase] *)
Definition digits : string := "0123456789".
Definition ascii_lowercase : string := "abcdefghijklmnopqrstuvwxyz".

(** [Scanner._split_prefix] *)
Definition _split_prefix (prefix : string) : list string :=
  map (fun c => prefix +:+ String c "")
      (list_ascii_of_string (digits +:+ ascii_lowercase)).

(** The prefixes that [Scanner.scan] hands to [_list_prefix]. *)
Definition scan_prefixes : list string :=
  let prefixes := _discover "" 2 in
  if (length prefixes <=? 1)%nat
  then let base := match prefixes with p :: _ => p | [] => "" end in
       _split_prefix base
  else prefixes.
End Listing.
(** *** Listing one partition *)

(** A response of [list_objects_v2], by the fields that [_list_prefix]
    reads; a field that the response lacks is [None].  An entry of
    [Contents] is given by its ["Key"] and its ["Size"]. *)
Record response := mk_response {
  Contents : option (list (string * Z));
  IsTruncated : option bool;
  NextContinuationToken : option string
}.

(** How [_list_prefix] ends: it returns, or
    [resp["NextContinuationToken"]] raises [KeyError]. *)
Inductive outcome :=
| Done
| KeyError.

Section Pages.
(** [s3.list_objects_v2(Bucket=..., Prefix=prefix, MaxKeys=1000)], with
    [ContinuationToken=token] when the keyword is passed. *)
Variable list_objects_v2 : string -> option string -> response.
(** Whether a [progress] callback is given; the calls it receives are
    logged. *)
Variable progress : bool.

(** [resp.get("Contents", [])] *)
Definition contents_of (resp : response) : list (string * Z) :=
  default [] (Contents resp).

(** The [while True] loop of [Scanner._list_prefix], from the value of
    [token]. *)
Fixpoint list_loop (fuel : nat) (prefix : string) (tree : Tree.t)
    (token : option string) (σ : Store) (log : list nat)
  : option (outcome * Store * list nat) :=
  match fuel with
  | O => None
  | S fuel' =>
      let kw :=
        match token with
        | Some t => if truthy t then Some t else None
        | None => None
        end in
      let resp := list_objects_v2 prefix kw in
      σ1 ← run_inserts (contents_of resp) tree σ;
      let log1 :=
        if progress then log ++ [length (contents_of resp)] else log in
      match IsTruncated resp with
      | Some true =>
          match NextContinuationToken resp with
          | Some t => list_loop fuel' prefix tree (Some t) σ1 log1
          | None => Some (KeyError, σ1, log1)
          end
      | _ => Some (Done, σ1, log1)
      end
  end.

(** [Scanner._list_prefix] *)
Definition _list_prefix (fuel : nat) (prefix : string) (tree : Tree.t)
    (σ : Store) (log : list nat) : option (outcome * Store * list nat) :=
  list_loop fuel prefix tree None σ log.
End Pages.
End Scanner.

(** ** The object store's delete call *)

(** The client is a test double: it records every [delete_objects] request
    with its outcome, and [accepts n keys] tells whether the request number
    [n] (from 0) succeeds or raises. *)
Record S3 := mkS3 {
  requests : list (list string * bool);
  accepts : nat -> list string -> bool
}.

Definition delete_objects (keys : list string) (c : S3) : S3 * bool :=
  let ok := accepts c (length (requests c)) keys in
  (mkS3 (requests c ++ [(keys, ok)]) (accepts c), ok).

(** ** UI: the browse/delete controller *)

Module UI.

(** The text of the status line, by the f-string that produced it. *)
Inductive Status :=
| StBlank
| StTotals (total : Z) (items : Z)
| StConfirm (dn : string) (cnt : Z) (sz : Z)
| StDeleting (n : nat)
| StDeleted (n : nat).

(** The controller's fields, the [DataTable]'s cursor row, the status
    line, and whether the application is still running.  The path line and
    the text of the table rows are functions of [cwd] and [_items] and are
    not stored; the two-second timer of [action_confirm_yes] is not
    modelled. *)
Record t := mk {
  store : Store;
  _ftree : Tree.t;
  s3 : S3;
  cwd : addr;
  sort_by : string;
  _items : list addr;
  _confirm_node : option addr;
  cursor_row : nat;
  status : Status;
  running : bool
}.

Definition set_store (x : Store) (u : t) : t :=
  mk x (_ftree u) (s3 u) (cwd u) (sort_by u) (_items u) (_confirm_node u)
     (cursor_row u) (status u) (running u).
Definition set_s3 (x : S3) (u : t) : t :=
  mk (store u) (_ftree u) x (cwd u) (sort_by u) (_items u) (_confirm_node u)
     (cursor_row u) (status u) (running u).
Definition set_cwd (x : addr) (u : t) : t :=
  mk (store u) (_ftree u) (s3 u) x (sort_by u) (_items u) (_confirm_node u)
     (cursor_row u) (status u) (running u).
Definition set_sort_by (x : string) (u : t) : t :=
  mk (store u) (_ftree u) (s3 u) (cwd u) x (_items u) (_confirm_node u)
     (cursor_row u) (status u) (running u).
Definition set_items (x : list addr) (u : t) : t :=
  mk (store u) (_ftree u) (s3 u) (cwd u) (sort_by u) x (_confirm_node u)
     (cursor_row u) (status u) (running u).
Definition set_confirm_node (x : option addr) (u : t) : t :=
  mk (store u) (_ftree u) (s3 u) (cwd u) (sort_by u) (_items u) x
     (cursor_row u) (status u) (running u).
Definition set_cursor_row (x : nat) (u : t) : t :=
  mk (store u) (_ftree u) (s3 u) (cwd u) (sort_by u) (_items u)
     (_confirm_node u) x (status u) (running u).
Definition set_status (x : Status) (u : t) : t :=
  mk (store u) (_ftree u) (s3 u) (cwd u) (sort_by u) (_items u)
     (_confirm_node u) (cursor_row u) x (running u).
Definition set_running (x : bool) (u : t) : t :=
  mk (store u) (_ftree u) (s3 u) (cwd u) (sort_by u) (_items u)
     (_confirm_node u) (cursor_row u) (status u) x.

(** What a handler leaves behind: it returns, or an exception of
    [delete_objects] leaves it with the controller in the given state. *)
Inductive result :=
| Returned (u : t)
| Raised (u : t).

(** [UI.__init__] *)
Definition init (ftree : Tree.t) (s3_client : S3) (σ : Store) : t :=
  mk σ ftree s3_client (Tree._root ftree) "size" [] None 0 StBlank true.

Definition _update_status (u : t) : option t :=
  r ← deref (store u) (Tree._root (_ftree u));
  c ← NodeOps.count (store u) (Tree._root (_ftree u));
  Some (set_status (StTotals (Node.size r) c) u).

Definition _cancel_confirm (u : t) : option (bool * t) :=
  match _confirm_node u with
  | Some _ =>
      u' ← _update_status (set_confirm_node None u);
      Some (true, u')
  | None => Some (false, u)
  end.

Definition _sel (u : t) : option addr := _items u !! cursor_row u.

(** [tbl.clear()] puts the cursor back on row 0. *)
Definition _refresh (u : t) : option t :=
  let u1 := set_confirm_node None (set_cursor_row 0 u) in
  items ← NodeOps.sorted (store u1) (cwd u1) (sort_by u1);
  _update_status (set_items (map fst items) u1).

Definition on_mount (u : t) : option t := _refresh u.

Definition on_data_table_row_selected (u : t) : option t :=
  '(cancelled, u1) ← _cancel_confirm u;
  if cancelled : bool then Some u1 else
  match _sel u1 with
  | None => Some u1
  | Some node =>
      n ← deref (store u1) node;
      if Node.dir n && negb (bool_decide (Node.ch n = []))
      then _refresh (set_cwd node u1)
      else Some u1
  end.

(** The loop of [action_go_up] that looks for the row named [nm]. *)
Fixpoint find_row (σ : Store) (nm : string) (i : nat) (items : list addr)
  : option (option nat) :=
  match items with
  | [] => Some None
  | item :: rest =>
      n ← deref σ item;
      if String.eqb (Node.name n) nm then Some (Some i)
      else find_row σ nm (S i) rest
  end.

Definition action_go_up (u : t) : option t :=
  '(cancelled, u1) ← _cancel_confirm u;
  if cancelled : bool then Some u1 else
  c ← deref (store u1) (cwd u1);
  match Node.par c with
  | None => Some u1
  | Some p =>
      let nm := Node.name c in
      u2 ← _refresh (set_cwd p u1);
      row ← find_row (store u2) nm 0 (_items u2);
      match row with
      | Some i => Some (set_cursor_row i u2)
      | None => Some u2
      end
  end.

Definition action_delete (u : t) : option t :=
  '(cancelled, u1) ← _cancel_confirm u;
  if cancelled : bool then Some u1 else
  match _sel u1 with
  | None => Some u1
  | Some node =>
      n ← deref (store u1) node;
      let dn := Node.name n +:+ (if Node.dir n then "/" else "") in
      cnt ← NodeOps.count (store u1) node;
      Some (set_status (StConfirm dn cnt (Node.size n))
              (set_confirm_node (Some node) u1))
  end.

(** The batch loop of [action_confirm_yes]: one [delete_objects] per start
    index; the first request that raises ends the loop. *)
Fixpoint delete_loop (keys : list string) (starts : list nat) (c : S3)
  : S3 * bool :=
  match starts with
  | [] => (c, true)
  | i :: rest =>
      let '(c', ok) := delete_objects (slice keys i (i + 1000)) c in
      if ok then delete_loop keys rest c' else (c', false)
  end.

Definition action_confirm_yes (u : t) : option result :=
  match _confirm_node u with
  | None => Some (Returned u)
  | Some node =>
      keys ← NodeOps.all_keys (store u) node;
      let u1 := set_status (StDeleting (length keys)) u in
      match delete_loop keys (py_range 0 (length keys) 1000) (s3 u1) with
      | (c', false) => Some (Raised (set_s3 c' u1))
      | (c', true) =>
          let u2 := set_s3 c' u1 in
          σ' ← Tree.remove (_ftree u2) node (store u2);
          let u3 := set_store σ' u2 in
          let cur := cursor_row u3 in
          u4 ← _refresh u3;
          let u5 :=
            match _items u4 with
            | [] => u4
            | _ => set_cursor_row (Nat.min cur (length (_items u4) - 1)) u4
            end in
          Some (Returned (set_status (StDeleted (length keys)) u5))
      end
  end.

Definition action_confirm_cancel (u : t) : option t :=
  snd <$> _cancel_confirm u.

Definition action_sort_size (u : t) : option t :=
  '(cancelled, u1) ← _cancel_confirm u;
  if cancelled : bool then Some u1 else _refresh (set_sort_by "size" u1).

Definition action_sort_name (u : t) : option t :=
  '(cancelled, u1) ← _cancel_confirm u;
  if cancelled : bool then Some u1 else _refresh (set_sort_by "name" u1).

(** [App.action_quit], which [UI] inherits and does not override. *)
Definition action_quit (u : t) : option t := Some (set_running false u).

(** The [while n and n.name != "/"] loop of [_path]: the names from [n]
    upwards, in the order they are appended. *)
Fixpoint path_loop (fuel : nat) (σ : Store) (parts : list string)
    (n : option addr) : option (list string) :=
  match n with
  | None => Some parts
  | Some a =>
      match fuel with
      | O => None
      | S fuel' =>
          m ← deref σ a;
          if String.eqb (Node.name m) "/" then Some parts
          else path_loop fuel' σ (parts ++ [Node.name m]) (Node.par m)
      end
  end.

(** [UI._path]: the text that [_refresh] puts after the bucket's name in
    the path line. *)
Definition _path (u : t) : option string :=
  parts ← path_loop (Pos.to_nat (next (store u))) (store u) [] (Some (cwd u));
  Some (if bool_decide (parts = []) then "/"
        else "/" +:+ join "/" (reverse parts)).

(** [UI.BINDINGS]: key, action. *)
Definition BINDINGS : dict string :=
  [("q", "quit"); ("d", "delete"); ("s", "sort_size"); ("n", "sort_name");
   ("backspace", "go_up"); ("y", "confirm_yes"); ("escape", "confirm_cancel")].

Definition run_action (action : string) (u : t) : option result :=
  match action with
  | "quit" => Returned <$> action_quit u
  | "delete" => Returned <$> action_delete u
  | "sort_size" => Returned <$> action_sort_size u
  | "sort_name" => Returned <$> action_sort_name u
  | "go_up" => Returned <$> action_go_up u
  | "confirm_yes" => action_confirm_yes u
  | "confirm_cancel" => Returned <$> action_confirm_cancel u
  | _ => Some (Returned u)
  end.

(** A key press: the bound action runs; a key that [BINDINGS] does not
    list reaches none of the controller's handlers. *)
Definition press (k : string) (u : t) : option result :=
  match dict_get k BINDINGS with
  | Some action => run_action action u
  | None => Some (Returned u)
  end.

(** What the event loop delivers to the controller: a key press, or the
    table's row-selected message. *)
Inductive event :=
| Key (k : string)
| RowSelected.

Definition handle (e : event) (u : t) : option result :=
  match e with
  | Key k => press k u
  | RowSelected => Returned <$> on_data_table_row_selected u
  end.

(** The two states of the controller, in the specification's words. *)
Inductive mode :=
| Browsing (currentDir : addr)
| ConfirmingDelete (targetNode : addr).

Definition mode_of (u : t) : mode :=
  match _confirm_node u with
  | None => Browsing (cwd u)
  | Some node => ConfirmingDelete node
  end.

End UI.

(** ** Predicates on stores *)

(** The shape every store of the program has: objects sit below [next],
    children are allocated after their parent and exist, parents exist, and
    an object that is not a directory carries a key. *)
Record wf (σ : Store) : Prop := mk_wf {
  wf_dom : ∀ a n, deref σ a = Some n → (a < next σ)%positive;
  wf_ch : ∀ a n k c, deref σ a = Some n → (k, c) ∈ Node.ch n →
    (a < c)%positive ∧ is_Some (deref σ c);
  wf_par : ∀ a n p, deref σ a = Some n → Node.par n = Some p →
    (p < a)%positive ∧ is_Some (deref σ p);
  wf_key : ∀ a n, deref σ a = Some n → Node.dir n = false →
    truthy (Node.key n) = true
}.

(** No object is ever freed, and [name], [dir] and [par] are never
    reassigned. *)
Definition extends (σ σ' : Store) : Prop :=
  (next σ ≤ next σ')%positive ∧
  ∀ a n, deref σ a = Some n →
    ∃ n', deref σ' a = Some n' ∧ Node.par n' = Node.par n ∧
          Node.dir n' = Node.dir n ∧ Node.name n' = Node.name n.

(** A tree at rest: its root object exists and has no parent. *)
Definition tree_ok (tr : Tree.t) (σ : Store) : Prop :=
  wf σ ∧ ∃ r, deref σ (Tree._root tr) = Some r ∧ Node.par r = None.

(** ** Trees the program can hold *)

(** The nodes of a tree: the root and, transitively, the values of the
    [ch] dictionaries. *)
Inductive in_tree (tr : Tree.t) (σ : Store) : addr → Prop :=
| in_tree_root : in_tree tr σ (Tree._root tr)
| in_tree_child a n k c :
    in_tree tr σ a → deref σ a = Some n → (k, c) ∈ Node.ch n → in_tree tr σ c.

(** The aggregation invariant: the size of every directory of the tree is
    the sum of the sizes of its children. *)
Definition sizes_consistent (tr : Tree.t) (σ : Store) : Prop :=
  ∀ a n, in_tree tr σ a → deref σ a = Some n → Node.dir n = true →
         sum_sizes σ (Node.ch n) = Some (Node.size n).

(** The stores reached from [Tree()] by [insert] and [remove]. *)
Inductive built : Tree.t → Store → Prop :=
| built_init : built t0.1 t0.2
| built_insert tr σ key size σ' :
    built tr σ → Tree.insert tr key size σ = Some σ' → built tr σ'
| built_remove tr σ node σ' :
    built tr σ → is_Some (deref σ node) → Tree.remove tr node σ = Some σ' →
    built tr σ'.

(** What an observer of a tree sees of a node: the names on the way from
    the root, and the node's [name], [dir], [size] and [key]. *)
Definition entry : Type := list string * string * bool * Z * string.

Fixpoint snapshot_fuel (fuel : nat) (σ : Store) (path : list string) (a : addr)
  : option (list entry) :=
  match fuel with
  | O => None
  | S fuel' =>
      n ← deref σ a;
      subs ← mapM (λ kc, snapshot_fuel fuel' σ (path ++ [kc.1]) kc.2) (Node.ch n);
      Some ((path, Node.name n, Node.dir n, Node.size n, Node.key n) :: concat subs)
  end.

Definition snapshot (tr : Tree.t) (σ : Store) : option (list entry) :=
  snapshot_fuel (Pos.to_nat (next σ)) σ [] (Tree._root tr).

(** Two trees with the same nodes, whatever the order of the children. *)
Definition indistinguishable (tr : Tree.t) (σ1 σ2 : Store) : Prop :=
  ∃ l1 l2, snapshot tr σ1 = Some l1 ∧ snapshot tr σ2 = Some l2 ∧ l1 ≡ₚ l2.

(** ** When the aggregation invariant holds *)

(** Every entry of a [ch] dictionary points to an object whose [par] is
    the owner of the dictionary. *)
Definition shape (σ : Store) : Prop :=
  ∀ a n k c, deref σ a = Some n → (k, c) ∈ Node.ch n →
    ∃ m, deref σ c = Some m ∧ Node.par m = Some a.

(** The size of the directory at [a] is the sum of its children's sizes. *)
Definition consistent (σ : Store) (a : addr) : Prop :=
  ∀ n, deref σ a = Some n → Node.dir n = true →
       sum_sizes σ (Node.ch n) = Some (Node.size n).

Definition sizes_ok (σ : Store) : Prop := ∀ a, consistent σ a.

(** [chain σ p b]: [b] is [p] or one of its ancestors along [par]. *)
Inductive chain (σ : Store) : option addr → addr → Prop :=
| chain_here a : chain σ (Some a) a
| chain_up a n b :
    deref σ a = Some n → chain σ (Node.par n) b → chain σ (Some a) b.

(** The node that a list of segments leads to, when all of them exist. *)
Fixpoint target (σ : Store) (node : addr) (parts : list string) : option addr :=
  match parts with
  | [] => Some node
  | p :: rest =>
      n ← deref σ node;
      c ← dict_get p (Node.ch n);
      target σ c rest
  end.

(** The key is the path of a directory of the tree. *)
Definition names_directory (tr : Tree.t) (σ : Store) (key : string) : Prop :=
  Tree.parts_of key ≠ [] ∧
  ∃ c n, target σ (Tree._root tr) (Tree.parts_of key) = Some c ∧
         deref σ c = Some n ∧ Node.dir n = true.

(** The stores reached from [Tree()] by [remove] and by [insert] of keys
    that do not name a directory. *)
Inductive built_clean : Tree.t → Store → Prop :=
| clean_init : built_clean t0.1 t0.2
| clean_insert tr σ key size σ' :
    built_clean tr σ → ¬ names_directory tr σ key →
    Tree.insert tr key size σ = Some σ' → built_clean tr σ'
| clean_remove tr σ node σ' :
    built_clean tr σ → is_Some (deref σ node) →
    Tree.remove tr node σ = Some σ' → built_clean tr σ'.

(** ** Specification-level definitions for the scanner, the sort and the controller *)

(** A bucket whose only top-level prefix is ["a/"], with two prefixes
    below it. *)
Definition nested_listing (prefix : string) : list string :=
  if String.eqb prefix "" then ["a/"]
  else if String.eqb prefix "a/" then ["a/x/"; "a/y/"]
  else [].

(** [x] may stand before [y]: the key of [y] is not below the key of [x]. *)
Definition key_le {A K} (lt : K → K → bool) (keyf : A → K) (x y : A) : Prop :=
  lt (keyf y) (keyf x) = false.

(** The order that C4 states for [by="size"]: size descending, and for equal
    sizes lower-cased name ascending. *)
Definition size_then_name (x y : addr * Node.t) : Prop :=
  (Node.size y.2 < Node.size x.2)%Z ∨
  (Node.size x.2 = Node.size y.2 ∧
   String.leb (lower (Node.name x.2)) (lower (Node.name y.2)) = true).

(** The lists of keys that [action_confirm_yes] has to send for [keys]. *)
Definition batches (keys : list string) : list (list string) :=
  map (λ i, slice keys i (i + 1000)) (py_range 0 (length keys) 1000).

(** Sending batches in order until one is refused. *)
Fixpoint send (bs : list (list string)) (c : S3) : S3 * bool :=
  match bs with
  | [] => (c, true)
  | b :: rest =>
      let '(c', ok) := delete_objects b c in
      if ok then send rest c' else (c', false)
  end.

(** A controller over a tree at rest, whose current directory, pending
    node and table rows are objects of the store. *)
Definition UI_ok (u : UI.t) : Prop :=
  tree_ok (UI._ftree u) (UI.store u) ∧
  is_Some (deref (UI.store u) (UI.cwd u)) ∧
  (∀ node, UI._confirm_node u = Some node → is_Some (deref (UI.store u) node)) ∧
  Forall (λ a, is_Some (deref (UI.store u) a)) (UI._items u).

(** The states of a session: the interface is mounted on a scanned tree;
    then the user moves the table's cursor, and the event loop delivers key
    presses and row selections, whose handlers return or raise. *)
Inductive session : UI.t → Prop :=
| session_mount tr σ c u :
    built tr σ → UI.on_mount (UI.init tr c σ) = Some u → session u
| session_cursor u row :
    session u → session (UI.set_cursor_row row u)
| session_returned u e u' :
    session u → UI.handle e u = Some (UI.Returned u') → session u'
| session_raised u e u' :
    session u → UI.handle e u = Some (UI.Raised u') → session u'.

(** ** Concrete sessions *)

(** The keys ["d/0"], ["d/1"], ... of [n] objects of one byte each. *)
Definition numbered_keys (n : nat) : list (string * Z) :=
  map (λ i, ("d/" +:+ pretty i, 1)) (seq 0 n).

(** Clients: one that accepts every request, one that refuses every
    request, one that refuses the second request. *)
Definition accept_all : S3 := mkS3 [] (λ _ _, true).
Definition refuse_all : S3 := mkS3 [] (λ _ _, false).
Definition refuse_second : S3 := mkS3 [] (λ i _, negb (i =? 1)%nat).

(** Scan the objects, open the interface, press [d] on the first row. *)
Definition confirming (c : S3) (ops : list (string * Z)) : option UI.result :=
  σ ← run_inserts ops t0.1 t0.2;
  u0 ← UI.on_mount (UI.init t0.1 c σ);
  UI.press "d" u0.

(** The state a handler leaves, whether it returned or raised. *)
Definition result_state (r : option UI.result) : UI.t :=
  match r with
  | Some (UI.Returned u) | Some (UI.Raised u) => u
  | None => UI.init t0.1 accept_all t0.2
  end.

(** Two objects under [a/]; [d] pressed on the row of [a]. *)
Definition pending_small : UI.t :=
  result_state (confirming accept_all [("a/b/c.txt", 300); ("a/d.txt", 100)]).

(** The same with a client that refuses. *)
Definition pending_refused : UI.t :=
  result_state (confirming refuse_all [("a/b/c.txt", 300); ("a/d.txt", 100)]).

(** What a test of a delete sees: the state of the controller before [y]
    is pressed, whether [action_confirm_yes] raised, the number of keys and
    the outcome of each request the client received, the number of keys the
    tree lists afterwards, and whether the keys of the first request, when
    it succeeded, are still the first keys that the tree lists. *)
Record observation := mk_observation {
  obs_pending : UI.mode;
  obs_raised : bool;
  obs_requests : list (nat * bool);
  obs_listed : nat;
  obs_first_listed : bool
}.

(** Scan the objects, open the interface, press [d] on the first row, then
    [y]. *)
Definition observe_delete (c : S3) (ops : list (string * Z)) : option observation :=
  r ← confirming c ops;
  match r with
  | UI.Raised _ => None
  | UI.Returned u =>
      r' ← UI.action_confirm_yes u;
      let '(raised, u') :=
        match r' with
        | UI.Raised u' => (true, u')
        | UI.Returned u' => (false, u')
        end in
      ks ← NodeOps.all_keys (UI.store u') (Tree._root (UI._ftree u'));
      Some (mk_observation
              (UI.mode_of u) raised
              (map (λ r, (length r.1, r.2)) (requests (UI.s3 u')))
              (length ks)
              match requests (UI.s3 u') with
              | (b, true) :: _ => bool_decide (b = take (length b) ks)
              | _ => false
              end)
  end.

(** ** Further predicates on stores *)

(** Every entry [(k, c)] of a [ch] dictionary points to the object named
    [k] whose [par] is the owner of the dictionary, and no dictionary holds
    a key twice. *)
Record links (σ : Store) : Prop := mk_links {
  links_child : ∀ a n k c, deref σ a = Some n → (k, c) ∈ Node.ch n →
    ∃ m, deref σ c = Some m ∧ Node.par m = Some a ∧ Node.name m = k;
  links_nodup : ∀ a n, deref σ a = Some n → NoDup (map fst (Node.ch n))
}.

(** [σ'] has the objects of [σ], with the same fields except [size]. *)
Definition same_but_sizes (σ σ' : Store) : Prop :=
  next σ' = next σ ∧
  ∀ a, match deref σ a, deref σ' a with
       | Some n, Some n' => n' = Node.set_size (Node.size n') n
       | None, None => True
       | _, _ => False
       end.

(** The entries of the [ch] dictionaries of [σ] are still there in [σ']. *)
Definition keeps_entries (σ σ' : Store) : Prop :=
  ∀ a n k c, deref σ a = Some n → dict_get k (Node.ch n) = Some c →
    ∃ n', deref σ' a = Some n' ∧ dict_get k (Node.ch n') = Some c.

(** Two stores that differ at most in the sizes of [p] and its ancestors. *)
Definition agree_off (p : option addr) (X Y : Store) : Prop :=
  next X = next Y ∧
  ∀ a, match deref X a, deref Y a with
       | Some x, Some y =>
           y = Node.set_size (Node.size y) x ∧ (¬ chain X p a → x = y)
       | None, None => True
       | _, _ => False
       end.

(** ** Predicates on listings *)

(** [paged srv prefix kw pages]: asked for [prefix] with the continuation
    token [kw], the service answers with the pages [pages], every page but
    the last truncated and carrying the non-empty token of the next. *)
Inductive paged (srv : string → option string → Scanner.response) (prefix : string)
  : option string → list Scanner.response → Prop :=
| paged_last kw :
    Scanner.IsTruncated (srv prefix kw) ≠ Some true →
    paged srv prefix kw [srv prefix kw]
| paged_more kw t rest :
    Scanner.IsTruncated (srv prefix kw) = Some true →
    Scanner.NextContinuationToken (srv prefix kw) = Some t →
    truthy t = true →
    paged srv prefix (Some t) rest →
    paged srv prefix kw (srv prefix kw :: rest).

(** A service with three pages for the prefix ["a/"]. *)
Definition three_pages (prefix : string) (kw : option string) : Scanner.response :=
  match kw with
  | None => Scanner.mk_response (Some [("a/1", 1); ("a/2", 2)]) (Some true) (Some "t1")
  | Some "t1" => Scanner.mk_response (Some [("a/3", 3)]) (Some true) (Some "t2")
  | _ => Scanner.mk_response None (Some false) None
  end.

(** A service whose only page is truncated and has no token. *)
Definition no_token (prefix : string) (kw : option string) : Scanner.response :=
  Scanner.mk_response (Some [("a/1", 1)]) (Some true) None.

(** A service whose page is truncated and has the empty token. *)
Definition empty_token (prefix : string) (kw : option string) : Scanner.response :=
  Scanner.mk_response (Some [("a/1", 1)]) (Some true) (Some "").

(** ** Predicates on controller states *)

(** The handler left the tree and the client as they were. *)
Definition same_world (u u' : UI.t) : Prop :=
  UI.store u' = UI.store u ∧ UI.s3 u' = UI.s3 u ∧ UI._ftree u' = UI._ftree u.

(** The rows of the table are the children of the current directory, in
    the order of [sorted] for the current criterion. *)
Definition in_sync (u : UI.t) : Prop :=
  ∃ l, NodeOps.sorted (UI.store u) (UI.cwd u) (UI.sort_by u) = Some l ∧
       UI._items u = map fst l.

(** The requests of the batch loop of [action_confirm_yes] on [keys]. *)
Definition delete_loop_result (keys : list string) (c : S3) : S3 * bool :=
  UI.delete_loop keys (py_range 0 (length keys) 1000) c.

(** A pending delete is of a row of the table. *)
Definition pending_row (u : UI.t) : Prop :=
  ∀ node, UI._confirm_node u = Some node → node ∈ UI._items u.

(** Two objects under [a/] and one beside it; [d] pressed on the row of
    [a]. *)
Definition pending_beside : UI.t :=
  result_state
    (confirming accept_all [("a/b/c.txt", 300); ("a/d.txt", 100); ("e.txt", 7)]).

(** The one-character names [é] and [É] (code points 233 and 201), and the
    objects of a bucket whose names differ in case and in size. *)
Definition e_acute : string := String "233"%char "".
Definition E_acute : string := String "201"%char "".
Definition mixed_case : list (string * Z) :=
  [(e_acute, 1); (E_acute, 2); ("b", 3); ("A", 3)].

(** * Properties *)

(** ** The store *)

Lemma deref_update σ a f b :
  deref (update a f σ) b = if decide (a = b) then f <$> deref σ a else deref σ b.
Proof. unfold deref, update; simpl. apply lookup_alter. Qed.

Lemma deref_update_eq σ a f n :
  deref σ a = Some n → deref (update a f σ) a = Some (f n).
Proof. intros H. rewrite deref_update, decide_True by done. by rewrite H. Qed.

Lemma deref_update_ne σ a f b : a ≠ b → deref (update a f σ) b = deref σ b.
Proof. intros H. by rewrite deref_update, decide_False. Qed.

Lemma deref_update_Some σ a f b n' :
  deref (update a f σ) b = Some n' →
  ∃ n, deref σ b = Some n ∧ (n' = n ∨ (a = b ∧ n' = f n)).
Proof.
  rewrite deref_update. case_decide as E.
  - subst b. destruct (deref σ a) as [n|]; [|done].
    intros [= <-]. eauto.
  - eauto.
Qed.

Lemma deref_alloc σ n b :
  deref (alloc n σ).2 b = if decide (next σ = b) then Some n else deref σ b.
Proof. unfold deref, alloc; simpl. apply lookup_insert. Qed.

Lemma next_update σ a f : next (update a f σ) = next σ.
Proof. done. Qed.

Lemma wf_fresh σ : wf σ → deref σ (next σ) = None.
Proof.
  intros W. destruct (deref σ (next σ)) as [n|] eqn:E; [|done].
  apply (wf_dom _ W) in E. lia.
Qed.

(** An in-place update that keeps [par], keeps the key of a non-directory
    non-empty, and gives the object only children that exist and were
    allocated after it. *)
Lemma wf_update σ a f n :
  wf σ → deref σ a = Some n →
  Node.par (f n) = Node.par n →
  (Node.dir (f n) = false → truthy (Node.key (f n)) = true) →
  (∀ k c, (k, c) ∈ Node.ch (f n) → (a < c)%positive ∧ is_Some (deref σ c)) →
  wf (update a f σ).
Proof.
  intros W Ha Hp Hk Hc.
  assert (Hex : ∀ b, is_Some (deref σ b) → is_Some (deref (update a f σ) b)).
  { intros b [m Hm]. rewrite deref_update. case_decide; [subst; rewrite Ha|]; eauto. }
  split.
  - intros b m Hb. apply deref_update_Some in Hb as (m0 & Hb & _).
    rewrite next_update. by eapply wf_dom.
  - intros b m k c Hb Hin. apply deref_update_Some in Hb as (m0 & Hb & [->|[-> ->]]).
    + destruct (wf_ch _ W _ _ _ _ Hb Hin); eauto.
    + rewrite Ha in Hb. injection Hb as <-. destruct (Hc _ _ Hin); eauto.
  - intros b m p Hb Hpar. apply deref_update_Some in Hb as (m0 & Hb & [->|[-> ->]]).
    + destruct (wf_par _ W _ _ _ Hb Hpar); eauto.
    + rewrite Ha in Hb. injection Hb as <-. rewrite Hp in Hpar.
      destruct (wf_par _ W _ _ _ Ha Hpar); eauto.
  - intros b m Hb Hd. apply deref_update_Some in Hb as (m0 & Hb & [->|[-> ->]]).
    + by eapply wf_key.
    + rewrite Ha in Hb. injection Hb as <-. by apply Hk.
Qed.

Lemma wf_update_size σ a s : wf σ → wf (update a (Node.set_size s) σ).
Proof.
  intros W. destruct (deref σ a) as [n|] eqn:Ha.
  - eapply wf_update; eauto.
    + simpl. by eapply wf_key.
    + simpl. intros k c Hin. by eapply wf_ch.
  - assert (update a (Node.set_size s) σ = σ) as ->; [|done].
    destruct σ as [m nx]. unfold update, deref in *; simpl in *. f_equal.
    apply map_eq. intros i. rewrite lookup_alter. case_decide; [subst|done].
    by rewrite Ha.
Qed.

Lemma wf_alloc σ n :
  wf σ → Node.ch n = [] →
  (∀ p, Node.par n = Some p → is_Some (deref σ p)) →
  (Node.dir n = false → truthy (Node.key n) = true) →
  wf (alloc n σ).2.
Proof.
  intros W Hch Hp Hk.
  assert (Hex : ∀ b, is_Some (deref σ b) → is_Some (deref (alloc n σ).2 b)).
  { intros b [m Hm]. rewrite deref_alloc. case_decide; eauto. }
  split.
  - intros b m. rewrite deref_alloc. simpl. case_decide.
    + intros _. lia.
    + intros Hb. apply (wf_dom _ W) in Hb. lia.
  - intros b m k c. rewrite deref_alloc. case_decide.
    + intros [= <-]. rewrite Hch. by intros ?%elem_of_nil.
    + intros Hb Hin. destruct (wf_ch _ W _ _ _ _ Hb Hin); eauto.
  - intros b m p. rewrite deref_alloc. case_decide.
    + intros [= <-] Hpar. subst b. destruct (Hp _ Hpar) as [pn Hpn].
      split; [by eapply wf_dom | apply Hex; eauto].
    + intros Hb Hpar. destruct (wf_par _ W _ _ _ Hb Hpar); eauto.
  - intros b m. rewrite deref_alloc. case_decide.
    + by intros [= <-].
    + intros Hb. by eapply wf_key.
Qed.

Lemma extends_refl σ : extends σ σ.
Proof. split; [lia | eauto]. Qed.

Lemma extends_trans σ1 σ2 σ3 : extends σ1 σ2 → extends σ2 σ3 → extends σ1 σ3.
Proof.
  intros [L1 H1] [L2 H2]. split; [lia|].
  intros a n Ha. destruct (H1 _ _ Ha) as (n' & Ha' & ? & ? & ?).
  destruct (H2 _ _ Ha') as (n'' & Ha'' & ? & ? & ?).
  exists n''. repeat split; congruence.
Qed.

Lemma extends_update σ a f :
  (∀ n, deref σ a = Some n →
        Node.par (f n) = Node.par n ∧ Node.dir (f n) = Node.dir n ∧
        Node.name (f n) = Node.name n) →
  extends σ (update a f σ).
Proof.
  intros Hf. split; [rewrite next_update; lia|].
  intros b n Hb. rewrite deref_update. case_decide.
  - subst b. rewrite Hb. simpl. exists (f n). split; [done|]. by apply Hf.
  - eauto.
Qed.

Lemma extends_alloc σ n : wf σ → extends σ (alloc n σ).2.
Proof.
  intros W. split; [simpl; lia|].
  intros b m Hb. rewrite deref_alloc. case_decide.
  - subst b. by rewrite wf_fresh in Hb.
  - eauto.
Qed.

Lemma extends_is_Some σ σ' a : extends σ σ' → is_Some (deref σ a) → is_Some (deref σ' a).
Proof. intros [_ H] [n Hn]. destruct (H _ _ Hn) as (n' & ? & _). eauto. Qed.

(** ** Dictionaries *)

Lemma dict_get_elem {V} k (d : dict V) v : dict_get k d = Some v → (k, v) ∈ d.
Proof.
  induction d as [|[k' v'] d IH]; simpl; [done|].
  destruct (String.eqb_spec k k') as [->|_].
  - intros [= ->]. left.
  - intros H. right. auto.
Qed.

Lemma dict_set_elem {V} k (v : V) d x : x ∈ dict_set k v d → x = (k, v) ∨ x ∈ d.
Proof.
  induction d as [|[k' v'] d IH]; simpl.
  - intros ->%list_elem_of_singleton. by left.
  - destruct (String.eqb_spec k k') as [->|_].
    + intros [->| ?]%elem_of_cons; [by left | right; by right].
    + intros [->| [->| ?]%IH]%elem_of_cons;
        [right; left | by left | right; by right].
Qed.

Lemma dict_del_elem {V} k (d : dict V) x : x ∈ dict_del k d → x ∈ d.
Proof.
  induction d as [|[k' v'] d IH]; simpl; [done|].
  destruct (String.eqb_spec k k') as [->|_].
  - by right.
  - intros [->| ?%IH]%elem_of_cons; [left | by right].
Qed.

Lemma dict_values_elem {V} (d : dict V) v : v ∈ dict_values d → ∃ k, (k, v) ∈ d.
Proof.
  induction d as [|[k' v'] d IH]; simpl.
  - by intros ?%elem_of_nil.
  - intros [->| [k ?]%IH]%elem_of_cons.
    + exists k'. left.
    + exists k. by right.
Qed.

(** ** Sums of sizes, [recalc] and the loops of [insert] return *)

Lemma sum_sizes_is_Some σ d :
  (∀ k c, (k, c) ∈ d → is_Some (deref σ c)) → is_Some (sum_sizes σ d).
Proof.
  intros H. unfold sum_sizes.
  assert (is_Some (mapM (λ c, Node.size <$> deref σ c) (dict_values d))) as [l ->].
  { apply mapM_is_Some_2, Forall_forall. intros c [k Hk]%dict_values_elem.
    destruct (H _ _ Hk) as [m Hm]. unfold compose. rewrite Hm. simpl. eauto. }
  simpl. eauto.
Qed.

Lemma sum_sizes_wf σ a n : wf σ → deref σ a = Some n → is_Some (sum_sizes σ (Node.ch n)).
Proof.
  intros W Ha. apply sum_sizes_is_Some. intros k c Hin.
  by destruct (wf_ch _ W _ _ _ _ Ha Hin).
Qed.

Lemma extends_update_size σ a s : extends σ (update a (Node.set_size s) σ).
Proof. apply extends_update. by intros n _. Qed.

Lemma recalc_fuel_total fuel : ∀ σ a,
  wf σ → is_Some (deref σ a) → (Pos.to_nat a ≤ fuel)%nat →
  ∃ σ', NodeOps.recalc_fuel fuel a σ = Some σ' ∧ wf σ' ∧ extends σ σ'.
Proof.
  induction fuel as [|fuel IH]; intros σ a W [n Ha] Hf; [lia|].
  simpl. rewrite Ha. simpl.
  assert (∃ σ1, (if Node.dir n
                 then s ← sum_sizes σ (Node.ch n); Some (update a (Node.set_size s) σ)
                 else Some σ) = Some σ1 ∧ wf σ1 ∧ extends σ σ1) as (σ1 & -> & W1 & E1).
  { destruct (Node.dir n).
    - destruct (sum_sizes_wf _ _ _ W Ha) as [s ->]. simpl.
      eexists; split; [done|]. split; [by apply wf_update_size | apply extends_update_size].
    - eexists; split; [done|]. split; [done | apply extends_refl]. }
  simpl. destruct (Node.par n) as [p|] eqn:Hp.
  - destruct (wf_par _ W _ _ _ Ha Hp) as [Hlt Hex].
    destruct (IH σ1 p W1) as (σ' & -> & W' & E').
    + by eapply extends_is_Some.
    + lia.
    + eauto using extends_trans.
  - eauto.
Qed.

Lemma recalc_total σ a :
  wf σ → is_Some (deref σ a) →
  ∃ σ', NodeOps.recalc a σ = Some σ' ∧ wf σ' ∧ extends σ σ'.
Proof.
  intros W [n Ha]. apply recalc_fuel_total; eauto.
  apply (wf_dom _ W) in Ha. lia.
Qed.

Lemma bubble_total fuel : ∀ σ p,
  wf σ → (∀ a, p = Some a → is_Some (deref σ a) ∧ (Pos.to_nat a ≤ fuel)%nat) →
  ∃ σ', Tree.bubble fuel p σ = Some σ' ∧ wf σ' ∧ extends σ σ'.
Proof.
  induction fuel as [|fuel IH]; intros σ [a|] W Hp; simpl;
    try (eexists; split; [done|]; split; [done | apply extends_refl]).
  - destruct (Hp a eq_refl) as [_ ?]. lia.
  - destruct (Hp a eq_refl) as [[n Ha] Hf]. rewrite Ha. simpl.
    destruct (sum_sizes_wf _ _ _ W Ha) as [s ->]. simpl.
    destruct (IH (update a (Node.set_size s) σ) (Node.par n)) as (σ' & -> & W' & E').
    + by apply wf_update_size.
    + intros p Hpar. destruct (wf_par _ W _ _ _ Ha Hpar) as [Hlt Hex]. split.
      * eapply extends_is_Some; [apply extends_update_size | done].
      * lia.
    + eauto using extends_trans, extends_update_size.
Qed.

(** The two mutations of the [for] loop of [insert]: overwriting the leaf,
    and attaching a new child. *)
Lemma wf_overwrite σ c m key size :
  wf σ → deref σ c = Some m → truthy key = true →
  wf (update c (λ x, Node.set_key key (Node.set_size size x)) σ).
Proof.
  intros W Hm Hk. apply (wf_update σ c _ m W Hm); simpl; [done..|].
  intros k c' Hin. by eapply wf_ch.
Qed.

Lemma deref_attach σ node n new p b :
  wf σ → deref σ node = Some n →
  deref (update node (Node.set_ch (dict_set p (next σ) (Node.ch n))) (alloc new σ).2) b =
    if decide (b = node) then Some (Node.set_ch (dict_set p (next σ) (Node.ch n)) n)
    else if decide (b = next σ) then Some new
    else deref σ b.
Proof.
  intros W Hn.
  assert (Hne : next σ ≠ node) by (intros <-; by rewrite wf_fresh in Hn).
  rewrite deref_update, !deref_alloc.
  destruct (decide (node = b)) as [<-|]; [|destruct (decide (next σ = b)) as [<-|]].
  - rewrite decide_False, Hn, decide_True by done. done.
  - by rewrite decide_False, decide_True by done.
  - by rewrite !decide_False by done.
Qed.

Lemma wf_attach σ node n new p :
  wf σ → deref σ node = Some n →
  Node.ch new = [] → Node.par new = Some node →
  (Node.dir new = false → truthy (Node.key new) = true) →
  wf (update node (Node.set_ch (dict_set p (next σ) (Node.ch n))) (alloc new σ).2).
Proof.
  intros W Hn Hch Hpar Hk.
  assert (W1 : wf (alloc new σ).2).
  { apply wf_alloc; [done..| |done]. rewrite Hpar. intros ? [= <-]. eauto. }
  assert (Hne : next σ ≠ node) by (intros <-; by rewrite wf_fresh in Hn).
  assert (Hn1 : deref (alloc new σ).2 node = Some n).
  { rewrite deref_alloc. by rewrite decide_False. }
  apply (wf_update _ node _ n W1 Hn1); [done| |].
  - simpl. by eapply wf_key.
  - intros k c [[= -> ->]|Hin]%dict_set_elem.
    + split; [by eapply wf_dom|]. rewrite deref_alloc, decide_True by done. eauto.
    + destruct (wf_ch _ W _ _ _ _ Hn Hin) as [? ?]. split; [done|].
      eapply extends_is_Some; [by apply extends_alloc | done].
Qed.

Lemma extends_attach σ node n new p :
  wf σ →
  extends σ (update node (Node.set_ch (dict_set p (next σ) (Node.ch n))) (alloc new σ).2).
Proof.
  intros W. eapply extends_trans; [by apply extends_alloc|].
  apply extends_update. by intros ? _.
Qed.

Lemma walk_total key size len : ∀ parts i node σ,
  wf σ → is_Some (deref σ node) → truthy key = true →
  ∃ node' σ', Tree.walk key size len i parts node σ = Some (node', σ') ∧
              wf σ' ∧ extends σ σ' ∧ is_Some (deref σ' node').
Proof.
  induction parts as [|p rest IH]; intros i node σ W [n Hn] Hk; simpl.
  - exists node, σ. eauto using extends_refl.
  - rewrite Hn. simpl. destruct (dict_get p (Node.ch n)) as [c|] eqn:Hg.
    + apply dict_get_elem in Hg. destruct (wf_ch _ W _ _ _ _ Hn Hg) as [Hlt [m Hm]].
      set (σ1 := if (i =? len - 1)%nat then _ else σ).
      assert (wf σ1 ∧ extends σ σ1) as [W1 E1].
      { subst σ1. destruct (i =? len - 1)%nat; [|eauto using extends_refl]. split.
        - by eapply wf_overwrite.
        - apply extends_update. by intros ? _. }
      destruct (IH (S i) c σ1 W1) as (node' & σ' & -> & W' & E' & Hex); [|done|].
      { eapply extends_is_Some; eauto. }
      exists node', σ'. eauto using extends_trans.
    + set (new := Node.mk p _ _ _ [] (Some node)).
      change (mkStore (<[next σ:=new]> (cells σ)) (Pos.succ (next σ)))
        with (alloc new σ).2.
      set (σ2 := update node _ _).
      assert (W2 : wf σ2).
      { apply wf_attach; [done..|]. simpl. by destruct (i =? len - 1)%nat. }
      assert (E2 : extends σ σ2) by by apply extends_attach.
      destruct (IH (S i) (next σ) σ2 W2) as (node' & σ' & -> & W' & E' & Hex); [|done|].
      { subst σ2. rewrite (deref_attach _ _ _ _ _ _ W Hn).
        destruct (decide (next σ = node)); [eauto|]. rewrite decide_True by done. eauto. }
      exists node', σ'. split; [done|]. split; [done|]. split; [|done].
      by eapply extends_trans.
Qed.

Lemma parts_of_truthy key : Tree.parts_of key ≠ [] → truthy key = true.
Proof. destruct key; [by intros [] | done]. Qed.

Lemma tree_ok_extends tr σ σ' : tree_ok tr σ → wf σ' → extends σ σ' → tree_ok tr σ'.
Proof.
  intros [_ (r & Hr & Hp)] W' [_ E]. split; [done|].
  destruct (E _ _ Hr) as (r' & Hr' & Hp' & _). exists r'. split; [done | congruence].
Qed.

Lemma bubble_None fuel σ : Tree.bubble fuel None σ = Some σ.
Proof. by destruct fuel. Qed.

(** [Tree.insert] returns on every tree, and leaves a tree. *)
Lemma insert_total tr key size σ :
  tree_ok tr σ →
  ∃ σ', Tree.insert tr key size σ = Some σ' ∧ tree_ok tr σ' ∧ extends σ σ'.
Proof.
  intros OK. pose proof OK as [W (r & Hr & Hp)]. unfold Tree.insert.
  destruct (Tree.parts_of key) as [|p rest] eqn:Hparts.
  - simpl. rewrite Hr. simpl. rewrite Hp, bubble_None. eauto using extends_refl.
  - assert (Hk : truthy key = true) by (apply parts_of_truthy; by rewrite Hparts).
    destruct (walk_total key size (length (p :: rest)) (p :: rest) 0%nat
                (Tree._root tr) σ W) as (node' & σ1 & -> & W1 & E1 & [n Hn]);
      [eauto | done |].
    simpl. rewrite Hn. simpl.
    destruct (bubble_total (Pos.to_nat (next σ1)) σ1 (Node.par n) W1)
      as (σ' & -> & W' & E').
    { intros q Hq. destruct (wf_par _ W1 _ _ _ Hn Hq). split; [done|].
      apply (wf_dom _ W1) in Hn. lia. }
    exists σ'. split; [done|].
    assert (extends σ σ') by eauto using extends_trans.
    eauto using tree_ok_extends.
Qed.

(** [Tree.remove] returns for every node object, and leaves a tree. *)
Lemma remove_total tr node σ :
  tree_ok tr σ → is_Some (deref σ node) →
  ∃ σ', Tree.remove tr node σ = Some σ' ∧ tree_ok tr σ' ∧ extends σ σ'.
Proof.
  intros OK [n Hn]. pose proof OK as [W _]. unfold Tree.remove. rewrite Hn. simpl.
  destruct (Node.par n) as [p|] eqn:Hp; [|eauto using extends_refl].
  destruct (wf_par _ W _ _ _ Hn Hp) as [_ [pn Hpn]]. rewrite Hpn. simpl.
  destruct (dict_mem (Node.name n) (Node.ch pn)); [|eauto using extends_refl].
  set (σ1 := update p _ σ).
  assert (W1 : wf σ1).
  { apply (wf_update σ p _ pn W Hpn); simpl; [done| |].
    - by eapply wf_key.
    - intros k c Hin%dict_del_elem. by eapply wf_ch. }
  assert (E1 : extends σ σ1).
  { apply extends_update. by intros ? _. }
  destruct (recalc_total σ1 p W1) as (σ' & -> & W' & E').
  { eapply extends_is_Some; eauto. }
  exists σ'. split; [done|].
  assert (extends σ σ') by eauto using extends_trans.
  eauto using tree_ok_extends.
Qed.

Lemma deref_t0 a n :
  deref t0.2 a = Some n → a = 1%positive ∧ n = Node.mk "/" true 0 "" [] None.
Proof.
  unfold deref. simpl. rewrite lookup_insert. case_decide; [|by rewrite lookup_empty].
  by intros [= <-].
Qed.

Lemma t0_ok : tree_ok t0.1 t0.2.
Proof.
  split.
  - split.
    + by intros a n [-> ->]%deref_t0.
    + intros a n k c [-> ->]%deref_t0 ?%elem_of_nil. done.
    + by intros a n p [-> ->]%deref_t0.
    + by intros a n [-> ->]%deref_t0.
  - eexists. split; [apply lookup_insert_eq | done].
Qed.

Lemma run_inserts_total ops : ∀ tr σ,
  tree_ok tr σ → ∃ σ', run_inserts ops tr σ = Some σ' ∧ tree_ok tr σ' ∧ extends σ σ'.
Proof.
  unfold run_inserts.
  induction ops as [|[key size] ops IH]; intros tr σ OK; simpl.
  - eauto using extends_refl.
  - destruct (insert_total tr key size σ OK) as (σ1 & -> & OK1 & E1).
    destruct (IH tr σ1 OK1) as (σ' & -> & OK' & E').
    eauto using extends_trans.
Qed.

(** ** [count] and [all_keys] *)

Lemma fold_left_add_acc l a : fold_left Z.add l a = a + fold_left Z.add l 0.
Proof.
  revert a. induction l as [|y l IH]; intros a; simpl; [lia|].
  rewrite (IH (a + y)), (IH (0 + y)). lia.
Qed.

Lemma py_sum_cons x l : py_sum (x :: l) = x + py_sum l.
Proof. unfold py_sum. simpl. apply fold_left_add_acc. Qed.

Lemma py_sum_lengths {A} (kss : list (list A)) :
  py_sum (map (λ ks, Z.of_nat (length ks)) kss) = Z.of_nat (length (concat kss)).
Proof.
  induction kss as [|ks kss IH]; [done|].
  simpl. rewrite py_sum_cons, IH, length_app. lia.
Qed.

Lemma count_all_keys_fuel fuel : ∀ σ a n,
  wf σ → deref σ a = Some n →
  (Pos.to_nat (next σ) - Pos.to_nat a < fuel)%nat →
  ∃ ks, NodeOps.all_keys_fuel fuel σ a = Some ks ∧
        NodeOps.count_fuel fuel σ a = Some (Z.of_nat (length ks)) ∧
        (Node.dir n = false → ks = [Node.key n]).
Proof.
  induction fuel as [|fuel IH]; intros σ a n W Ha Hf; [lia|].
  simpl. rewrite Ha. simpl. destruct (Node.dir n) eqn:Hd; simpl.
  - assert (∃ kss, mapM (NodeOps.all_keys_fuel fuel σ) (dict_values (Node.ch n)) = Some kss ∧
                   mapM (NodeOps.count_fuel fuel σ) (dict_values (Node.ch n)) =
                     Some (map (λ ks, Z.of_nat (length ks)) kss)) as (kss & -> & ->).
    { assert (Hall : Forall (λ c, (a < c)%positive ∧ is_Some (deref σ c))
                       (dict_values (Node.ch n))).
      { apply Forall_forall. intros c [k Hk]%dict_values_elem. by eapply wf_ch. }
      induction Hall as [|c l [Hlt [m Hm]] _ IHl].
      - by exists [].
      - destruct IHl as (kss & Hk1 & Hk2).
        destruct (IH σ c m W Hm) as (ks & Hc1 & Hc2 & _).
        { apply (wf_dom _ W) in Hm. lia. }
        exists (ks :: kss). simpl. rewrite Hc1, Hc2. simpl. by rewrite Hk1, Hk2. }
    simpl. eexists. split; [done|]. split; [|done]. by rewrite py_sum_lengths.
  - rewrite (wf_key _ W _ _ Ha Hd). eexists. split; [done|]. split; done.
Qed.

Lemma count_all_keys σ a n :
  wf σ → deref σ a = Some n →
  ∃ ks, NodeOps.all_keys σ a = Some ks ∧
        NodeOps.count σ a = Some (Z.of_nat (length ks)) ∧
        (Node.dir n = false → ks = [Node.key n]).
Proof. intros W Ha. eapply count_all_keys_fuel; eauto. lia. Qed.

Lemma built_tree_ok tr σ : built tr σ → tree_ok tr σ.
Proof.
  induction 1 as [|tr σ key size σ' _ IH Hi|tr σ node σ' _ IH Hex Hr].
  - apply t0_ok.
  - destruct (insert_total tr key size σ IH) as (σ1 & Hi1 & OK & _). congruence.
  - destruct (remove_total tr node σ IH Hex) as (σ1 & Hr1 & OK & _). congruence.
Qed.

Lemma built_run_inserts ops : ∀ tr σ σ',
  built tr σ → run_inserts ops tr σ = Some σ' → built tr σ'.
Proof.
  unfold run_inserts.
  induction ops as [|[key size] ops IH]; intros tr σ σ' B; simpl.
  - by intros [= <-].
  - destruct (insert_total tr key size σ (built_tree_ok _ _ B)) as (σ1 & Hi & _).
    rewrite Hi. apply IH. by eapply built_insert.
Qed.

(** ** Claims about the tree *)

(** C6. On every tree built by inserts, and for every node object [a] of
    it, [count] and [all_keys] return, [count] is the length of [all_keys],
    and [count] is 1 when the node is not a directory. *)
Theorem count_is_length_all_keys (ops : list (string * Z)) :
  ∃ σ, run_inserts ops t0.1 t0.2 = Some σ ∧
    ∀ a n, deref σ a = Some n →
      ∃ ks, NodeOps.all_keys σ a = Some ks ∧
            NodeOps.count σ a = Some (Z.of_nat (length ks)) ∧
            (Node.dir n = false → NodeOps.count σ a = Some 1).
Proof.
  destruct (run_inserts_total ops t0.1 t0.2 t0_ok) as (σ & Hrun & [W _] & _).
  exists σ. split; [done|]. intros a n Ha.
  destruct (count_all_keys σ a n W Ha) as (ks & Hk & Hc & Hleaf).
  exists ks. split; [done|]. split; [done|].
  intros Hd. rewrite Hc, (Hleaf Hd). done.
Qed.

Lemma count_is_length_all_keys_witness :
  ∃ σ, run_inserts [("a/b/c.txt", 300); ("a/d.txt", 100)] t0.1 t0.2 = Some σ ∧
       NodeOps.all_keys σ 1%positive = Some ["a/b/c.txt"; "a/d.txt"] ∧
       NodeOps.count σ 1%positive = Some 2 ∧
       NodeOps.count σ 5%positive = Some 1.
Proof.
  destruct (count_is_length_all_keys [("a/b/c.txt", 300); ("a/d.txt", 100)])
    as (σ & Hrun & H).
  pose proof Hrun as Hc. vm_compute in Hc. injection Hc as <-.
  destruct (H 1%positive _ eq_refl) as (ks & Hk & Hcount & _).
  destruct (H 5%positive _ eq_refl) as (_ & _ & _ & Hleaf).
  pose proof Hk as Hk'. vm_compute in Hk'. injection Hk' as <-.
  eexists. split; [exact Hrun|]. split; [exact Hk|]. split; [exact Hcount|].
  by apply Hleaf.
Defined.

(** C9. A key without a non-empty segment leaves the store of the tree as
    it is: [insert] returns and no object is created or modified. *)
Theorem insert_no_segment tr σ key size :
  tree_ok tr σ → Tree.parts_of key = [] → Tree.insert tr key size σ = Some σ.
Proof.
  intros [_ (r & Hr & Hp)] Hparts. unfold Tree.insert. rewrite Hparts. simpl.
  rewrite Hr. simpl. by rewrite Hp, bubble_None.
Qed.

(** C10. [remove] of the root, of a node without parent, or of a node whose
    name is not a key of its parent's [ch], returns and leaves the store as
    it is. *)
Theorem remove_guard tr σ node n :
  tree_ok tr σ → deref σ node = Some n →
  node = Tree._root tr ∨ Node.par n = None ∨
    (∃ p pn, Node.par n = Some p ∧ deref σ p = Some pn ∧
             dict_mem (Node.name n) (Node.ch pn) = false) →
  Tree.remove tr node σ = Some σ.
Proof.
  intros [_ (r & Hr & Hp)] Hn Hcase. unfold Tree.remove. rewrite Hn. simpl.
  destruct Hcase as [-> | [Hnone | (p & pn & Hpar & Hpn & Hmem)]].
  - rewrite Hr in Hn. injection Hn as <-. by rewrite Hp.
  - by rewrite Hnone.
  - rewrite Hpar, Hpn. simpl. by rewrite Hmem.
Qed.

(** C1. The aggregation invariant does not survive an insert whose key
    names an existing directory: after [insert("a/b", 3)] and
    [insert("a", 5)] the directory [a] of the tree has size 5 while its only
    child has size 3 (and the root reports 5). *)
Theorem insert_over_directory_breaks_sizes :
  ∃ σ,
    run_inserts [("a/b", 3); ("a", 5)] t0.1 t0.2 = Some σ ∧
    deref σ 1%positive = Some (Node.mk "/" true 5 "" [("a", 2%positive)] None) ∧
    deref σ 2%positive =
      Some (Node.mk "a" true 5 "a" [("b", 3%positive)] (Some 1%positive)) ∧
    deref σ 3%positive = Some (Node.mk "b" false 3 "a/b" [] (Some 2%positive)) ∧
    sum_sizes σ [("b", 3%positive)] = Some 3 ∧
    ¬ sizes_consistent t0.1 σ.
Proof.
  eexists. split; [vm_compute; reflexivity|].
  repeat split; try reflexivity.
  intros Hc.
  match type of Hc with sizes_consistent _ ?σ =>
    assert (Hin : in_tree t0.1 σ 2%positive)
  end.
  { eapply (in_tree_child _ _ 1%positive _ "a");
      [apply in_tree_root | reflexivity | left]. }
  specialize (Hc 2%positive _ Hin eq_refl eq_refl).
  vm_compute in Hc. discriminate.
Qed.

(** C7. Removing a leaf and inserting its key again with its size does not
    always give the tree back.  After [insert("a/b", 3)] and
    [insert("a", 5)], removing the leaf [b] and re-inserting ["a/b"] with
    size 3 turns the sizes of [a] and of the root from 5 into 3; after
    [insert("a", 5)] and [insert("a/b", 3)], removing the leaf [a] (an object
    that holds a child) and re-inserting ["a"] loses the node [b]. *)
Theorem remove_reinsert_changes_tree :
  (∃ σ σ1 σ2,
     run_inserts [("a/b", 3); ("a", 5)] t0.1 t0.2 = Some σ ∧
     deref σ 3%positive = Some (Node.mk "b" false 3 "a/b" [] (Some 2%positive)) ∧
     Tree.remove t0.1 3%positive σ = Some σ1 ∧
     Tree.insert t0.1 "a/b" 3 σ1 = Some σ2 ∧
     snapshot t0.1 σ =
       Some [([], "/", true, 5, ""); (["a"], "a", true, 5, "a");
             (["a"; "b"], "b", false, 3, "a/b")] ∧
     snapshot t0.1 σ2 =
       Some [([], "/", true, 3, ""); (["a"], "a", true, 3, "a");
             (["a"; "b"], "b", false, 3, "a/b")] ∧
     ¬ indistinguishable t0.1 σ σ2) ∧
  (∃ σ σ1 σ2,
     run_inserts [("a", 5); ("a/b", 3)] t0.1 t0.2 = Some σ ∧
     deref σ 2%positive =
       Some (Node.mk "a" false 3 "a" [("b", 3%positive)] (Some 1%positive)) ∧
     Tree.remove t0.1 2%positive σ = Some σ1 ∧
     Tree.insert t0.1 "a" 3 σ1 = Some σ2 ∧
     snapshot t0.1 σ =
       Some [([], "/", true, 3, ""); (["a"], "a", false, 3, "a");
             (["a"; "b"], "b", false, 3, "a/b")] ∧
     snapshot t0.1 σ2 =
       Some [([], "/", true, 3, ""); (["a"], "a", false, 3, "a")] ∧
     ¬ indistinguishable t0.1 σ σ2).
Proof.
  split.
  - eexists _, _, _.
    split; [vm_compute; reflexivity|]. split; [reflexivity|].
    split; [vm_compute; reflexivity|]. split; [vm_compute; reflexivity|].
    split; [reflexivity|]. split; [reflexivity|].
    intros (l1 & l2 & H1 & H2 & HP).
    vm_compute in H1, H2. injection H1 as <-. injection H2 as <-.
    assert (Hin : ((["a"], "a", true, 5, "a") : entry) ∈
                    [([], "/", true, 5, ""); (["a"], "a", true, 5, "a");
                     (["a"; "b"], "b", false, 3, "a/b")])
      by (right; left).
    rewrite HP in Hin.
    repeat (apply elem_of_cons in Hin as [Hin|Hin]; [discriminate|]).
    by apply elem_of_nil in Hin.
  - eexists _, _, _.
    split; [vm_compute; reflexivity|]. split; [reflexivity|].
    split; [vm_compute; reflexivity|]. split; [vm_compute; reflexivity|].
    split; [reflexivity|]. split; [reflexivity|].
    intros (l1 & l2 & H1 & H2 & HP).
    vm_compute in H1, H2. injection H1 as <-. injection H2 as <-.
    apply Permutation_length in HP. discriminate.
Qed.

(** ** The aggregation invariant, away from keys that name a directory *)

Lemma sum_sizes_ext σ σ' d :
  (∀ k c, (k, c) ∈ d → Node.size <$> deref σ' c = Node.size <$> deref σ c) →
  sum_sizes σ' d = sum_sizes σ d.
Proof.
  intros H. unfold sum_sizes.
  rewrite (Forall_mapM_ext (λ c, Node.size <$> deref σ' c)
             (λ c, Node.size <$> deref σ c)); [done|].
  apply Forall_forall. intros c Hc. induction d as [|[k' c'] d IH]; simpl in Hc.
  - by apply elem_of_nil in Hc.
  - apply elem_of_cons in Hc as [->|Hc].
    + apply (H k'). left.
    + apply IH; [|done]. intros k c0 Hin. apply (H k). by right.
Qed.

Lemma consistent_frame σ σ' b :
  deref σ' b = deref σ b →
  (∀ n k c, deref σ b = Some n → (k, c) ∈ Node.ch n →
            Node.size <$> deref σ' c = Node.size <$> deref σ c) →
  consistent σ b → consistent σ' b.
Proof.
  intros Hb Hc Hcons n Hn Hd. rewrite Hb in Hn.
  rewrite <- (Hcons n Hn Hd). apply sum_sizes_ext. intros k c. by apply Hc.
Qed.

Lemma chain_None σ b : ¬ chain σ None b.
Proof. inversion 1. Qed.

Lemma chain_inv σ a b :
  chain σ (Some a) b → b = a ∨ ∃ n, deref σ a = Some n ∧ chain σ (Node.par n) b.
Proof. inversion 1; subst; eauto. Qed.

Lemma chain_extends σ σ' p b : extends σ σ' → chain σ p b → chain σ' p b.
Proof.
  intros [_ E]. induction 1 as [a|a n b Hn _ IH]; [constructor|].
  destruct (E _ _ Hn) as (n' & Hn' & Hp & _).
  econstructor; [exact Hn'|]. by rewrite Hp.
Qed.

Lemma shape_extends_update σ a f :
  shape σ → extends σ (update a f σ) →
  (∀ n k c, deref σ a = Some n → (k, c) ∈ Node.ch (f n) →
            ∃ m, deref σ c = Some m ∧ Node.par m = Some a) →
  shape (update a f σ).
Proof.
  intros S [_ E] Hc b nb k c Hb Hin.
  assert (∃ m, deref σ c = Some m ∧ Node.par m = Some b) as (m & Hm & Hp).
  { apply deref_update_Some in Hb as (nb0 & Hb0 & [->|[-> ->]]); eauto. }
  destruct (E _ _ Hm) as (m' & Hm' & Hp' & _). exists m'. split; [done | congruence].
Qed.

Lemma size_update_keeps σ a f c :
  (∀ n, Node.size (f n) = Node.size n) →
  Node.size <$> deref (update a f σ) c = Node.size <$> deref σ c.
Proof.
  intros Hf. rewrite deref_update. case_decide; [subst|done].
  destruct (deref σ c); simpl; [|done]. by rewrite Hf.
Qed.

(** Recomputing the size at [a] leaves only the ancestors of [a] to fix. *)
Lemma fix_size_step σ a n s :
  wf σ → shape σ → deref σ a = Some n →
  sum_sizes σ (Node.ch n) = Some s →
  (∀ b, ¬ chain σ (Some a) b → consistent σ b) →
  ∀ b, ¬ chain (update a (Node.set_size s) σ) (Node.par n) b →
       consistent (update a (Node.set_size s) σ) b.
Proof.
  intros W S Ha Hs H b Hb. destruct (decide (b = a)) as [->|Hne].
  - intros n1 Hn1 _. rewrite (deref_update_eq _ _ _ _ Ha) in Hn1.
    injection Hn1 as <-. simpl. rewrite <- Hs. apply sum_sizes_ext.
    intros k c Hin. destruct (wf_ch _ W _ _ _ _ Ha Hin) as [Hlt _].
    rewrite deref_update_ne; [done | lia].
  - apply (consistent_frame σ).
    + by apply deref_update_ne.
    + intros nb k c Hnb Hin. destruct (decide (c = a)) as [->|Hca].
      * destruct (S _ _ _ _ Hnb Hin) as (m & Hm & Hp).
        rewrite Ha in Hm. injection Hm as <-.
        exfalso. apply Hb. rewrite Hp. constructor.
      * by rewrite deref_update_ne.
    + apply H. intros [->|(n0 & Hn0 & Hc)]%chain_inv; [done|].
      rewrite Ha in Hn0. injection Hn0 as <-. apply Hb.
      eapply chain_extends; [apply extends_update_size | done].
Qed.

(** A node that is not a directory has nothing to fix. *)
Lemma skip_size_step σ a n :
  deref σ a = Some n → Node.dir n = false →
  (∀ b, ¬ chain σ (Some a) b → consistent σ b) →
  ∀ b, ¬ chain σ (Node.par n) b → consistent σ b.
Proof.
  intros Ha Hd H b Hb. destruct (decide (b = a)) as [->|Hne].
  - intros n1 Hn1 Hd1. rewrite Ha in Hn1. injection Hn1 as <-. congruence.
  - apply H. intros [->|(n0 & Hn0 & Hc)]%chain_inv; [done|].
    rewrite Ha in Hn0. injection Hn0 as <-. done.
Qed.

Lemma shape_update_size σ a s : shape σ → shape (update a (Node.set_size s) σ).
Proof.
  intros S. apply shape_extends_update; [done | apply extends_update_size|].
  intros n k c Hn Hin. by eapply S.
Qed.

Lemma bubble_sizes fuel : ∀ σ p σ',
  wf σ → shape σ → (∀ b, ¬ chain σ p b → consistent σ b) →
  Tree.bubble fuel p σ = Some σ' → sizes_ok σ' ∧ shape σ'.
Proof.
  induction fuel as [|fuel IH]; intros σ [a|] σ' W S H; simpl; try done.
  - intros [= <-]. split; [|done]. intros b. apply H, chain_None.
  - destruct (deref σ a) as [n|] eqn:Ha; [|done]. simpl.
    destruct (sum_sizes σ (Node.ch n)) as [s|] eqn:Hs; [|done]. simpl.
    apply IH; [by apply wf_update_size | by apply shape_update_size|].
    by eapply fix_size_step.
  - intros [= <-]. split; [|done]. intros b. apply H, chain_None.
Qed.

Lemma recalc_sizes fuel : ∀ σ a σ',
  wf σ → shape σ → (∀ b, ¬ chain σ (Some a) b → consistent σ b) →
  NodeOps.recalc_fuel fuel a σ = Some σ' → sizes_ok σ' ∧ shape σ'.
Proof.
  induction fuel as [|fuel IH]; intros σ a σ' W S H; simpl; [done|].
  destruct (deref σ a) as [n|] eqn:Ha; [|done]. simpl.
  assert (∃ σ1, (if Node.dir n
                 then s ← sum_sizes σ (Node.ch n); Some (update a (Node.set_size s) σ)
                 else Some σ) = Some σ1 ∧ wf σ1 ∧ shape σ1 ∧
                (∀ b, ¬ chain σ1 (Node.par n) b → consistent σ1 b))
    as (σ1 & -> & W1 & S1 & H1).
  { destruct (Node.dir n) eqn:Hd.
    - destruct (sum_sizes_wf _ _ _ W Ha) as [s Hs]. rewrite Hs. simpl.
      eexists. split; [done|]. split; [by apply wf_update_size|].
      split; [by apply shape_update_size | by eapply fix_size_step].
    - eexists. split; [done|]. split; [done|]. split; [done|].
      by eapply skip_size_step. }
  simpl. destruct (Node.par n) as [p|].
  - by apply IH.
  - intros [= <-]. split; [|done]. intros b. apply H1, chain_None.
Qed.

Lemma remove_sizes tr node σ σ' :
  wf σ → shape σ → sizes_ok σ →
  Tree.remove tr node σ = Some σ' → sizes_ok σ' ∧ shape σ'.
Proof.
  intros W S H. unfold Tree.remove.
  destruct (deref σ node) as [n|]; [|done]. simpl.
  destruct (Node.par n) as [p|]; [|by intros [= <-]].
  destruct (deref σ p) as [pn|] eqn:Hp; [|done]. simpl.
  destruct (dict_mem (Node.name n) (Node.ch pn)); [|by intros [= <-]].
  set (f := Node.set_ch _). unfold NodeOps.recalc.
  assert (E : extends σ (update p f σ)) by (apply extends_update; by intros ? _).
  apply recalc_sizes.
  - apply (wf_update σ p _ pn W Hp); [done| |].
    + simpl. by eapply wf_key.
    + simpl. intros k c Hin%dict_del_elem. by eapply wf_ch.
  - apply shape_extends_update; [done..|].
    intros n0 k c Hn0 Hin%dict_del_elem. by eapply (S p pn).
  - intros b Hb. assert (b ≠ p) by (intros ->; apply Hb; constructor).
    apply (consistent_frame σ); [by apply deref_update_ne| |apply H].
    intros. by apply size_update_keeps.
Qed.

Lemma leaf_last i len (rest : list string) :
  (i + S (length rest) = len)%nat →
  (i =? len - 1)%nat = match rest with [] => true | _ => false end.
Proof.
  intros H. destruct rest; simpl in *.
  - apply Nat.eqb_eq. lia.
  - apply Nat.eqb_neq. lia.
Qed.

Lemma shape_attach σ node n new p :
  wf σ → shape σ → deref σ node = Some n →
  Node.ch new = [] → Node.par new = Some node →
  shape (update node (Node.set_ch (dict_set p (next σ) (Node.ch n))) (alloc new σ).2).
Proof.
  intros W S Hn Hch Hpar b nb k c Hb Hin.
  assert (Hne : next σ ≠ node) by (intros <-; by rewrite wf_fresh in Hn).
  assert (Hold : ∀ x m a, deref σ x = Some m → Node.par m = Some a →
            ∃ m', deref (update node (Node.set_ch (dict_set p (next σ) (Node.ch n)))
                           (alloc new σ).2) x = Some m' ∧ Node.par m' = Some a).
  { intros x m a Hx Hp. rewrite (deref_attach _ _ _ _ _ _ W Hn).
    destruct (decide (x = node)) as [->|].
    - rewrite Hn in Hx. injection Hx as <-. eauto.
    - rewrite decide_False; [eauto|]. intros ->. by rewrite wf_fresh in Hx. }
  rewrite (deref_attach _ _ _ _ _ _ W Hn) in Hb.
  destruct (decide (b = node)) as [->|Hbn]; [|destruct (decide (b = next σ)) as [->|Hbx]].
  - injection Hb as <-. simpl in Hin. apply dict_set_elem in Hin as [[= -> ->]|Hin].
    + exists new. split; [|done]. rewrite (deref_attach _ _ _ _ _ _ W Hn).
      by rewrite decide_False, decide_True.
    + destruct (S _ _ _ _ Hn Hin) as (m & Hm & Hp). eauto.
  - injection Hb as <-. rewrite Hch in Hin. by apply elem_of_nil in Hin.
  - destruct (S _ _ _ _ Hb Hin) as (m & Hm & Hp). eauto.
Qed.

Lemma size_attach σ node n new p x :
  wf σ → deref σ node = Some n → is_Some (deref σ x) →
  Node.size <$> deref (update node (Node.set_ch (dict_set p (next σ) (Node.ch n)))
                         (alloc new σ).2) x = Node.size <$> deref σ x.
Proof.
  intros W Hn [m Hx]. rewrite (deref_attach _ _ _ _ _ _ W Hn).
  destruct (decide (x = node)) as [->|]; [by rewrite Hn|].
  rewrite decide_False; [done|]. intros ->. by rewrite wf_fresh in Hx.
Qed.

(** The [for] loop of [insert] leaves only the nodes on the way back to
    the root to fix, and ends on an object that is not a directory. *)
Lemma walk_sizes key size len : ∀ parts i node σ node' σ',
  (i + length parts = len)%nat →
  wf σ → shape σ → is_Some (deref σ node) → truthy key = true →
  (∀ b, ¬ chain σ (Some node) b → consistent σ b) →
  (parts ≠ [] → ∀ c n, target σ node parts = Some c → deref σ c = Some n →
                       Node.dir n = false) →
  Tree.walk key size len i parts node σ = Some (node', σ') →
  wf σ' ∧ shape σ' ∧ (∀ b, ¬ chain σ' (Some node') b → consistent σ' b) ∧
  (parts ≠ [] → ∃ m, deref σ' node' = Some m ∧ Node.dir m = false).
Proof.
  induction parts as [|p rest IH]; intros i node σ node' σ' Hlen W S [n Hn] Hk H Ht; simpl.
  - intros [= <- <-]. done.
  - rewrite Hn. simpl. rewrite (leaf_last i len rest Hlen).
    destruct (dict_get p (Node.ch n)) as [c|] eqn:Hg.
    + pose proof (dict_get_elem _ _ _ Hg) as Hin.
      destruct (S _ _ _ _ Hn Hin) as (m & Hm & Hpm).
      destruct rest as [|q rest].
      * intros [= <- <-].
        assert (Hd : Node.dir m = false).
        { apply (Ht ltac:(done) c m); [|done]. simpl. rewrite Hn. simpl. by rewrite Hg. }
        set (f := λ x, Node.set_key key (Node.set_size size x)).
        assert (E : extends σ (update c f σ)) by (apply extends_update; by intros ? _).
        assert (Hc' : deref (update c f σ) c = Some (f m)) by by apply deref_update_eq.
        split; [by eapply wf_overwrite|]. split; [|split].
        -- apply shape_extends_update; [done..|]. intros n0 k x Hn0 Hx.
           by eapply S.
        -- intros b Hb.
           assert (b ≠ c) by (intros ->; apply Hb; constructor).
           assert (Hnb : ¬ chain σ (Some node) b).
           { intros Hc. apply Hb. eapply chain_up; [exact Hc'|]. simpl. rewrite Hpm.
             by eapply chain_extends. }
           apply (consistent_frame σ); [by apply deref_update_ne| |by apply H].
           intros nb k x Hx Hxin. destruct (decide (x = c)) as [->|]; [|by rewrite deref_update_ne].
           destruct (S _ _ _ _ Hx Hxin) as (m0 & Hm0 & Hp0).
           rewrite Hm in Hm0. injection Hm0 as <-.
           exfalso. apply Hnb. rewrite Hpm in Hp0. injection Hp0 as <-. constructor.
        -- intros _. exists (f m). done.
      * intros Hw. eapply IH in Hw; [|simpl in *; lia|done|done|by eexists|done| |].
        -- destruct Hw as (? & ? & ? & Hl). split; [done|]. split; [done|]. split; [done|].
           intros _. by apply Hl.
        -- intros b Hb. apply H. intros Hc. apply Hb. eapply chain_up; [exact Hm|].
           by rewrite Hpm.
        -- intros _ c' n' Ht'. apply (Ht ltac:(done)). simpl. rewrite Hn. simpl.
           by rewrite Hg.
    + set (new := Node.mk p _ _ _ [] (Some node)).
      change (mkStore (<[next σ:=new]> (cells σ)) (Pos.succ (next σ)))
        with (alloc new σ).2.
      set (σ2 := update node _ _).
      assert (W2 : wf σ2).
      { apply wf_attach; [done..|]. simpl. by destruct rest. }
      assert (S2 : shape σ2) by by apply shape_attach.
      assert (E2 : extends σ σ2) by by apply extends_attach.
      assert (Hne : next σ ≠ node) by (intros <-; by rewrite wf_fresh in Hn).
      assert (Hnew : deref σ2 (next σ) = Some new).
      { subst σ2. rewrite (deref_attach _ _ _ _ _ _ W Hn).
        by rewrite decide_False, decide_True. }
      assert (H2 : ∀ b, ¬ chain σ2 (Some (next σ)) b → consistent σ2 b).
      { intros b Hb.
        assert (b ≠ next σ) by (intros ->; apply Hb; constructor).
        assert (Hnb : ¬ chain σ2 (Some node) b).
        { intros Hc. apply Hb. eapply chain_up; [exact Hnew | exact Hc]. }
        assert (b ≠ node) by (intros ->; apply Hnb; constructor).
        apply (consistent_frame σ).
        - subst σ2. rewrite (deref_attach _ _ _ _ _ _ W Hn).
          by rewrite !decide_False.
        - intros nb k x Hx Hxin. apply size_attach; [done..|].
          by destruct (wf_ch _ W _ _ _ _ Hx Hxin).
        - apply H. intros Hc. apply Hnb. by eapply chain_extends. }
      destruct rest as [|q rest].
      * intros [= <- <-]. split; [done|]. split; [done|]. split; [done|].
        intros _. by exists new.
      * intros Hw. eapply IH in Hw; [|simpl in *; lia|done|done|by eexists|done|done|].
        -- destruct Hw as (? & ? & ? & Hl). split; [done|]. split; [done|]. split; [done|].
           intros _. by apply Hl.
        -- intros _ c' n' Ht'. simpl in Ht'. rewrite Hnew in Ht'. done.
Qed.

Lemma insert_sizes tr σ key size σ' :
  tree_ok tr σ → shape σ → sizes_ok σ → ¬ names_directory tr σ key →
  Tree.insert tr key size σ = Some σ' → sizes_ok σ' ∧ shape σ'.
Proof.
  intros [W (r & Hr & Hp)] S H Hnd. unfold Tree.insert, names_directory in *.
  destruct (Tree.parts_of key) as [|p rest] eqn:Hparts.
  - simpl. rewrite Hr. simpl. rewrite Hp, bubble_None. by intros [= <-].
  - assert (Hk : truthy key = true) by (apply parts_of_truthy; by rewrite Hparts).
    destruct (Tree.walk _ _ _ _ _ _ _) as [[node' σ1]|] eqn:Hw; [|done]. simpl.
    destruct (deref σ1 node') as [m|] eqn:Hm; [|done]. simpl. intros Hb.
    apply walk_sizes in Hw as (W1 & S1 & H1 & Hleaf); [|done..| |eauto|done| |].
    + destruct (Hleaf ltac:(done)) as (m' & Hm' & Hd).
      rewrite Hm in Hm'. injection Hm' as <-.
      eapply bubble_sizes; [exact W1 | exact S1 | | exact Hb].
      by eapply skip_size_step.
    + done.
    + intros b _. apply H.
    + intros _ c n Ht Hc. destruct (Node.dir n) eqn:Hd; [|done].
      exfalso. apply Hnd. split; [done|]. eauto.
Qed.

Lemma t0_sizes : sizes_ok t0.2 ∧ shape t0.2.
Proof.
  split.
  - by intros a n [-> ->]%deref_t0 _.
  - intros a n k c [-> ->]%deref_t0 Hin. by apply elem_of_nil in Hin.
Qed.

Lemma built_clean_built tr σ : built_clean tr σ → built tr σ.
Proof. induction 1; eauto using built. Qed.

Lemma built_clean_sizes tr σ : built_clean tr σ → sizes_ok σ ∧ shape σ.
Proof.
  induction 1 as [|tr σ key size σ' B [IH1 IH2] Hnd Hi|tr σ node σ' B [IH1 IH2] Hex Hr].
  - apply t0_sizes.
  - eapply insert_sizes; [|done..]. by apply built_tree_ok, built_clean_built.
  - eapply remove_sizes; [|done..].
    by destruct (built_tree_ok _ _ (built_clean_built _ _ B)).
Qed.

(** [remove], and [insert] of a key that does not name a directory of the
    tree, keep the aggregation invariant. *)
Lemma clean_sizes_consistent tr σ : built_clean tr σ → sizes_consistent tr σ.
Proof.
  intros [H _]%built_clean_sizes a n _ Hn Hd. by apply (H a).
Qed.

(** The second insert of C1's failing input is of a key that names a
    directory. *)
Lemma overwritten_directory_is_named :
  ∃ σ, Tree.insert t0.1 "a/b" 3 t0.2 = Some σ ∧ names_directory t0.1 σ "a".
Proof.
  eexists. split; [vm_compute; reflexivity|].
  split; [done|]. eexists _, _. split; [reflexivity|]. split; reflexivity.
Qed.

(** ** Claims about the scanner *)

Lemma discover_nonempty cp depth : ∀ prefix,
  (1 ≤ length (Scanner._discover cp prefix depth))%nat.
Proof.
  induction depth as [|d IH]; intros prefix; simpl; [lia|].
  destruct (cp prefix) as [|c cs]; simpl; [lia|].
  rewrite length_app. specialize (IH c). lia.
Qed.

Lemma app_string_inj base s1 s2 : base +:+ s1 = base +:+ s2 → s1 = s2.
Proof. induction base as [|c base IH]; simpl; [done|]. intros [= H]. auto. Qed.

Lemma split_prefix_spec base :
  length (Scanner._split_prefix base) = 36%nat ∧ NoDup (Scanner._split_prefix base).
Proof.
  split; [done|]. unfold Scanner._split_prefix.
  match goal with |- NoDup (map ?f ?l) => change (NoDup (f <$> l)) end.
  apply NoDup_fmap_2.
  - intros c1 c2 H%app_string_inj. by injection H.
  - by apply (bool_decide_unpack _).
Qed.

(** C3, as the code has it.  The scanner falls back on the 36 partitions
    when discovery to depth 2 ends on one prefix: the root listing has no
    common prefix, or it has one whose own listing has at most one.  The
    partitions are then that prefix followed by each of [0-9a-z]. *)
Theorem scan_fallback (cp : string → list string) :
  cp "" = [] ∨ (∃ p, cp "" = [p] ∧ (length (cp p) ≤ 1)%nat) →
  ∃ base,
    Scanner._discover cp "" 2 = [base] ∧
    Scanner.scan_prefixes cp =
      map (λ c, base +:+ String c "")
          (list_ascii_of_string "0123456789abcdefghijklmnopqrstuvwxyz") ∧
    length (Scanner.scan_prefixes cp) = 36%nat ∧
    NoDup (Scanner.scan_prefixes cp).
Proof.
  intros H.
  assert (∃ base, Scanner._discover cp "" 2 = [base]) as [base Hd].
  { simpl. destruct H as [-> | (p & -> & Hp)]; [eauto|].
    destruct (cp p) as [|q [|q' qs]]; simpl in *; [eauto..|lia]. }
  exists base. split; [done|].
  assert (Hs : Scanner.scan_prefixes cp = Scanner._split_prefix base).
  { unfold Scanner.scan_prefixes. by rewrite Hd. }
  rewrite Hs. split; [done|]. apply split_prefix_spec.
Qed.

(** Otherwise the discovered prefixes are the partitions. *)
Lemma scan_no_fallback (cp : string → list string) :
  (2 ≤ length (cp ""))%nat ∨ (∃ p, cp "" = [p] ∧ (2 ≤ length (cp p))%nat) →
  Scanner.scan_prefixes cp = Scanner._discover cp "" 2.
Proof.
  intros H.
  assert (Hlen : (2 ≤ length (Scanner._discover cp "" 2))%nat).
  { simpl. destruct H as [H | (p & -> & Hp)].
    - destruct (cp "") as [|c1 [|c2 cs]]; simpl in H; [lia..|].
      simpl. rewrite !length_app.
      pose proof (discover_nonempty cp 1 c1). pose proof (discover_nonempty cp 1 c2).
      simpl in *. lia.
    - simpl. destruct (cp p) as [|c1 [|c2 cs]]; simpl in Hp; [lia..|].
      simpl. lia. }
  unfold Scanner.scan_prefixes.
  destruct (Scanner._discover cp "" 2) as [|x [|y l]]; simpl in Hlen; [lia..|done].
Qed.

(** C3, as stated, fails: one common prefix at the root, two below it, and
    the scan has the two discovered partitions. *)
Lemma scan_one_root_prefix_no_fallback :
  length (nested_listing "") = 1%nat ∧
  Scanner.scan_prefixes nested_listing = ["a/x/"; "a/y/"] ∧
  length (Scanner.scan_prefixes nested_listing) ≠ 36%nat.
Proof. by repeat split. Qed.

Lemma scan_fallback_witness :
  Scanner.scan_prefixes (λ prefix, if String.eqb prefix "" then ["data/"] else []) =
    map (λ c, "data/" +:+ String c "")
        (list_ascii_of_string "0123456789abcdefghijklmnopqrstuvwxyz").
Proof.
  destruct (scan_fallback (λ prefix, if String.eqb prefix "" then ["data/"] else []))
    as (base & Hd & Hs & _).
  - right. exists "data/". split; [reflexivity | simpl; lia].
  - injection Hd as <-. exact Hs.
Defined.

(** ** [list.sort]: permutation, order and stability *)

Section SortFacts.
Context {A K : Type} (lt : K → K → bool) (keyf : A → K).
Hypothesis lt_asym : ∀ a b, lt a b = true → lt b a = false.
Hypothesis le_trans : ∀ a b c, lt b a = false → lt c b = false → lt c a = false.

Lemma sort_insert_perm x l : sort_insert lt keyf x l ≡ₚ x :: l.
Proof.
  induction l as [|y l IH]; simpl; [done|].
  destruct (lt (keyf y) (keyf x)); [|done].
  rewrite IH. apply Permutation_swap.
Qed.

Lemma stable_sort_perm l : stable_sort lt keyf l ≡ₚ l.
Proof.
  induction l as [|x l IH]; simpl; [done|].
  by rewrite sort_insert_perm, IH.
Qed.

Lemma sort_insert_sorted x l :
  StronglySorted (key_le lt keyf) l →
  StronglySorted (key_le lt keyf) (sort_insert lt keyf x l).
Proof.
  induction l as [|y l IH]; simpl.
  - intros _. repeat constructor.
  - intros [Hy Hl]%StronglySorted_cons.
    destruct (lt (keyf y) (keyf x)) eqn:Hlt.
    + apply StronglySorted_cons. split; [|auto].
      rewrite sort_insert_perm. constructor; [|done].
      by apply lt_asym.
    + apply StronglySorted_cons. split; [|by apply StronglySorted_cons].
      constructor; [done|].
      eapply Forall_impl; [exact Hy|]. intros z Hz. unfold key_le in *. eauto.
Qed.

Lemma stable_sort_sorted l : StronglySorted (key_le lt keyf) (stable_sort lt keyf l).
Proof.
  induction l as [|x l IH]; simpl; [constructor|]. by apply sort_insert_sorted.
Qed.

(** Stability: elements whose keys tie keep their order. *)
Section Stable.
Context (P : K → Prop) {Pdec : ∀ k, Decision (P k)}.
Hypothesis ties : ∀ a b, P a → P b → lt a b = false.

Lemma sort_insert_filter x l :
  filter (λ y, P (keyf y)) (sort_insert lt keyf x l) =
  filter (λ y, P (keyf y)) (x :: l).
Proof.
  induction l as [|y l IH]; simpl; [done|].
  destruct (lt (keyf y) (keyf x)) eqn:Hlt; [|done].
  rewrite (filter_cons _ y), IH, !(filter_cons _ x), (filter_cons _ y).
  destruct (decide (P (keyf y))) as [Hy|]; [|done].
  destruct (decide (P (keyf x))) as [Hx|]; [|done].
  by rewrite (ties _ _ Hy Hx) in Hlt.
Qed.

Lemma stable_sort_filter l :
  filter (λ y, P (keyf y)) (stable_sort lt keyf l) = filter (λ y, P (keyf y)) l.
Proof.
  induction l as [|x l IH]; simpl; [done|].
  by rewrite sort_insert_filter, !(filter_cons _ x), IH.
Qed.

Lemma py_sort_filter rev l :
  filter (λ y, P (keyf y)) (py_sort lt keyf rev l) = filter (λ y, P (keyf y)) l.
Proof.
  destruct rev; simpl; [|apply stable_sort_filter].
  by rewrite filter_reverse, stable_sort_filter, filter_reverse, reverse_involutive.
Qed.
End Stable.

Lemma py_sort_perm rev l : py_sort lt keyf rev l ≡ₚ l.
Proof.
  destruct rev; simpl; [|apply stable_sort_perm].
  by rewrite reverse_Permutation, stable_sort_perm, reverse_Permutation.
Qed.

Lemma StronglySorted_reverse (R : relation A) l :
  StronglySorted R l → StronglySorted (flip R) (reverse l).
Proof.
  induction 1 as [|x l Hl IH Hx]; [constructor|].
  rewrite reverse_cons. apply StronglySorted_app_2; [|done|repeat constructor].
  intros y z Hy ->%list_elem_of_singleton.
  rewrite elem_of_reverse in Hy.
  rewrite Forall_forall in Hx. unfold flip. by apply Hx.
Qed.

(** Ascending without [reverse], descending with it. *)
Lemma py_sort_sorted rev l :
  StronglySorted (if rev : bool then flip (key_le lt keyf) else key_le lt keyf)
                 (py_sort lt keyf rev l).
Proof.
  destruct rev; simpl; [|apply stable_sort_sorted].
  apply StronglySorted_reverse, stable_sort_sorted.
Qed.
End SortFacts.

Lemma StronglySorted_mono {A} (R1 R2 : relation A) l :
  (∀ x y, R1 x y → R2 x y) → StronglySorted R1 l → StronglySorted R2 l.
Proof.
  intros H. induction 1 as [|x l Hl IH Hx]; constructor; [done|].
  eapply Forall_impl; [exact Hx | auto].
Qed.

Lemma sort_insert_ext {A K1 K2} (lt1 : K1 → K1 → bool) (k1 : A → K1)
    (lt2 : K2 → K2 → bool) (k2 : A → K2) x l :
  (∀ a b, lt1 (k1 a) (k1 b) = lt2 (k2 a) (k2 b)) →
  sort_insert lt1 k1 x l = sort_insert lt2 k2 x l.
Proof. intros E. induction l as [|y l IH]; simpl; [done|]. by rewrite E, IH. Qed.

Lemma py_sort_ext {A K1 K2} (lt1 : K1 → K1 → bool) (k1 : A → K1)
    (lt2 : K2 → K2 → bool) (k2 : A → K2) rev l :
  (∀ a b, lt1 (k1 a) (k1 b) = lt2 (k2 a) (k2 b)) →
  py_sort lt1 k1 rev l = py_sort lt2 k2 rev l.
Proof.
  intros E.
  assert (S : ∀ l, stable_sort lt1 k1 l = stable_sort lt2 k2 l).
  { clear l. induction l as [|x l IH]; simpl; [done|].
    by rewrite IH, (sort_insert_ext lt1 k1 lt2 k2). }
  unfold py_sort. by rewrite !S.
Qed.

(** ** The orders on sizes and on names *)

Lemma Z_ltb_asym a b : Z.ltb a b = true → Z.ltb b a = false.
Proof. rewrite Z.ltb_lt, Z.ltb_ge. lia. Qed.

Lemma Z_le_trans a b c : Z.ltb b a = false → Z.ltb c b = false → Z.ltb c a = false.
Proof. rewrite !Z.ltb_ge. lia. Qed.

Lemma string_compare_le_trans : ∀ a b c,
  String.compare a b ≠ Gt → String.compare b c ≠ Gt → String.compare a c ≠ Gt.
Proof.
  induction a as [|x a IH]; intros [|y b] [|z c]; simpl; try congruence.
  unfold Ascii.compare.
  destruct (N.compare_spec (N_of_ascii x) (N_of_ascii y)) as [E1|L1|G1];
    destruct (N.compare_spec (N_of_ascii y) (N_of_ascii z)) as [E2|L2|G2];
    destruct (N.compare_spec (N_of_ascii x) (N_of_ascii z)) as [E3|L3|G3];
    try congruence; try lia.
  apply IH.
Qed.

Lemma string_ltb_false a b : String.ltb b a = false ↔ String.compare a b ≠ Gt.
Proof.
  unfold String.ltb. rewrite (String.compare_antisym b a).
  destruct (String.compare a b); simpl; split; congruence.
Qed.

Lemma string_ltb_asym a b : String.ltb a b = true → String.ltb b a = false.
Proof.
  unfold String.ltb. rewrite (String.compare_antisym b a).
  by destruct (String.compare a b).
Qed.

Lemma string_le_trans a b c :
  String.ltb b a = false → String.ltb c b = false → String.ltb c a = false.
Proof. rewrite !string_ltb_false. apply string_compare_le_trans. Qed.

Lemma string_ltb_leb a b : String.ltb b a = false ↔ String.leb a b = true.
Proof.
  rewrite string_ltb_false. unfold String.leb.
  destruct (String.compare a b); split; congruence.
Qed.

Lemma string_ltb_irrefl a : String.ltb a a = false.
Proof.
  unfold String.ltb.
  assert (String.compare a a = Eq) as ->; [|done].
  induction a as [|x a IH]; simpl; [done|].
  unfold Ascii.compare. by rewrite N.compare_refl.
Qed.

(** ** Claims about [Node.sorted] *)

Lemma values_wf σ a n :
  wf σ → deref σ a = Some n →
  ∃ c, NodeOps.values σ (Node.ch n) = Some c ∧
       map fst c = dict_values (Node.ch n) ∧
       Forall (λ x, deref σ x.1 = Some x.2) c.
Proof.
  intros W Ha. unfold NodeOps.values.
  assert (Hall : Forall (λ c, is_Some (deref σ c)) (dict_values (Node.ch n))).
  { apply Forall_forall. intros c [k Hk]%dict_values_elem. by eapply wf_ch. }
  induction Hall as [|c l [m Hm] _ (cs & Hcs & Hfst & Hd)]; simpl.
  - by exists [].
  - exists ((c, m) :: cs). rewrite Hm. simpl. rewrite Hcs. simpl.
    split; [done|]. split; [by rewrite Hfst | by constructor].
Qed.

(** C4, as the code has it.  [sorted] returns the children, each once.  By
    ["size"] they stand by size descending, and children of one size keep
    the order of the [ch] dictionary (the order of insertion), whatever
    their names.  By any other criterion they stand by lower-cased name
    ascending. *)
Theorem sorted_spec σ self n by_ :
  wf σ → deref σ self = Some n →
  ∃ c l,
    NodeOps.values σ (Node.ch n) = Some c ∧
    map fst c = dict_values (Node.ch n) ∧
    NodeOps.sorted σ self by_ = Some l ∧
    l ≡ₚ c ∧
    (by_ = "size" →
       StronglySorted (λ x y, (Node.size y.2 ≤ Node.size x.2)%Z) l ∧
       ∀ s, filter (λ x, Node.size x.2 = s) l = filter (λ x, Node.size x.2 = s) c) ∧
    (by_ ≠ "size" →
       StronglySorted
         (λ x y, String.leb (lower (Node.name x.2)) (lower (Node.name y.2)) = true) l ∧
       ∀ s, filter (λ x, lower (Node.name x.2) = s) l =
            filter (λ x, lower (Node.name x.2) = s) c).
Proof.
  intros W Ha. destruct (values_wf σ self n W Ha) as (c & Hc & Hfst & _).
  unfold NodeOps.sorted. rewrite Ha. simpl. rewrite Hc. simpl.
  exists c. eexists. split; [done|]. split; [done|]. split; [done|].
  destruct (String.eqb_spec by_ "size") as [->|Hne].
  - rewrite (py_sort_ext key_lt (NodeOps.sort_lambda "size")
               Z.ltb (λ x : addr * Node.t, Node.size x.2)) by done.
    split; [apply py_sort_perm|]. split; [intros _|done]. split.
    + eapply StronglySorted_mono;
        [|apply (py_sort_sorted Z.ltb _ Z_ltb_asym Z_le_trans true)].
      intros x y. unfold flip, key_le. rewrite Z.ltb_ge. done.
    + intros s.
      apply (py_sort_filter Z.ltb (λ x : addr * Node.t, Node.size x.2) (λ k, k = s)
               (Pdec := λ k, decide_rel eq k s)).
      intros a b -> ->. apply Z.ltb_irrefl.
  - rewrite (py_sort_ext key_lt (NodeOps.sort_lambda by_)
               String.ltb (λ x : addr * Node.t, lower (Node.name x.2))).
    2:{ intros a b. unfold NodeOps.sort_lambda.
        by destruct (String.eqb_spec by_ "size"). }
    split; [apply py_sort_perm|]. split; [done|intros _]. split.
    + eapply StronglySorted_mono;
        [|apply (py_sort_sorted String.ltb _ string_ltb_asym string_le_trans false)].
      intros x y. unfold key_le. by rewrite string_ltb_leb.
    + intros s.
      apply (py_sort_filter String.ltb (λ x : addr * Node.t, lower (Node.name x.2))
               (λ k, k = s) (Pdec := λ k, decide_rel eq k s)).
      intros a b -> ->. apply string_ltb_irrefl.
Qed.

Lemma run_inserts_tree_ok ops σ :
  run_inserts ops t0.1 t0.2 = Some σ → tree_ok t0.1 σ.
Proof. intros H. eapply built_tree_ok, built_run_inserts; [apply built_init | exact H]. Qed.

(** C4, as stated, fails: two children of one size come out in the order of
    their insertion, ["b"] before ["a"]. *)
Lemma sorted_size_ties_not_by_name :
  ∃ σ l,
    run_inserts [("b", 1); ("a", 1)] t0.1 t0.2 = Some σ ∧
    NodeOps.sorted σ 1%positive "size" = Some l ∧
    map (λ x, (Node.name x.2, Node.size x.2)) l = [("b", 1); ("a", 1)] ∧
    ¬ StronglySorted size_then_name l.
Proof.
  eexists _, _. split; [vm_compute; reflexivity|].
  split; [vm_compute; reflexivity|]. split; [reflexivity|].
  intros [H _]%StronglySorted_cons. apply Forall_cons in H as [[H|[_ H]] _].
  - simpl in H. lia.
  - vm_compute in H. discriminate.
Qed.

(** [str.lower()] on the characters of the model: the capital letters of
    both alphabets are folded, a lower-case letter, a digit and the
    multiplication sign (code point 215, between [Ö] and [Ø]) are kept. *)
Lemma lower_folds_case :
  lower "Readme-01.TXT" = "readme-01.txt" ∧
  lower E_acute = e_acute ∧ lower e_acute = e_acute ∧
  lower (String "215"%char "") = String "215"%char "" ∧
  lower (String "222"%char "") = String "254"%char "".
Proof. repeat split. Qed.

Lemma lower_idempotent s : lower (lower s) = lower s.
Proof.
  induction s as [|c s IH]; simpl; [done|]. f_equal; [|exact IH].
  clear. destruct c as [[] [] [] [] [] [] [] []]; reflexivity.
Qed.

Lemma sorted_spec_witness :
  ∃ σ n l l',
    run_inserts mixed_case t0.1 t0.2 = Some σ ∧
    wf σ ∧ deref σ 1%positive = Some n ∧
    NodeOps.sorted σ 1%positive "size" = Some l ∧
    map (λ x, (Node.name x.2, Node.size x.2)) l =
      [("b", 3); ("A", 3); (E_acute, 2); (e_acute, 1)] ∧
    StronglySorted (λ x y, (Node.size y.2 ≤ Node.size x.2)%Z) l ∧
    NodeOps.sorted σ 1%positive "name" = Some l' ∧
    map (λ x, Node.name x.2) l' = ["A"; "b"; e_acute; E_acute] ∧
    StronglySorted
      (λ x y, String.leb (lower (Node.name x.2)) (lower (Node.name y.2)) = true) l'.
Proof.
  destruct (run_inserts_total mixed_case t0.1 t0.2 t0_ok) as (σ & Hrun & [W _] & _).
  pose proof Hrun as Hc. vm_compute in Hc. injection Hc as <-.
  destruct (sorted_spec _ 1%positive _ "size" W eq_refl)
    as (c & l & _ & _ & Hl & _ & Hsize & _).
  destruct (Hsize eq_refl) as [Hs _].
  destruct (sorted_spec _ 1%positive _ "name" W eq_refl)
    as (c' & l' & _ & _ & Hl' & _ & _ & Hname).
  destruct (Hname ltac:(discriminate)) as [Hs' _].
  eexists _, _, l, l'. split; [exact Hrun|]. split; [exact W|]. split; [reflexivity|].
  split; [exact Hl|]. split; [|split; [exact Hs|]].
  { vm_compute in Hl. injection Hl as <-. reflexivity. }
  split; [exact Hl'|]. split; [|exact Hs'].
  vm_compute in Hl'. injection Hl' as <-. reflexivity.
Defined.

Lemma insert_no_segment_witness :
  Tree.parts_of "" = [] ∧ Tree.parts_of "/" = [] ∧ Tree.parts_of "//" = [] ∧
  ∃ σ, run_inserts [("a/b/c.txt", 300); ("a/d.txt", 100)] t0.1 t0.2 = Some σ ∧
       tree_ok t0.1 σ ∧
       Tree.insert t0.1 "" 7 σ = Some σ ∧
       Tree.insert t0.1 "/" 7 σ = Some σ ∧
       Tree.insert t0.1 "//" 7 σ = Some σ.
Proof.
  repeat (split; [reflexivity|]).
  destruct (run_inserts_total [("a/b/c.txt", 300); ("a/d.txt", 100)] t0.1 t0.2 t0_ok)
    as (σ & Hrun & OK & _).
  exists σ. split; [exact Hrun|]. split; [exact OK|].
  repeat split; apply insert_no_segment; (exact OK || reflexivity).
Defined.

Lemma remove_guard_witness :
  ∃ σ σ1,
    run_inserts [("a/b", 3); ("a/c", 4)] t0.1 t0.2 = Some σ ∧
    Tree.remove t0.1 3%positive σ = Some σ1 ∧
    tree_ok t0.1 σ1 ∧
    Tree.remove t0.1 3%positive σ1 = Some σ1 ∧
    Tree.remove t0.1 1%positive σ1 = Some σ1.
Proof.
  destruct (run_inserts_total [("a/b", 3); ("a/c", 4)] t0.1 t0.2 t0_ok)
    as (σ & Hrun & OK & _).
  pose proof Hrun as Hc. vm_compute in Hc. injection Hc as <-.
  destruct (remove_total t0.1 3%positive _ OK ltac:(by eexists))
    as (σ1 & Hrem & OK1 & _).
  pose proof Hrem as Hc. vm_compute in Hc. injection Hc as <-.
  eexists _, _. split; [exact Hrun|]. split; [exact Hrem|]. split; [exact OK1|].
  split.
  - eapply remove_guard; [exact OK1 | reflexivity |].
    right. right. eexists 2%positive, _. repeat split; reflexivity.
  - eapply remove_guard; [exact OK1 | reflexivity |]. by left.
Defined.

(** ** The controller *)

Lemma delete_loop_send keys starts : ∀ c,
  UI.delete_loop keys starts c = send (map (λ i, slice keys i (i + 1000)) starts) c.
Proof.
  induction starts as [|i starts IH]; intros c; simpl; [done|].
  destruct (accepts c (length (requests c)) (slice keys i (i + 1000))); [|done].
  apply IH.
Qed.

Lemma send_all bs : ∀ c,
  (∀ j b, bs !! j = Some b → accepts c (length (requests c) + j) b = true) →
  send bs c = (mkS3 (requests c ++ map (λ b, (b, true)) bs) (accepts c), true).
Proof.
  induction bs as [|b bs IH]; intros c Hacc; simpl.
  - rewrite app_nil_r. by destruct c.
  - rewrite <- (Nat.add_0_r (length (requests c))), (Hacc 0%nat b eq_refl).
    rewrite IH; simpl.
    + by rewrite <- app_assoc.
    + intros j b' Hj. rewrite length_app. simpl.
      rewrite <- (Hacc (S j) b' Hj). f_equal. lia.
Qed.

Lemma send_fail pre b post : ∀ c,
  (∀ j b', pre !! j = Some b' → accepts c (length (requests c) + j) b' = true) →
  accepts c (length (requests c) + length pre) b = false →
  send (pre ++ b :: post) c =
    (mkS3 (requests c ++ map (λ b', (b', true)) pre ++ [(b, false)]) (accepts c), false).
Proof.
  induction pre as [|b0 pre IH]; intros c Hacc Hb; simpl.
  - rewrite Nat.add_0_r in Hb. by rewrite Hb.
  - rewrite <- (Nat.add_0_r (length (requests c))), (Hacc 0%nat b0 eq_refl).
    rewrite IH; simpl.
    + by rewrite <- app_assoc.
    + intros j b' Hj. rewrite length_app. simpl.
      rewrite <- (Hacc (S j) b' Hj). f_equal. lia.
    + rewrite length_app. simpl. rewrite <- Hb. f_equal. simpl. lia.
Qed.

(** *** Batches *)

Lemma py_range_0 n step : py_range 0 n step = map (λ k, (k * step)%nat) (seq 0 ((n + step - 1) / step)).
Proof. unfold py_range. by rewrite Nat.sub_0_r. Qed.

Lemma slice_chunk {A} (l : list A) i : slice l i (i + 1000) = take 1000 (drop i l).
Proof. unfold slice. f_equal. lia. Qed.

Lemma batches_chunks keys :
  batches keys =
  map (λ k, take 1000 (drop (k * 1000) keys)) (seq 0 ((length keys + 1000 - 1) / 1000)).
Proof.
  unfold batches. rewrite py_range_0, map_map.
  apply map_ext. intros k. apply slice_chunk.
Qed.

Lemma chunks_concat {A} m : ∀ l : list A,
  (length l ≤ m * 1000)%nat →
  concat (map (λ k, take 1000 (drop (k * 1000) l)) (seq 0 m)) = l.
Proof.
  induction m as [|m IH]; intros l Hl.
  - simpl in *. by destruct l; [|simpl in Hl; lia].
  - rewrite <- cons_seq, <- seq_shift, map_cons, map_map, concat_cons.
    change (0 * 1000)%nat with 0%nat. rewrite drop_0.
    transitivity (take 1000 l ++ drop 1000 l); [|apply take_drop].
    f_equal. rewrite <- (IH (drop 1000 l)) by (rewrite length_drop; lia).
    f_equal. apply map_ext. intros k. rewrite drop_drop.
    by replace (S k * 1000)%nat with (1000 + k * 1000)%nat by lia.
Qed.

Lemma chunk_count n :
  let m := ((n + 1000 - 1) / 1000)%nat in
  (n ≤ m * 1000 ∧ (∀ k, k < m → k * 1000 < n))%nat.
Proof.
  intros m. pose proof (Nat.div_mod_eq (n + 1000 - 1) 1000) as E.
  pose proof (Nat.mod_upper_bound (n + 1000 - 1) 1000 ltac:(lia)) as B.
  fold m in E. split; [lia|]. intros k Hk. nia.
Qed.

Lemma batches_concat keys : concat (batches keys) = keys.
Proof. rewrite batches_chunks. apply chunks_concat, chunk_count. Qed.

Lemma batches_sizes keys :
  Forall (λ b, (1 ≤ length b ≤ 1000)%nat) (batches keys).
Proof.
  rewrite batches_chunks. apply Forall_forall. intros b Hb.
  apply list_elem_of_In, in_map_iff in Hb as (k & <- & Hk%in_seq).
  rewrite length_take, length_drop.
  pose proof (proj2 (chunk_count (length keys)) k ltac:(lia)). lia.
Qed.

Lemma batches_2500 keys :
  length keys = 2500%nat → map length (batches keys) = [1000; 1000; 500]%nat.
Proof.
  intros H. rewrite batches_chunks, H.
  change ((2500 + 1000 - 1) / 1000)%nat with 3%nat. simpl.
  rewrite !length_take, !length_drop, H. reflexivity.
Qed.

(** *** The handlers return *)

Lemma update_status_total u :
  tree_ok (UI._ftree u) (UI.store u) →
  ∃ r c, deref (UI.store u) (Tree._root (UI._ftree u)) = Some r ∧
         NodeOps.count (UI.store u) (Tree._root (UI._ftree u)) = Some c ∧
         UI._update_status u = Some (UI.set_status (UI.StTotals (Node.size r) c) u).
Proof.
  intros [W (r & Hr & _)].
  destruct (count_all_keys _ _ _ W Hr) as (ks & _ & Hc & _).
  exists r, (Z.of_nat (length ks)). split; [done|]. split; [done|].
  unfold UI._update_status. rewrite Hr. simpl. by rewrite Hc.
Qed.

Lemma cancel_confirm_pending u node :
  tree_ok (UI._ftree u) (UI.store u) → UI._confirm_node u = Some node →
  ∃ r c, deref (UI.store u) (Tree._root (UI._ftree u)) = Some r ∧
         NodeOps.count (UI.store u) (Tree._root (UI._ftree u)) = Some c ∧
         UI._cancel_confirm u =
           Some (true, UI.set_status (UI.StTotals (Node.size r) c)
                         (UI.set_confirm_node None u)).
Proof.
  intros OK Hc.
  destruct (update_status_total (UI.set_confirm_node None u) OK) as (r & c & Hr & Hcnt & Hu).
  exists r, c. split; [done|]. split; [done|].
  unfold UI._cancel_confirm. rewrite Hc, Hu. done.
Qed.

Lemma sorted_total σ self by_ :
  wf σ → is_Some (deref σ self) → is_Some (NodeOps.sorted σ self by_).
Proof.
  intros W [n Hn]. destruct (values_wf σ self n W Hn) as (c & Hc & _).
  unfold NodeOps.sorted. rewrite Hn. simpl. rewrite Hc. simpl. eauto.
Qed.

Lemma sorted_exist σ self by_ l :
  wf σ → NodeOps.sorted σ self by_ = Some l →
  Forall (λ a, is_Some (deref σ a)) (map fst l).
Proof.
  intros W Hl. destruct (deref σ self) as [n|] eqn:Hn.
  2:{ unfold NodeOps.sorted in Hl. by rewrite Hn in Hl. }
  destruct (values_wf σ self n W Hn) as (c & Hc & _ & Hall).
  unfold NodeOps.sorted in Hl. rewrite Hn in Hl. simpl in Hl. rewrite Hc in Hl.
  injection Hl as <-.
  apply Forall_forall. intros a Ha.
  apply list_elem_of_In, in_map_iff in Ha as ([a' m] & <- & Hin).
  apply list_elem_of_In in Hin. rewrite py_sort_perm in Hin.
  rewrite Forall_forall in Hall. specialize (Hall _ Hin). simpl in *. eauto.
Qed.

Lemma refresh_total u :
  tree_ok (UI._ftree u) (UI.store u) → is_Some (deref (UI.store u) (UI.cwd u)) →
  ∃ u', UI._refresh u = Some u' ∧
        UI.store u' = UI.store u ∧ UI._ftree u' = UI._ftree u ∧
        UI.s3 u' = UI.s3 u ∧ UI.cwd u' = UI.cwd u ∧
        UI.sort_by u' = UI.sort_by u ∧ UI._confirm_node u' = None ∧
        UI.running u' = UI.running u ∧
        Forall (λ a, is_Some (deref (UI.store u) a)) (UI._items u').
Proof.
  intros OK Hcwd. pose proof OK as [W _]. unfold UI._refresh.
  destruct (sorted_total (UI.store u) (UI.cwd u) (UI.sort_by u) W Hcwd) as [items Hi].
  simpl. rewrite Hi. simpl.
  set (u1 := UI.set_items _ _).
  destruct (update_status_total u1 OK) as (r & c & _ & _ & ->).
  eexists. split; [done|]. repeat (split; [done|]). simpl.
  by eapply sorted_exist.
Qed.

Lemma refresh_ok u :
  tree_ok (UI._ftree u) (UI.store u) → is_Some (deref (UI.store u) (UI.cwd u)) →
  ∃ u', UI._refresh u = Some u' ∧ UI_ok u' ∧ UI.store u' = UI.store u ∧
        UI._confirm_node u' = None.
Proof.
  intros OK Hcwd.
  destruct (refresh_total u OK Hcwd) as (u' & Hr & Hs & Ht & _ & Hc & _ & Hn & _ & Hi).
  exists u'. split; [done|]. split; [|done].
  unfold UI_ok. rewrite Hs, Ht, Hc, Hn. done.
Qed.

Lemma confirm_yes_failure u node keys c' :
  UI._confirm_node u = Some node →
  NodeOps.all_keys (UI.store u) node = Some keys →
  send (batches keys) (UI.s3 u) = (c', false) →
  UI.action_confirm_yes u =
    Some (UI.Raised (UI.set_s3 c' (UI.set_status (UI.StDeleting (length keys)) u))).
Proof.
  intros Hc Hk Hs. unfold UI.action_confirm_yes. rewrite Hc, Hk. simpl.
  rewrite delete_loop_send. fold (batches keys). by rewrite Hs.
Qed.

Lemma confirm_yes_success u node keys c' :
  UI_ok u → UI._confirm_node u = Some node →
  NodeOps.all_keys (UI.store u) node = Some keys →
  send (batches keys) (UI.s3 u) = (c', true) →
  ∃ σ' u',
    Tree.remove (UI._ftree u) node (UI.store u) = Some σ' ∧
    UI.action_confirm_yes u = Some (UI.Returned u') ∧
    UI.store u' = σ' ∧ UI.s3 u' = c' ∧ UI._confirm_node u' = None ∧
    UI.cwd u' = UI.cwd u ∧ UI.status u' = UI.StDeleted (length keys).
Proof.
  intros (OK & Hcwd & Hn & _) Hc Hk Hs.
  destruct (remove_total (UI._ftree u) node (UI.store u) OK (Hn _ Hc))
    as (σ' & Hrem & OK' & E).
  unfold UI.action_confirm_yes. rewrite Hc, Hk. simpl.
  rewrite delete_loop_send. fold (batches keys). rewrite Hs. simpl.
  rewrite Hrem. simpl.
  set (u3 := UI.set_store σ' _).
  destruct (refresh_total u3) as (u4 & -> & H1 & H2 & H3 & H4 & H5 & H6 & H7 & _).
  { exact OK'. }
  { simpl. by eapply extends_is_Some. }
  simpl. exists σ'. eexists. split; [done|]. split; [done|].
  destruct (UI._items u4); simpl; rewrite ?H1, ?H3, ?H4, ?H6; done.
Qed.

(** *** Every state of a session is well-formed, and no handler gets stuck *)

Lemma UI_ok_fields u u' :
  UI_ok u →
  UI.store u' = UI.store u → UI._ftree u' = UI._ftree u → UI.cwd u' = UI.cwd u →
  UI._items u' = UI._items u →
  (UI._confirm_node u' = UI._confirm_node u ∨ UI._confirm_node u' = None) →
  UI_ok u'.
Proof.
  intros (OK & Hcwd & Hn & Hi) Hs Ht Hc Hit Hcn. unfold UI_ok.
  rewrite Hs, Ht, Hc, Hit. split; [done|]. split; [done|]. split; [|done].
  intros node Hnode. destruct Hcn as [Hcn|Hcn]; rewrite Hcn in Hnode; [auto | done].
Qed.

Lemma cancel_confirm_ok u :
  UI_ok u →
  ∃ b u', UI._cancel_confirm u = Some (b, u') ∧ UI_ok u' ∧
          (b = false → u' = u ∧ UI._confirm_node u = None).
Proof.
  intros OK. destruct (UI._confirm_node u) as [node|] eqn:Hc.
  - destruct (cancel_confirm_pending u node (proj1 OK) Hc) as (r & c & _ & _ & ->).
    eexists true, _. split; [done|]. split; [|done].
    eapply UI_ok_fields; [exact OK|done..|by right].
  - exists false, u. unfold UI._cancel_confirm. rewrite Hc. done.
Qed.

Lemma sel_exists u node :
  UI_ok u → UI._sel u = Some node → is_Some (deref (UI.store u) node).
Proof.
  intros (_ & _ & _ & Hi) Hs. rewrite Forall_forall in Hi. apply Hi.
  by eapply list_elem_of_lookup_2.
Qed.

Lemma find_row_total σ nm : ∀ items i,
  Forall (λ a, is_Some (deref σ a)) items → is_Some (UI.find_row σ nm i items).
Proof.
  induction items as [|item items IH]; intros i Hall; simpl; [eauto|].
  apply Forall_cons in Hall as [[n Hn] Hall]. rewrite Hn. simpl.
  destruct (String.eqb (Node.name n) nm); [eauto | by apply IH].
Qed.

Lemma row_selected_ok u :
  UI_ok u → ∃ u', UI.on_data_table_row_selected u = Some u' ∧ UI_ok u'.
Proof.
  intros OK. unfold UI.on_data_table_row_selected.
  destruct (cancel_confirm_ok u OK) as (b & u1 & -> & OK1 & Hb). simpl.
  destruct b; [eauto|]. destruct (Hb eq_refl) as [-> _].
  destruct (UI._sel u) as [node|] eqn:Hs; [|eauto].
  destruct (sel_exists u node OK Hs) as [n Hn]. rewrite Hn. simpl.
  destruct (Node.dir n && negb (bool_decide (Node.ch n = []))); [|eauto].
  destruct (refresh_ok (UI.set_cwd node u)) as (u' & -> & OK' & _); [exact (proj1 OK)|simpl; eauto|].
  eauto.
Qed.

Lemma go_up_ok u : UI_ok u → ∃ u', UI.action_go_up u = Some u' ∧ UI_ok u'.
Proof.
  intros OK. unfold UI.action_go_up.
  destruct (cancel_confirm_ok u OK) as (b & u1 & -> & OK1 & Hb). simpl.
  destruct b; [eauto|]. destruct (Hb eq_refl) as [-> _].
  pose proof OK as ([W _] & [c Hc] & _). rewrite Hc. simpl.
  destruct (Node.par c) as [p|] eqn:Hp; [|eauto].
  destruct (wf_par _ W _ _ _ Hc Hp) as [_ Hex].
  destruct (refresh_ok (UI.set_cwd p u)) as (u2 & -> & OK2 & _); [exact (proj1 OK)|done|].
  simpl. destruct (find_row_total (UI.store u2) (Node.name c) (UI._items u2) 0%nat)
    as [row ->]; [apply OK2|].
  simpl. destruct row; eexists; (split; [done|]); [|done].
  eapply UI_ok_fields; [exact OK2|done..|by left].
Qed.

Lemma delete_ok u : UI_ok u → ∃ u', UI.action_delete u = Some u' ∧ UI_ok u'.
Proof.
  intros OK. unfold UI.action_delete.
  destruct (cancel_confirm_ok u OK) as (b & u1 & -> & OK1 & Hb). simpl.
  destruct b; [eauto|]. destruct (Hb eq_refl) as [-> _].
  destruct (UI._sel u) as [node|] eqn:Hs; [|eauto].
  destruct (sel_exists u node OK Hs) as [n Hn]. rewrite Hn. simpl.
  destruct (count_all_keys _ _ _ (proj1 (proj1 OK)) Hn) as (ks & _ & -> & _). simpl.
  eexists. split; [done|].
  destruct OK as (OK & Hcwd & _ & Hi). unfold UI_ok. simpl.
  split; [done|]. split; [done|]. split; [|done]. intros ? [= <-]. eauto.
Qed.

Lemma sort_ok u by_ :
  UI_ok u →
  ∃ u', ('(cancelled, u1) ← UI._cancel_confirm u;
         if cancelled : bool then Some u1 else UI._refresh (UI.set_sort_by by_ u1)) = Some u' ∧
        UI_ok u'.
Proof.
  intros OK.
  destruct (cancel_confirm_ok u OK) as (b & u1 & -> & OK1 & Hb). simpl.
  destruct b; [eauto|]. destruct (Hb eq_refl) as [-> _].
  destruct (refresh_ok (UI.set_sort_by by_ u)) as (u' & -> & OK' & _);
    [exact (proj1 OK)|exact (proj1 (proj2 OK))|]. eauto.
Qed.

Lemma confirm_yes_ok u :
  UI_ok u →
  ∃ r, UI.action_confirm_yes u = Some r ∧
       UI_ok (match r with UI.Returned u' | UI.Raised u' => u' end).
Proof.
  intros OK. unfold UI.action_confirm_yes.
  destruct (UI._confirm_node u) as [node|] eqn:Hc; [|eauto].
  pose proof OK as ([W Hroot] & Hcwd & Hn & Hi).
  destruct (Hn _ Hc) as [n Hnode].
  destruct (count_all_keys _ _ _ W Hnode) as (keys & -> & _). simpl.
  destruct (UI.delete_loop _ _ _) as [c' [|]].
  - destruct (remove_total (UI._ftree u) node (UI.store u) (proj1 OK) (Hn _ Hc))
      as (σ' & Hrem & OK' & E).
    simpl. rewrite Hrem. simpl.
    set (u3 := UI.set_store σ' _).
    destruct (refresh_ok u3) as (u4 & -> & OK4 & _); [exact OK'| |].
    { simpl. by eapply extends_is_Some. }
    simpl. eexists. split; [done|]. simpl.
    destruct (UI._items u4) eqn:Hit;
      (eapply UI_ok_fields; [exact OK4|simpl; try done..|by left]).
  - eexists. split; [done|]. simpl.
    eapply UI_ok_fields; [exact OK|done..|by left].
Qed.

Lemma press_cases k u :
  UI.press k u = Some (UI.Returned u) ∨
  UI.press k u = UI.Returned <$> UI.action_quit u ∨
  UI.press k u = UI.Returned <$> UI.action_delete u ∨
  UI.press k u = UI.Returned <$> UI.action_sort_size u ∨
  UI.press k u = UI.Returned <$> UI.action_sort_name u ∨
  UI.press k u = UI.Returned <$> UI.action_go_up u ∨
  UI.press k u = UI.action_confirm_yes u ∨
  UI.press k u = UI.Returned <$> UI.action_confirm_cancel u.
Proof.
  unfold UI.press, UI.BINDINGS. simpl.
  destruct (String.eqb k "q"); [tauto|].
  destruct (String.eqb k "d"); [tauto|].
  destruct (String.eqb k "s"); [tauto|].
  destruct (String.eqb k "n"); [tauto|].
  destruct (String.eqb k "backspace"); [tauto|].
  destruct (String.eqb k "y"); [tauto|].
  destruct (String.eqb k "escape"); tauto.
Qed.

Lemma handle_ok e u :
  UI_ok u →
  ∃ r, UI.handle e u = Some r ∧
       UI_ok (match r with UI.Returned u' | UI.Raised u' => u' end).
Proof.
  intros OK. destruct e as [k|]; simpl.
  - destruct (press_cases k u) as [->|[->|[->|[->|[->|[->|[->| ->]]]]]]].
    + eauto.
    + eexists. split; [done|]. simpl. eapply UI_ok_fields; [exact OK|done..|by left].
    + destruct (delete_ok u OK) as (u' & -> & ?). eauto.
    + destruct (sort_ok u "size" OK) as (u' & Hs & ?).
      unfold UI.action_sort_size. rewrite Hs. eauto.
    + destruct (sort_ok u "name" OK) as (u' & Hs & ?).
      unfold UI.action_sort_name. rewrite Hs. eauto.
    + destruct (go_up_ok u OK) as (u' & -> & ?). eauto.
    + by apply confirm_yes_ok.
    + unfold UI.action_confirm_cancel.
      destruct (cancel_confirm_ok u OK) as (b & u1 & -> & OK1 & _). eauto.
  - destruct (row_selected_ok u OK) as (u' & -> & ?). eauto.
Qed.

(** Every state of a session satisfies what the claims about the
    controller assume. *)
Lemma session_ok u : session u → UI_ok u.
Proof.
  induction 1 as [tr σ c u B Hm|u row _ IH|u e u' _ IH He|u e u' _ IH He].
  - destruct (refresh_ok (UI.init tr c σ)) as (u' & Hr & OK & _).
    + by apply built_tree_ok.
    + simpl. destruct (built_tree_ok _ _ B) as [_ (r & Hr & _)]. eauto.
    + unfold UI.on_mount in Hm. congruence.
  - eapply UI_ok_fields; [exact IH|done..|by left].
  - destruct (handle_ok e u IH) as (r & Hr & OK). rewrite He in Hr.
    by injection Hr as <-.
  - destruct (handle_ok e u IH) as (r & Hr & OK). rewrite He in Hr.
    by injection Hr as <-.
Qed.

(** In a session every handler returns or raises. *)
Lemma session_handle_total u e : session u → is_Some (UI.handle e u).
Proof. intros OK%session_ok. destruct (handle_ok e u OK) as (r & -> & _). eauto. Qed.

(** ** Claims about the controller *)

(** C5. Confirming a delete on a client that accepts every request sends
    the leaf keys of the node in batches: one request per batch, in the order
    of the key list, each batch of 1 to 1000 keys, the batches together being
    the key list; 2500 keys go out as 1000, 1000 and 500. *)
Theorem confirm_yes_batches u node :
  UI_ok u → UI._confirm_node u = Some node →
  (∀ i b, accepts (UI.s3 u) i b = true) →
  ∃ keys u',
    NodeOps.all_keys (UI.store u) node = Some keys ∧
    UI.action_confirm_yes u = Some (UI.Returned u') ∧
    requests (UI.s3 u') =
      requests (UI.s3 u) ++ map (λ b, (b, true)) (batches keys) ∧
    concat (batches keys) = keys ∧
    Forall (λ b, (1 ≤ length b ≤ 1000)%nat) (batches keys) ∧
    (length keys = 2500%nat → map length (batches keys) = [1000; 1000; 500]%nat).
Proof.
  intros OK Hc Hacc. pose proof OK as ([W _] & _ & Hn & _).
  destruct (Hn _ Hc) as [n Hnode].
  destruct (count_all_keys _ _ _ W Hnode) as (keys & Hk & _).
  destruct (confirm_yes_success u node keys _ OK Hc Hk (send_all _ _ (λ j b _, Hacc _ b)))
    as (σ' & u' & _ & Hyes & _ & Hs3 & _).
  exists keys, u'. split; [done|]. split; [done|]. split; [by rewrite Hs3|].
  split; [apply batches_concat|]. split; [apply batches_sizes | apply batches_2500].
Qed.

(** C8, as the code has it.  With a delete pending, the keys bound to
    delete, sort by size, sort by name and go up, and the selection of a
    row, only cancel: the controller is back in [Browsing] of the same
    directory, the status line shows the totals, and nothing else changes. *)
Theorem handlers_cancel_confirmation u node e :
  UI_ok u → UI._confirm_node u = Some node →
  e ∈ [UI.Key "d"; UI.Key "s"; UI.Key "n"; UI.Key "backspace"; UI.RowSelected] →
  ∃ r c u',
    deref (UI.store u) (Tree._root (UI._ftree u)) = Some r ∧
    NodeOps.count (UI.store u) (Tree._root (UI._ftree u)) = Some c ∧
    u' = UI.set_status (UI.StTotals (Node.size r) c) (UI.set_confirm_node None u) ∧
    UI.handle e u = Some (UI.Returned u') ∧
    UI.mode_of u' = UI.Browsing (UI.cwd u).
Proof.
  intros (OK & _) Hc He.
  destruct (cancel_confirm_pending u node OK Hc) as (r & c & Hr & Hcnt & Hcancel).
  exists r, c. eexists. split; [done|]. split; [done|]. split; [done|].
  split; [|done].
  repeat (apply elem_of_cons in He as [->|He]); [..|by apply elem_of_nil in He].
  - change (UI.handle (UI.Key "d") u) with (UI.Returned <$> UI.action_delete u).
    unfold UI.action_delete. by rewrite Hcancel.
  - change (UI.handle (UI.Key "s") u) with (UI.Returned <$> UI.action_sort_size u).
    unfold UI.action_sort_size. by rewrite Hcancel.
  - change (UI.handle (UI.Key "n") u) with (UI.Returned <$> UI.action_sort_name u).
    unfold UI.action_sort_name. by rewrite Hcancel.
  - change (UI.handle (UI.Key "backspace") u)
      with (UI.Returned <$> UI.action_go_up u).
    unfold UI.action_go_up. by rewrite Hcancel.
  - change (UI.handle UI.RowSelected u)
      with (UI.Returned <$> UI.on_data_table_row_selected u).
    unfold UI.on_data_table_row_selected. by rewrite Hcancel.
Qed.

(** C2, as stated, fails.  [d] holds 1001 leaves and the client refuses the
    second request: the first request deletes 1000 keys, the second one
    raises, and the tree afterwards still lists all 1001 keys, the 1000
    deleted ones first. *)
Lemma failed_batch_keeps_deleted_leaves :
  observe_delete refuse_second (numbered_keys 1001) =
    Some (mk_observation (UI.ConfirmingDelete 2%positive) true
            [(1000%nat, true); (1%nat, false)] 1001%nat true).
Proof. vm_compute. reflexivity. Qed.

(** C8, as stated, fails.  With the delete of [a] pending, a key without
    binding leaves the controller as it is, still confirming; and [q] quits,
    which is the key's own action, with the delete still pending. *)
Lemma other_keys_do_not_cancel :
  confirming accept_all [("a/b/c.txt", 300); ("a/d.txt", 100)] =
    Some (UI.Returned pending_small) ∧
  UI.mode_of pending_small = UI.ConfirmingDelete 2%positive ∧
  UI.handle (UI.Key "x") pending_small = Some (UI.Returned pending_small) ∧
  UI.mode_of (result_state (UI.handle (UI.Key "x") pending_small)) =
    UI.ConfirmingDelete 2%positive ∧
  UI.handle (UI.Key "q") pending_small =
    Some (UI.Returned (UI.set_running false pending_small)) ∧
  UI.mode_of (result_state (UI.handle (UI.Key "q") pending_small)) =
    UI.ConfirmingDelete 2%positive ∧
  UI.running (result_state (UI.handle (UI.Key "q") pending_small)) = false.
Proof.
  split; [vm_compute; reflexivity|]. split; [vm_compute; reflexivity|].
  split; [vm_compute; reflexivity|]. split; [vm_compute; reflexivity|].
  split; [vm_compute; reflexivity|]. split; vm_compute; reflexivity.
Qed.

Lemma pending_small_ok : UI_ok pending_small.
Proof.
  split; [|split; [|split]].
  - apply (run_inserts_tree_ok [("a/b/c.txt", 300); ("a/d.txt", 100)]).
    vm_compute. reflexivity.
  - eexists. vm_compute. reflexivity.
  - intros node H. vm_compute in H. injection H as <-.
    eexists. vm_compute. reflexivity.
  - change (UI._items pending_small) with [2%positive].
    repeat constructor. eexists. vm_compute. reflexivity.
Qed.

Lemma pending_refused_ok : UI_ok pending_refused.
Proof.
  split; [|split; [|split]].
  - apply (run_inserts_tree_ok [("a/b/c.txt", 300); ("a/d.txt", 100)]).
    vm_compute. reflexivity.
  - eexists. vm_compute. reflexivity.
  - intros node H. vm_compute in H. injection H as <-.
    eexists. vm_compute. reflexivity.
  - change (UI._items pending_refused) with [2%positive].
    repeat constructor. eexists. vm_compute. reflexivity.
Qed.

Lemma confirm_yes_batches_witness :
  UI_ok pending_small ∧ UI._confirm_node pending_small = Some 2%positive ∧
  ∃ u', UI.action_confirm_yes pending_small = Some (UI.Returned u') ∧
        requests (UI.s3 u') = [(["a/b/c.txt"; "a/d.txt"], true)].
Proof.
  split; [apply pending_small_ok|]. split; [vm_compute; reflexivity|].
  destruct (confirm_yes_batches pending_small 2%positive pending_small_ok)
    as (keys & u' & Hk & Hyes & Hreq & _).
  - vm_compute. reflexivity.
  - intros i b. reflexivity.
  - vm_compute in Hk. injection Hk as <-.
    exists u'. split; [exact Hyes|]. rewrite Hreq. reflexivity.
Defined.

Lemma handlers_cancel_confirmation_witness :
  UI_ok pending_small ∧ UI._confirm_node pending_small = Some 2%positive ∧
  ∃ u', UI.handle (UI.Key "n") pending_small = Some (UI.Returned u') ∧
        UI.mode_of u' = UI.Browsing 1%positive ∧
        UI.sort_by u' = "size" ∧ UI.status u' = UI.StTotals 400 2.
Proof.
  split; [apply pending_small_ok|]. split; [vm_compute; reflexivity|].
  destruct (handlers_cancel_confirmation pending_small 2%positive (UI.Key "n")
              pending_small_ok) as (r & c & u' & Hr & Hc & -> & Hh & Hm).
  - vm_compute. reflexivity.
  - do 2 right. left.
  - vm_compute in Hr, Hc. injection Hr as <-. injection Hc as <-.
    eexists. split; [exact Hh|]. split; [exact Hm|]. split; reflexivity.
Defined.

(** * Further properties of the tree *)

(** ** Invariants of the loops *)

(** A property of stores kept by the two mutations of the [for] loop of
    [insert] holds when the loop ends. *)
Lemma walk_invariant key size len (P : Store → Prop) :
  (∀ σ c m, wf σ → P σ → deref σ c = Some m →
     P (update c (λ x, Node.set_key key (Node.set_size size x)) σ)) →
  (∀ σ node n new p, wf σ → P σ → deref σ node = Some n →
     dict_get p (Node.ch n) = None →
     Node.ch new = [] → Node.par new = Some node → Node.name new = p →
     P (update node (Node.set_ch (dict_set p (next σ) (Node.ch n))) (alloc new σ).2)) →
  ∀ parts i node σ node' σ',
    wf σ → is_Some (deref σ node) → truthy key = true → P σ →
    Tree.walk key size len i parts node σ = Some (node', σ') → P σ'.
Proof.
  intros Hover Hatt.
  induction parts as [|p rest IH]; intros i node σ node' σ' W [n Hn] Hk HP; simpl.
  - by intros [= <- <-].
  - rewrite Hn. simpl. destruct (dict_get p (Node.ch n)) as [c|] eqn:Hg.
    + pose proof (dict_get_elem _ _ _ Hg) as Hin.
      destruct (wf_ch _ W _ _ _ _ Hn Hin) as [_ [m Hm]].
      destruct (i =? len - 1)%nat.
      * apply IH; [by eapply wf_overwrite| |done|by eapply Hover].
        eapply extends_is_Some; [|by eexists]. apply extends_update. by intros ? _.
      * apply IH; eauto.
    + set (new := Node.mk p _ _ _ [] (Some node)).
      change (mkStore (<[next σ:=new]> (cells σ)) (Pos.succ (next σ)))
        with (alloc new σ).2.
      apply IH; [| |done|by apply Hatt].
      * apply wf_attach; [done..|]. simpl. by destruct (i =? len - 1)%nat.
      * rewrite (deref_attach _ _ _ _ _ _ W Hn).
        destruct (decide (next σ = node)); [eauto|]. rewrite decide_True by done. eauto.
Qed.

(** A property of stores kept by an assignment to [size] holds after the
    [while] loop of [insert] and after [recalc]. *)
Lemma bubble_invariant (P : Store → Prop) :
  (∀ σ a s, wf σ → P σ → P (update a (Node.set_size s) σ)) →
  ∀ fuel σ p σ', wf σ → P σ → Tree.bubble fuel p σ = Some σ' → P σ'.
Proof.
  intros Hsz. induction fuel as [|fuel IH]; intros σ [a|] σ' W HP; simpl; try done.
  - by intros [= <-].
  - destruct (deref σ a) as [n|]; [|done]. simpl.
    destruct (sum_sizes σ (Node.ch n)) as [s|]; [|done]. simpl.
    apply IH; [by apply wf_update_size | by apply Hsz].
  - by intros [= <-].
Qed.

Lemma recalc_invariant (P : Store → Prop) :
  (∀ σ a s, wf σ → P σ → P (update a (Node.set_size s) σ)) →
  ∀ fuel σ a σ', wf σ → P σ → NodeOps.recalc_fuel fuel a σ = Some σ' → P σ'.
Proof.
  intros Hsz. induction fuel as [|fuel IH]; intros σ a σ' W HP; simpl; [done|].
  destruct (deref σ a) as [n|]; [|done]. simpl.
  destruct (Node.dir n).
  - destruct (sum_sizes σ (Node.ch n)) as [s|]; [|done]. simpl.
    destruct (Node.par n) as [p|].
    + apply IH; [by apply wf_update_size | by apply Hsz].
    + intros [= <-]. by apply Hsz.
  - simpl. destruct (Node.par n) as [p|]; [by apply IH | by intros [= <-]].
Qed.

(** What the mutations of [insert] keep, [insert] keeps. *)
Lemma insert_invariant (P : Store → Prop) tr key size σ σ' :
  (∀ σ c m, wf σ → P σ → deref σ c = Some m →
     P (update c (λ x, Node.set_key key (Node.set_size size x)) σ)) →
  (∀ σ node n new p, wf σ → P σ → deref σ node = Some n →
     dict_get p (Node.ch n) = None →
     Node.ch new = [] → Node.par new = Some node → Node.name new = p →
     P (update node (Node.set_ch (dict_set p (next σ) (Node.ch n))) (alloc new σ).2)) →
  (∀ σ a s, wf σ → P σ → P (update a (Node.set_size s) σ)) →
  tree_ok tr σ → P σ → Tree.insert tr key size σ = Some σ' → P σ'.
Proof.
  intros Hover Hatt Hsz [W (r & Hr & Hp)] HP. unfold Tree.insert.
  destruct (Tree.parts_of key) as [|p rest] eqn:Hparts.
  - simpl. rewrite Hr. simpl. rewrite Hp, bubble_None. by intros [= <-].
  - assert (Hk : truthy key = true) by (apply parts_of_truthy; by rewrite Hparts).
    destruct (Tree.walk _ _ _ _ _ _ _) as [[node' σ1]|] eqn:Hw; [|done]. simpl.
    destruct (deref σ1 node') as [m|]; [|done]. simpl.
    destruct (walk_total key size (length (p :: rest)) (p :: rest) 0%nat
                (Tree._root tr) σ W ltac:(eauto) Hk) as (? & ? & Hw' & W1 & _).
    rewrite Hw in Hw'. injection Hw' as <- <-.
    apply (bubble_invariant P Hsz); [done|].
    refine (walk_invariant key size _ P Hover Hatt _ _ _ _ _ _ W _ Hk HP Hw). eauto.
Qed.

(** What the mutations of [remove] keep, [remove] keeps. *)
Lemma remove_invariant (P : Store → Prop) tr node σ σ' :
  (∀ σ p pn k, wf σ → P σ → deref σ p = Some pn →
     P (update p (Node.set_ch (dict_del k (Node.ch pn))) σ)) →
  (∀ σ a s, wf σ → P σ → P (update a (Node.set_size s) σ)) →
  wf σ → P σ → Tree.remove tr node σ = Some σ' → P σ'.
Proof.
  intros Hdel Hsz W HP. unfold Tree.remove.
  destruct (deref σ node) as [n|]; [|done]. simpl.
  destruct (Node.par n) as [p|]; [|by intros [= <-]].
  destruct (deref σ p) as [pn|] eqn:Hp; [|done]. simpl.
  destruct (dict_mem (Node.name n) (Node.ch pn)); [|by intros [= <-]].
  apply (recalc_invariant P Hsz); [|by apply Hdel].
  apply (wf_update σ p _ pn W Hp); [done| |].
  - simpl. by eapply wf_key.
  - simpl. intros k c Hin%dict_del_elem. by eapply wf_ch.
Qed.

(** ** Dictionaries, continued *)

Lemma dict_get_None {V} k (d : dict V) : dict_get k d = None ↔ k ∉ map fst d.
Proof.
  induction d as [|[k' v'] d IH]; simpl.
  - split; [intros _ ?%elem_of_nil; done | done].
  - destruct (String.eqb_spec k k') as [->|Hne].
    + split; [done|]. intros H. exfalso. apply H. left.
    + rewrite IH, not_elem_of_cons. split; [by intros ?|by intros [_ ?]].
Qed.

Lemma dict_set_absent {V} k (v : V) d : dict_get k d = None → dict_set k v d = d ++ [(k, v)].
Proof.
  induction d as [|[k' v'] d IH]; simpl; [done|].
  destruct (String.eqb_spec k k') as [->|Hne]; [done|].
  intros H. by rewrite IH.
Qed.

Lemma dict_get_set {V} k (v : V) d k' :
  dict_get k' (dict_set k v d) = if String.eqb k' k then Some v else dict_get k' d.
Proof.
  induction d as [|[k0 v0] d IH]; simpl; [done|].
  destruct (String.eqb_spec k k0) as [E|E]; simpl.
  - subst k0. by destruct (String.eqb k' k).
  - rewrite IH. destruct (String.eqb_spec k' k0) as [E'|E']; [|done].
    subst k'. by destruct (String.eqb_spec k0 k) as [E''|E'']; [congruence|].
Qed.

Lemma dict_del_keys {V} k (d : dict V) k' :
  k' ∈ map fst (dict_del k d) → k' ∈ map fst d.
Proof.
  induction d as [|[k0 v0] d IH]; simpl; [done|].
  destruct (String.eqb_spec k k0) as [->|Hne]; simpl.
  - by right.
  - intros [->|H]%elem_of_cons; [left | right; auto].
Qed.

Lemma dict_del_nodup {V} k (d : dict V) :
  NoDup (map fst d) → NoDup (map fst (dict_del k d)).
Proof.
  induction d as [|[k0 v0] d IH]; simpl; [done|].
  intros [Hnin Hnd]%NoDup_cons.
  destruct (String.eqb_spec k k0) as [->|Hne]; simpl; [done|].
  apply NoDup_cons. split; [|auto]. intros H%dict_del_keys. done.
Qed.

Lemma dict_get_del {V} k (d : dict V) k' :
  NoDup (map fst d) →
  dict_get k' (dict_del k d) = if String.eqb k' k then None else dict_get k' d.
Proof.
  induction d as [|[k0 v0] d IH]; simpl.
  - by destruct (String.eqb k' k).
  - intros [Hnin Hnd]%NoDup_cons.
    destruct (String.eqb_spec k k0) as [E|E]; simpl.
    + subst k0. destruct (String.eqb_spec k' k) as [E'|E']; [|done].
      subst k'. by apply dict_get_None.
    + rewrite IH by done. destruct (String.eqb_spec k' k0) as [E'|E']; [|done].
      subst k'. by destruct (String.eqb_spec k0 k) as [E''|E'']; [congruence|].
Qed.

Lemma dict_values_del {V} k (d : dict V) v :
  v ∈ dict_values (dict_del k d) → ∃ k', k' ∈ map fst (dict_del k d) ∧ (k', v) ∈ d.
Proof.
  intros [k' Hin]%dict_values_elem. exists k'. split; [|by eapply dict_del_elem].
  apply list_elem_of_In, in_map_iff. exists (k', v). split; [done|].
  by apply list_elem_of_In.
Qed.

(** ** Parent and child agree on every tree *)

Lemma links_shape σ : links σ → shape σ.
Proof.
  intros L a n k c Hn Hin. destruct (links_child _ L _ _ _ _ Hn Hin) as (m & ? & ? & _).
  eauto.
Qed.

Lemma links_update σ a f :
  links σ →
  (∀ n, Node.par (f n) = Node.par n ∧ Node.name (f n) = Node.name n) →
  (∀ n, deref σ a = Some n →
        (∀ k c, (k, c) ∈ Node.ch (f n) → (k, c) ∈ Node.ch n) ∧
        NoDup (map fst (Node.ch (f n)))) →
  links (update a f σ).
Proof.
  intros L Hf Hch.
  assert (Hcell : ∀ c m, deref σ c = Some m →
            ∃ m', deref (update a f σ) c = Some m' ∧
                  Node.par m' = Node.par m ∧ Node.name m' = Node.name m).
  { intros c m Hm. rewrite deref_update. case_decide.
    - subst. rewrite Hm. simpl. eexists. split; [done|]. apply Hf.
    - eauto. }
  split.
  - intros b nb k c Hb Hin.
    assert (∃ nb0, deref σ b = Some nb0 ∧ (k, c) ∈ Node.ch nb0) as (nb0 & Hb0 & Hin0).
    { apply deref_update_Some in Hb as (nb0 & Hb0 & [->|[-> ->]]); [eauto|].
      exists nb0. split; [done|]. by apply (Hch nb0 Hb0). }
    destruct (links_child _ L _ _ _ _ Hb0 Hin0) as (m & Hm & Hp & Hnm).
    destruct (Hcell _ _ Hm) as (m' & Hm' & Hp' & Hnm'). exists m'.
    split; [done|]. split; congruence.
  - intros b nb Hb.
    apply deref_update_Some in Hb as (nb0 & Hb0 & [->|[-> ->]]).
    + by eapply links_nodup.
    + by apply (Hch nb0 Hb0).
Qed.

Lemma links_update_size σ a s : links σ → links (update a (Node.set_size s) σ).
Proof.
  intros L. apply links_update; [done|by intros ?|]. intros n Hn. split; [done|].
  simpl. by eapply links_nodup.
Qed.

Lemma links_attach σ node n new p :
  wf σ → links σ → deref σ node = Some n → dict_get p (Node.ch n) = None →
  Node.ch new = [] → Node.par new = Some node → Node.name new = p →
  links (update node (Node.set_ch (dict_set p (next σ) (Node.ch n))) (alloc new σ).2).
Proof.
  intros W L Hn Hg Hch Hpar Hname.
  assert (Hne : next σ ≠ node) by (intros <-; by rewrite wf_fresh in Hn).
  assert (Hold : ∀ x m, deref σ x = Some m →
            ∃ m', deref (update node (Node.set_ch (dict_set p (next σ) (Node.ch n)))
                           (alloc new σ).2) x = Some m' ∧
                  Node.par m' = Node.par m ∧ Node.name m' = Node.name m).
  { intros x m Hx. rewrite (deref_attach _ _ _ _ _ _ W Hn).
    destruct (decide (x = node)) as [->|].
    - rewrite Hn in Hx. injection Hx as <-. eauto.
    - rewrite decide_False; [eauto|]. intros ->. by rewrite wf_fresh in Hx. }
  split.
  - intros b nb k c Hb Hin. rewrite (deref_attach _ _ _ _ _ _ W Hn) in Hb.
    destruct (decide (b = node)) as [->|Hbn]; [|destruct (decide (b = next σ)) as [->|Hbx]].
    + injection Hb as <-. simpl in Hin. apply dict_set_elem in Hin as [[= -> ->]|Hin].
      * exists new. split; [|done]. rewrite (deref_attach _ _ _ _ _ _ W Hn).
        by rewrite decide_False, decide_True.
      * destruct (links_child _ L _ _ _ _ Hn Hin) as (m & Hm & Hp & Hnm).
        destruct (Hold _ _ Hm) as (m' & ? & ? & ?). exists m'.
        split; [done|]. split; congruence.
    + injection Hb as <-. rewrite Hch in Hin. by apply elem_of_nil in Hin.
    + destruct (links_child _ L _ _ _ _ Hb Hin) as (m & Hm & Hp & Hnm).
      destruct (Hold _ _ Hm) as (m' & ? & ? & ?). exists m'.
      split; [done|]. split; congruence.
  - intros b nb Hb. rewrite (deref_attach _ _ _ _ _ _ W Hn) in Hb.
    destruct (decide (b = node)) as [->|Hbn]; [|destruct (decide (b = next σ)) as [->|Hbx]].
    + injection Hb as <-. simpl. rewrite (dict_set_absent _ _ _ Hg), map_app. simpl.
      apply NoDup_app. split; [by eapply links_nodup|]. split; [|apply NoDup_singleton].
      intros k Hk ->%list_elem_of_singleton. by apply dict_get_None in Hg.
    + injection Hb as <-. rewrite Hch. constructor.
    + by eapply links_nodup.
Qed.

Lemma links_detach σ p pn k :
  links σ → deref σ p = Some pn →
  links (update p (Node.set_ch (dict_del k (Node.ch pn))) σ).
Proof.
  intros L Hp. apply links_update; [done|by intros ?|]. intros n Hn.
  rewrite Hp in Hn. injection Hn as <-. simpl. split.
  - intros k' c. apply dict_del_elem.
  - apply dict_del_nodup. by eapply links_nodup.
Qed.

Lemma t0_links : links t0.2.
Proof.
  split.
  - intros a n k c [-> ->]%deref_t0 Hin. by apply elem_of_nil in Hin.
  - intros a n [-> ->]%deref_t0. constructor.
Qed.

Lemma built_links tr σ : built tr σ → links σ.
Proof.
  induction 1 as [|tr σ key size σ' B IH Hi|tr σ node σ' B IH Hex Hr].
  - apply t0_links.
  - apply (insert_invariant links tr key size σ σ'); [| | |by apply built_tree_ok|done..].
    + intros σ0 c m _ L _. apply links_update; [done|by intros ?|]. intros n Hn. split; [done|].
      simpl. by eapply links_nodup.
    + intros. by apply links_attach.
    + intros. by apply links_update_size.
  - apply (remove_invariant links tr node σ σ'); [| | |done..].
    + intros. by apply links_detach.
    + intros. by apply links_update_size.
    + by destruct (built_tree_ok _ _ B).
Qed.

(** ** What the loops leave alone *)

Lemma store_eq σ σ' : next σ = next σ' → (∀ a, deref σ a = deref σ' a) → σ = σ'.
Proof.
  destruct σ as [m nx], σ' as [m' nx']. unfold deref. simpl. intros -> H.
  f_equal. by apply map_eq.
Qed.

Lemma sbs_refl σ : same_but_sizes σ σ.
Proof. split; [done|]. intros a. destruct (deref σ a) as [[]|]; done. Qed.

Lemma sbs_update_size σ0 σ a s :
  same_but_sizes σ0 σ → same_but_sizes σ0 (update a (Node.set_size s) σ).
Proof.
  intros [Hn H]. split; [done|]. intros b. specialize (H b).
  rewrite deref_update. case_decide; [subst|done].
  destruct (deref σ0 b) as [n0|], (deref σ b) as [n|]; simpl; try done.
  rewrite H. done.
Qed.

Lemma bubble_sbs fuel σ p σ' :
  wf σ → Tree.bubble fuel p σ = Some σ' → same_but_sizes σ σ'.
Proof.
  intros W. apply (bubble_invariant (same_but_sizes σ)); [|done|apply sbs_refl].
  intros. by apply sbs_update_size.
Qed.

Lemma recalc_sbs fuel σ a σ' :
  wf σ → NodeOps.recalc_fuel fuel a σ = Some σ' → same_but_sizes σ σ'.
Proof.
  intros W. apply (recalc_invariant (same_but_sizes σ)); [|done|apply sbs_refl].
  intros. by apply sbs_update_size.
Qed.

Lemma sbs_deref σ σ' a n :
  same_but_sizes σ σ' → deref σ a = Some n →
  ∃ s, deref σ' a = Some (Node.set_size s n).
Proof.
  intros [_ H] Hn. specialize (H a). rewrite Hn in H.
  destruct (deref σ' a) as [n'|]; [|done]. exists (Node.size n'). by f_equal.
Qed.

Lemma sbs_deref_inv σ σ' a n' :
  same_but_sizes σ σ' → deref σ' a = Some n' →
  ∃ n, deref σ a = Some n ∧ n' = Node.set_size (Node.size n') n.
Proof.
  intros [_ H] Hn. specialize (H a). rewrite Hn in H.
  destruct (deref σ a) as [n|]; [|done]. eauto.
Qed.

Lemma sbs_extends σ σ' : same_but_sizes σ σ' → extends σ σ'.
Proof.
  intros S. split; [destruct S as [-> _]; lia|]. intros a n Hn.
  destruct (sbs_deref _ _ _ _ S Hn) as [s ->]. eauto.
Qed.

Lemma chain_sbs σ σ' p b : same_but_sizes σ σ' → chain σ' p b → chain σ p b.
Proof.
  intros S. induction 1 as [a|a n' b Hn' _ IH]; [constructor|].
  destruct (sbs_deref_inv _ _ _ _ S Hn') as (n & Hn & E).
  econstructor; [exact Hn|]. rewrite E in IH. exact IH.
Qed.

Lemma chain_le σ a b : wf σ → chain σ (Some a) b → (b ≤ a)%positive.
Proof.
  intros W H. remember (Some a) as p eqn:E. revert a E.
  induction H as [a'|a' n b Hn Hc IH]; intros a [= ->]; [lia|].
  destruct (Node.par n) as [q|] eqn:Hq; [|by destruct (chain_None _ _ Hc)].
  destruct (wf_par _ W _ _ _ Hn Hq) as [Hlt _]. specialize (IH q eq_refl). lia.
Qed.

Lemma chain_trans σ a b c :
  chain σ (Some a) b → chain σ (Some b) c → chain σ (Some a) c.
Proof.
  intros H. remember (Some a) as p eqn:E. revert a E.
  induction H as [a'|a' n b Hn Hc IH]; intros a [= ->] Hbc; [done|].
  destruct (Node.par n) as [q|] eqn:Hq; [|by destruct (chain_None _ _ Hc)].
  eapply chain_up; [exact Hn|]. rewrite Hq. exact (IH q eq_refl Hbc).
Qed.

(** The [while] loop of [insert] touches only [p] and its ancestors. *)
Lemma bubble_frame fuel : ∀ σ p σ' b,
  wf σ → Tree.bubble fuel p σ = Some σ' → ¬ chain σ p b → deref σ' b = deref σ b.
Proof.
  induction fuel as [|fuel IH]; intros σ [a|] σ' b W; simpl; try done.
  - by intros [= <-].
  - destruct (deref σ a) as [n|] eqn:Ha; [|done]. simpl.
    destruct (sum_sizes σ (Node.ch n)) as [s|]; [|done]. simpl.
    intros Hb Hc.
    assert (b ≠ a) by (intros ->; apply Hc; constructor).
    rewrite (IH _ _ _ b (wf_update_size _ a s W) Hb).
    + by apply deref_update_ne.
    + intros Hc'. apply Hc. eapply chain_up; [exact Ha|].
      eapply chain_sbs; [|exact Hc']. apply sbs_update_size, sbs_refl.
  - by intros [= <-].
Qed.

Lemma recalc_frame fuel : ∀ σ a σ' b,
  wf σ → NodeOps.recalc_fuel fuel a σ = Some σ' → ¬ chain σ (Some a) b →
  deref σ' b = deref σ b.
Proof.
  induction fuel as [|fuel IH]; intros σ a σ' b W; simpl; [done|].
  destruct (deref σ a) as [n|] eqn:Ha; [|done]. simpl.
  intros Hr Hc.
  assert (b ≠ a) by (intros ->; apply Hc; constructor).
  assert (∃ σ1, (if Node.dir n
                 then s ← sum_sizes σ (Node.ch n); Some (update a (Node.set_size s) σ)
                 else Some σ) = Some σ1 ∧ wf σ1 ∧ same_but_sizes σ σ1 ∧
                deref σ1 b = deref σ b) as (σ1 & E & W1 & S1 & Hb1).
  { destruct (Node.dir n).
    - destruct (sum_sizes σ (Node.ch n)) as [s|]; [|done]. simpl.
      eexists. split; [done|]. split; [by apply wf_update_size|].
      split; [apply sbs_update_size, sbs_refl | by apply deref_update_ne].
    - eexists. split; [done|]. split; [done|]. split; [apply sbs_refl | done]. }
  rewrite E in Hr. simpl in Hr. destruct (Node.par n) as [p|] eqn:Hp.
  - rewrite (IH _ _ _ b W1 Hr); [done|].
    intros Hc'. apply Hc. eapply chain_up; [exact Ha|]. rewrite Hp.
    by eapply chain_sbs.
  - by injection Hr as <-.
Qed.

(** ** Looking up what was inserted *)

Lemma keeps_refl σ : keeps_entries σ σ.
Proof. intros a n k c ? ?. eauto. Qed.

Lemma keeps_update σ0 σ a f :
  keeps_entries σ0 σ →
  (∀ n k c, deref σ a = Some n → dict_get k (Node.ch n) = Some c →
            dict_get k (Node.ch (f n)) = Some c) →
  keeps_entries σ0 (update a f σ).
Proof.
  intros K Hf b n k c Hb Hg. destruct (K _ _ _ _ Hb Hg) as (n' & Hn' & Hg').
  rewrite deref_update. case_decide; [subst|eauto].
  rewrite Hn'. simpl. eauto.
Qed.

Lemma keeps_attach σ0 σ node n new p :
  wf σ → keeps_entries σ0 σ → deref σ node = Some n → dict_get p (Node.ch n) = None →
  keeps_entries σ0
    (update node (Node.set_ch (dict_set p (next σ) (Node.ch n))) (alloc new σ).2).
Proof.
  intros W K Hn Hg b nb k c Hb Hgb. destruct (K _ _ _ _ Hb Hgb) as (n' & Hn' & Hg').
  rewrite (deref_attach _ _ _ _ _ _ W Hn).
  destruct (decide (b = node)) as [->|].
  - rewrite Hn in Hn'. injection Hn' as <-. eexists. split; [done|]. simpl.
    rewrite dict_get_set. destruct (String.eqb_spec k p) as [->|]; [congruence|done].
  - rewrite decide_False; [eauto|]. intros ->. by rewrite wf_fresh in Hn'.
Qed.

Lemma walk_keeps key size len parts i node σ node' σ' :
  wf σ → is_Some (deref σ node) → truthy key = true →
  Tree.walk key size len i parts node σ = Some (node', σ') → keeps_entries σ σ'.
Proof.
  intros W Hn Hk.
  apply (walk_invariant key size len (keeps_entries σ)); [| |done..|apply keeps_refl].
  - intros σ1 c m _ K _. by apply keeps_update.
  - intros σ1 nd n new p W1 K Hd Hg _ _ _. by apply keeps_attach.
Qed.

Lemma bubble_keeps fuel σ p σ' :
  wf σ → Tree.bubble fuel p σ = Some σ' → keeps_entries σ σ'.
Proof.
  intros W. apply (bubble_invariant (keeps_entries σ)); [|done|apply keeps_refl].
  intros σ1 a s _ K. by apply keeps_update.
Qed.

Lemma target_keeps σ σ' : keeps_entries σ σ' →
  ∀ parts node c, target σ node parts = Some c → target σ' node parts = Some c.
Proof.
  intros K. induction parts as [|p rest IH]; intros node c; simpl; [done|].
  destruct (deref σ node) as [n|] eqn:Hn; [|done]. simpl.
  destruct (dict_get p (Node.ch n)) as [x|] eqn:Hg; [|done]. simpl.
  destruct (K _ _ _ _ Hn Hg) as (n' & Hn' & Hg'). rewrite Hn'. simpl.
  rewrite Hg'. simpl. apply IH.
Qed.

Lemma target_cons σ node n p c rest :
  deref σ node = Some n → dict_get p (Node.ch n) = Some c →
  target σ node (p :: rest) = target σ c rest.
Proof. intros Hn Hg. simpl. rewrite Hn. simpl. by rewrite Hg. Qed.

(** The [for] loop of [insert] ends on the node that the segments lead to,
    and that node carries the size and the key. *)
Lemma walk_target key size len : ∀ parts i node σ node' σ',
  (i + length parts = len)%nat →
  wf σ → is_Some (deref σ node) → truthy key = true →
  Tree.walk key size len i parts node σ = Some (node', σ') →
  target σ' node parts = Some node' ∧
  (parts ≠ [] → ∃ m, deref σ' node' = Some m ∧ Node.size m = size ∧ Node.key m = key).
Proof.
  induction parts as [|p rest IH]; intros i node σ node' σ' Hlen W [n Hn] Hk Hw;
    simpl in Hw.
  - by injection Hw as <- <-.
  - rewrite Hn in Hw. simpl in Hw. rewrite (leaf_last i len rest Hlen) in Hw.
    destruct (dict_get p (Node.ch n)) as [c|] eqn:Hg.
    + pose proof (dict_get_elem _ _ _ Hg) as Hin.
      destruct (wf_ch _ W _ _ _ _ Hn Hin) as [Hlt [m Hm]].
      destruct rest as [|q rest].
      * simpl in Hw. injection Hw as <- <-.
        set (f := λ x, Node.set_key key (Node.set_size size x)).
        assert (Hc' : deref (update c f σ) c = Some (f m)) by by apply deref_update_eq.
        split.
        -- erewrite target_cons; [done| |exact Hg]. by rewrite deref_update_ne by lia.
        -- intros _. exists (f m). done.
      * cbv beta iota in Hw. pose proof Hw as Hw'.
        apply IH in Hw as [Ht Hl]; [|simpl in *; lia|done|by eexists|done].
        split; [|intros _; by apply Hl].
        pose proof (walk_keeps _ _ _ _ _ _ _ _ _ W (mk_is_Some _ _ Hm) Hk Hw') as K.
        destruct (K _ _ _ _ Hn Hg) as (n' & Hn' & Hg').
        by rewrite (target_cons _ _ _ _ _ _ Hn' Hg').
    + set (new := Node.mk p _ _ _ [] (Some node)) in Hw.
      change (mkStore (<[next σ:=new]> (cells σ)) (Pos.succ (next σ)))
        with (alloc new σ).2 in Hw.
      set (σ2 := update node _ _) in Hw.
      assert (W2 : wf σ2).
      { apply wf_attach; [done..|]. simpl. by destruct rest. }
      assert (Hne : next σ ≠ node) by (intros <-; by rewrite wf_fresh in Hn).
      assert (Hnew : deref σ2 (next σ) = Some new).
      { subst σ2. rewrite (deref_attach _ _ _ _ _ _ W Hn).
        by rewrite decide_False, decide_True. }
      assert (Hnode : ∃ n2, deref σ2 node = Some n2 ∧
                            dict_get p (Node.ch n2) = Some (next σ)).
      { subst σ2. rewrite (deref_attach _ _ _ _ _ _ W Hn), decide_True by done.
        eexists. split; [done|]. simpl. by rewrite dict_get_set, String.eqb_refl. }
      destruct Hnode as (n2 & Hn2 & Hg2).
      pose proof Hw as Hw'.
      apply IH in Hw as [Ht Hl]; [|simpl in *; lia|done|by eexists|done].
      pose proof (walk_keeps _ _ _ _ _ _ _ _ _ W2 (mk_is_Some _ _ Hnew) Hk Hw') as K.
      destruct (K _ _ _ _ Hn2 Hg2) as (n' & Hn' & Hg').
      split; [by rewrite (target_cons _ _ _ _ _ _ Hn' Hg')|].
      intros _. destruct rest as [|q rest]; [|by apply Hl].
      simpl in Hw'. injection Hw' as <- <-. exists new. done.
Qed.

(** The two loops of [insert], when the key has a segment. *)
Lemma insert_steps tr σ key size σ' :
  tree_ok tr σ → Tree.parts_of key ≠ [] → Tree.insert tr key size σ = Some σ' →
  ∃ leaf σ1 m,
    Tree.walk key size (length (Tree.parts_of key)) 0 (Tree.parts_of key)
      (Tree._root tr) σ = Some (leaf, σ1) ∧
    wf σ1 ∧ extends σ σ1 ∧ deref σ1 leaf = Some m ∧
    Tree.bubble (Pos.to_nat (next σ1)) (Node.par m) σ1 = Some σ'.
Proof.
  intros [W (r & Hr & Hp)] Hparts. unfold Tree.insert.
  destruct (walk_total key size (length (Tree.parts_of key)) (Tree.parts_of key) 0%nat
              (Tree._root tr) σ W) as (leaf & σ1 & Hw & W1 & E1 & [m Hm]);
    [eauto | by apply parts_of_truthy |].
  rewrite Hw. simpl. rewrite Hm. simpl. intros Hb. by exists leaf, σ1, m.
Qed.

Lemma not_chain_par σ a n : wf σ → deref σ a = Some n → ¬ chain σ (Node.par n) a.
Proof.
  intros W Hn Hc. destruct (Node.par n) as [q|] eqn:Hq; [|by destruct (chain_None _ _ Hc)].
  destruct (wf_par _ W _ _ _ Hn Hq) as [Hlt _]. apply (chain_le _ _ _ W) in Hc. lia.
Qed.

Lemma insert_target tr σ key size σ' :
  tree_ok tr σ → Tree.parts_of key ≠ [] → Tree.insert tr key size σ = Some σ' →
  ∃ leaf σ1 m,
    Tree.walk key size (length (Tree.parts_of key)) 0 (Tree.parts_of key)
      (Tree._root tr) σ = Some (leaf, σ1) ∧
    wf σ1 ∧ extends σ σ1 ∧ deref σ1 leaf = Some m ∧
    Tree.bubble (Pos.to_nat (next σ1)) (Node.par m) σ1 = Some σ' ∧
    target σ' (Tree._root tr) (Tree.parts_of key) = Some leaf ∧
    deref σ' leaf = Some m ∧ Node.size m = size ∧ Node.key m = key.
Proof.
  intros OK Hparts Hi.
  destruct (insert_steps _ _ _ _ _ OK Hparts Hi) as (leaf & σ1 & m & Hw & W1 & E1 & Hm & Hb).
  destruct OK as [W (r & Hr & _)].
  destruct (walk_target key size _ _ 0%nat _ _ _ _ eq_refl W (mk_is_Some _ _ Hr)
              (parts_of_truthy _ Hparts) Hw) as [Ht Hl].
  destruct (Hl Hparts) as (m' & Hm' & Hs & Hk).
  assert (m' = m) as -> by congruence.
  exists leaf, σ1, m. repeat (split; [done|]).
  split; [|split; [|done]].
  - eapply target_keeps; [|exact Ht]. by eapply bubble_keeps.
  - rewrite (bubble_frame _ _ _ _ leaf W1 Hb); [done|]. by apply not_chain_par.
Qed.

(** X1. Insert, then look up: after [insert(key, size)] of a key with at
    least one non-empty segment, following the segments of the key from
    the root through the [ch] dictionaries reaches a node, and that node
    has the inserted size and the inserted key. *)
Theorem insert_then_lookup tr σ key size σ' :
  tree_ok tr σ → Tree.parts_of key ≠ [] → Tree.insert tr key size σ = Some σ' →
  ∃ c n, target σ' (Tree._root tr) (Tree.parts_of key) = Some c ∧
         deref σ' c = Some n ∧ Node.size n = size ∧ Node.key n = key.
Proof.
  intros OK Hparts Hi.
  destruct (insert_target _ _ _ _ _ OK Hparts Hi)
    as (leaf & σ1 & m & _ & _ & _ & _ & _ & Ht & Hm & Hs & Hk).
  by exists leaf, m.
Qed.

Lemma insert_then_lookup_witness :
  ∃ σ σ' n,
    run_inserts [("a/b/c.txt", 300); ("a/d.txt", 100)] t0.1 t0.2 = Some σ ∧
    Tree.insert t0.1 "a//b/c.txt" 7 σ = Some σ' ∧
    target σ' 1%positive ["a"; "b"; "c.txt"] = Some 4%positive ∧
    deref σ' 4%positive = Some n ∧ Node.size n = 7 ∧ Node.key n = "a//b/c.txt".
Proof.
  destruct (run_inserts_total [("a/b/c.txt", 300); ("a/d.txt", 100)] t0.1 t0.2 t0_ok)
    as (σ & Hrun & OK & _).
  destruct (insert_total t0.1 "a//b/c.txt" 7 σ OK) as (σ' & Hi & _).
  destruct (insert_then_lookup t0.1 σ "a//b/c.txt" 7 σ' OK ltac:(done) Hi)
    as (c & n & Ht & Hn & Hs & Hk).
  pose proof Hrun as Hc. vm_compute in Hc. injection Hc as <-.
  pose proof Hi as Hc. vm_compute in Hc. injection Hc as <-.
  pose proof Ht as Hc. vm_compute in Hc. injection Hc as <-.
  eexists _, _, n. split; [exact Hrun|]. split; [exact Hi|]. split; [exact Ht|].
  split; [exact Hn|]. split; [exact Hs | exact Hk].
Defined.

(** The [for] loop of [insert] changes nothing outside the path from the
    root to the node it ends on. *)
Lemma walk_frame key size len : ∀ parts i node σ node' σ',
  (i + length parts = len)%nat →
  wf σ → shape σ → is_Some (deref σ node) → truthy key = true →
  Tree.walk key size len i parts node σ = Some (node', σ') →
  chain σ' (Some node') node ∧ (∀ a, ¬ chain σ' (Some node') a → deref σ' a = deref σ a).
Proof.
  induction parts as [|p rest IH]; intros i node σ node' σ' Hlen W S [n Hn] Hk Hw;
    simpl in Hw.
  - injection Hw as <- <-. split; [constructor | done].
  - rewrite Hn in Hw. simpl in Hw.
    destruct (dict_get p (Node.ch n)) as [c|] eqn:Hg.
    + pose proof (dict_get_elem _ _ _ Hg) as Hin.
      destruct (S _ _ _ _ Hn Hin) as (m & Hm & Hpar).
      set (σ1 := if (i =? len - 1)%nat then _ else σ) in Hw.
      assert (wf σ1 ∧ extends σ σ1 ∧ shape σ1 ∧ (∀ a, a ≠ c → deref σ1 a = deref σ a))
        as (W1 & E1 & S1 & F1).
      { subst σ1. destruct (i =? len - 1)%nat; [|eauto using extends_refl].
        assert (E : extends σ (update c (λ x, Node.set_key key (Node.set_size size x)) σ))
          by (apply extends_update; by intros ? _).
        split; [by eapply wf_overwrite|]. split; [done|]. split.
        - apply shape_extends_update; [done..|]. intros n0 k c0 Hn0 Hin0. by eapply S.
        - intros a Ha. by apply deref_update_ne. }
      assert (Hex1 : is_Some (deref σ1 c)) by (eapply extends_is_Some; eauto).
      destruct (walk_total key size len rest (Datatypes.S i) c σ1 W1 Hex1 Hk)
        as (x & y & Hw2 & _ & E2 & _).
      rewrite Hw in Hw2. injection Hw2 as <- <-.
      apply IH in Hw as [Hc Hf]; [|simpl in *; lia|done..].
      destruct (proj2 (extends_trans _ _ _ E1 E2) _ _ Hm) as (m' & Hm' & Hp' & _).
      assert (Hcn : chain σ' (Some c) node).
      { eapply chain_up; [exact Hm'|]. rewrite Hp', Hpar. constructor. }
      split; [by eapply chain_trans|].
      intros a Ha. rewrite (Hf a Ha). apply F1. by intros ->.
    + set (new := Node.mk p _ _ _ [] (Some node)) in Hw.
      change (mkStore (<[next σ:=new]> (cells σ)) (Pos.succ (next σ)))
        with (alloc new σ).2 in Hw.
      set (σ2 := update node _ _) in Hw.
      assert (W2 : wf σ2).
      { apply wf_attach; [done..|]. simpl. intros Hd. destruct (i =? len - 1)%nat; done. }
      assert (S2 : shape σ2) by by apply shape_attach.
      assert (Hne : next σ ≠ node) by (intros <-; by rewrite wf_fresh in Hn).
      assert (Hnew : deref σ2 (next σ) = Some new).
      { subst σ2. rewrite (deref_attach _ _ _ _ _ _ W Hn).
        by rewrite decide_False, decide_True. }
      destruct (walk_total key size len rest (Datatypes.S i) (next σ) σ2 W2
                  (mk_is_Some _ _ Hnew) Hk) as (x & y & Hw2 & _ & E2 & _).
      rewrite Hw in Hw2. injection Hw2 as <- <-.
      apply IH in Hw as [Hc Hf]; [|simpl in *; lia|done|done|by eexists|done].
      destruct (proj2 E2 _ _ Hnew) as (m' & Hm' & Hp' & _).
      assert (Hcn : chain σ' (Some (next σ)) node).
      { eapply chain_up; [exact Hm'|]. rewrite Hp'. constructor. }
      split; [by eapply chain_trans|].
      intros a Ha. rewrite (Hf a Ha). subst σ2.
      rewrite (deref_attach _ _ _ _ _ _ W Hn).
      rewrite decide_False, decide_False; [done| |].
      * by intros ->.
      * intros ->. apply Ha. by eapply chain_trans.
Qed.

(** X2. [insert] changes only the path it walks: every node object that is
    neither the node the key leads to nor one of its ancestors is, after
    the call, exactly as it was before (all six fields). *)
Theorem insert_frame tr σ key size σ' c a :
  built tr σ → Tree.insert tr key size σ = Some σ' →
  target σ' (Tree._root tr) (Tree.parts_of key) = Some c →
  ¬ chain σ' (Some c) a → deref σ' a = deref σ a.
Proof.
  intros B Hi Ht Hc. pose proof (built_tree_ok _ _ B) as OK.
  destruct (decide (Tree.parts_of key = [])) as [E|Hparts].
  { destruct (insert_total tr key size σ OK) as (σ1 & Hi1 & _).
    unfold Tree.insert in Hi. rewrite E in Hi. simpl in Hi.
    destruct OK as [_ (r & Hr & Hp)]. rewrite Hr in Hi. simpl in Hi.
    rewrite Hp, bubble_None in Hi. by injection Hi as <-. }
  destruct (insert_target _ _ _ _ _ OK Hparts Hi)
    as (leaf & σ1 & m & Hw & W1 & E1 & Hm & Hb & Ht' & _).
  assert (c = leaf) as -> by congruence.
  pose proof OK as [W (r & Hr & _)].
  destruct (walk_frame key size _ _ 0%nat _ _ _ _ eq_refl W
              (links_shape _ (built_links _ _ B)) (mk_is_Some _ _ Hr)
              (parts_of_truthy _ Hparts) Hw) as [_ Hf].
  pose proof (sbs_extends _ _ (bubble_sbs _ _ _ _ W1 Hb)) as E2.
  assert (Hc1 : ¬ chain σ1 (Some leaf) a).
  { intros H. apply Hc. by eapply chain_extends. }
  rewrite (bubble_frame _ _ _ _ a W1 Hb); [by apply Hf|].
  intros H. apply Hc1. by eapply chain_up.
Qed.

Lemma insert_frame_witness :
  ∃ σ σ',
    run_inserts [("x", 1); ("y", 2)] t0.1 t0.2 = Some σ ∧
    Tree.insert t0.1 "x" 5 σ = Some σ' ∧
    deref σ' 3%positive = deref σ 3%positive.
Proof.
  destruct (run_inserts_total [("x", 1); ("y", 2)] t0.1 t0.2 t0_ok)
    as (σ & Hrun & OK & _).
  destruct (insert_total t0.1 "x" 5 σ OK) as (σ' & Hi & [W' _] & _).
  exists σ, σ'. split; [exact Hrun|]. split; [exact Hi|].
  apply (insert_frame t0.1 σ "x" 5 σ' 2%positive 3%positive).
  - eapply built_run_inserts; [apply built_init | exact Hrun].
  - exact Hi.
  - pose proof Hrun as Hc. vm_compute in Hc. injection Hc as <-.
    pose proof Hi as Hc. vm_compute in Hc. injection Hc as <-. reflexivity.
  - intros Hc%chain_le; [lia | exact W'].
Defined.

(** ** Inserting a key twice *)

(** The [for] loop on a path that exists overwrites its last node and
    creates nothing. *)
Lemma walk_existing key size len : ∀ parts i node σ leaf,
  (i + length parts = len)%nat → parts ≠ [] →
  target σ node parts = Some leaf →
  Tree.walk key size len i parts node σ =
    Some (leaf, update leaf (λ x, Node.set_key key (Node.set_size size x)) σ).
Proof.
  induction parts as [|p rest IH]; intros i node σ leaf Hlen Hne Ht; [done|].
  simpl in Ht. simpl.
  destruct (deref σ node) as [n|]; [|done]. simpl in *.
  destruct (dict_get p (Node.ch n)) as [c|]; [|done]. simpl in Ht.
  rewrite (leaf_last i len rest Hlen).
  destruct rest as [|q rest].
  - simpl in Ht. by injection Ht as <-.
  - apply IH; [simpl in *; lia|done|done].
Qed.

(** The [for] loop with another size does the same, but for the size of
    the node it ends on. *)
Lemma walk_size_indep key s1 s2 len : ∀ parts i node σ leaf σ1,
  (i + length parts = len)%nat → parts ≠ [] → wf σ →
  Tree.walk key s1 len i parts node σ = Some (leaf, σ1) →
  Tree.walk key s2 len i parts node σ =
    Some (leaf, update leaf (λ x, Node.set_key key (Node.set_size s2 x)) σ1).
Proof.
  induction parts as [|p rest IH]; intros i node σ leaf σ1 Hlen Hne W Hw; [done|].
  simpl in Hw. simpl.
  destruct (deref σ node) as [n|] eqn:Hn; [|done]. simpl in *.
  rewrite (leaf_last i len rest Hlen) in *.
  destruct (dict_get p (Node.ch n)) as [c|] eqn:Hg.
  - destruct rest as [|q rest].
    + simpl in Hw. injection Hw as <- <-. simpl. do 2 f_equal.
      apply store_eq; [done|]. intros a. rewrite !deref_update.
      destruct (decide (c = a)) as [<-|]; [|done].
      rewrite decide_True by done. by destruct (deref σ c).
    + apply IH; [simpl in *; lia|done|done|exact Hw].
  - destruct rest as [|q rest].
    + simpl in Hw. injection Hw as <- <-. simpl. do 2 f_equal.
      apply store_eq; [done|]. intros a.
      set (new1 := Node.mk p _ s1 _ [] (Some node)).
      set (new2 := Node.mk p _ s2 _ [] (Some node)).
      change (mkStore (<[next σ:=new1]> (cells σ)) (Pos.succ (next σ)))
        with (alloc new1 σ).2.
      change (mkStore (<[next σ:=new2]> (cells σ)) (Pos.succ (next σ)))
        with (alloc new2 σ).2.
      assert (Hne' : next σ ≠ node) by (intros <-; by rewrite wf_fresh in Hn).
      rewrite (deref_update _ (next σ)), !(deref_attach _ _ _ _ _ _ W Hn).
      rewrite (decide_False (P := next σ = node)) by done.
      rewrite (decide_True (P := next σ = next σ)) by done.
      destruct (decide (next σ = a)) as [<-|].
      * by rewrite decide_False, decide_True by done.
      * destruct (decide (a = node)); [done|]. by rewrite !decide_False by congruence.
    + simpl. apply IH; [simpl in *; lia|done| |exact Hw].
      set (new := Node.mk p _ _ _ [] (Some node)).
      change (mkStore (<[next σ:=new]> (cells σ)) (Pos.succ (next σ)))
        with (alloc new σ).2.
      by apply wf_attach.
Qed.

(** The [while] loop recomputes the sizes it meets, so it forgets the
    sizes that [p] and its ancestors had before. *)
Lemma bubble_agree fuel : ∀ p X Y,
  wf X → wf Y → agree_off p X Y → Tree.bubble fuel p X = Tree.bubble fuel p Y.
Proof.
  assert (Hnone : ∀ X Y, agree_off None X Y → X = Y).
  { intros X Y [Hn H]. apply store_eq; [done|]. intros a. specialize (H a).
    destruct (deref X a) as [x|], (deref Y a) as [y|]; try done.
    destruct H as [_ H]. f_equal. apply H. apply chain_None. }
  induction fuel as [|fuel IH]; intros [a|] X Y WX WY A; simpl; try done.
  - by rewrite (Hnone X Y A).
  - pose proof A as [Hn H]. pose proof (H a) as Ha.
    destruct (deref X a) as [x|] eqn:Hx, (deref Y a) as [y|] eqn:Hy; try done.
    simpl. destruct Ha as [Hyx _].
    assert (Hch : Node.ch y = Node.ch x) by by rewrite Hyx.
    assert (Hpar : Node.par y = Node.par x) by by rewrite Hyx.
    rewrite Hch, Hpar.
    assert (Hsum : sum_sizes Y (Node.ch x) = sum_sizes X (Node.ch x)).
    { apply sum_sizes_ext. intros k c Hin.
      destruct (wf_ch _ WX _ _ _ _ Hx Hin) as [Hlt _].
      pose proof (H c) as Hc.
      destruct (deref X c) as [xc|], (deref Y c) as [yc|]; try done.
      destruct Hc as [_ Hc]. simpl. rewrite Hc; [done|].
      intros Hcc%chain_le; [lia|done]. }
    rewrite Hsum. destruct (sum_sizes X (Node.ch x)) as [s|]; [|done]. simpl.
    apply IH; [by apply wf_update_size..|].
    split; [done|]. intros b. rewrite !deref_update.
    destruct (decide (a = b)) as [<-|Hab].
    + rewrite Hx, Hy. simpl. rewrite Hyx. split; [done|]. by destruct x.
    + pose proof (H b) as Hb.
      destruct (deref X b) as [xb|], (deref Y b) as [yb|]; try done.
      destruct Hb as [Hb1 Hb2]. split; [done|]. intros Hc. apply Hb2.
      intros [->|(n & Hn' & Hc')]%chain_inv; [done|].
      apply Hc. eapply chain_extends; [apply extends_update_size|]. congruence.
  - by rewrite (Hnone X Y A).
Qed.

(** X3. The last write wins: after [insert(key, s1)], a second
    [insert(key, s2)] of the same key leaves the tree exactly as a single
    [insert(key, s2)] would have; in particular, inserting the same key and
    size twice changes nothing the second time. *)
Theorem insert_last_wins tr σ key s1 s2 σ1 :
  tree_ok tr σ → Tree.insert tr key s1 σ = Some σ1 →
  Tree.insert tr key s2 σ1 = Tree.insert tr key s2 σ.
Proof.
  intros OK Hi.
  destruct (decide (Tree.parts_of key = [])) as [E|Hparts].
  { unfold Tree.insert in Hi. rewrite E in Hi. simpl in Hi.
    destruct OK as [_ (r & Hr & Hp)]. rewrite Hr in Hi. simpl in Hi.
    rewrite Hp, bubble_None in Hi. by injection Hi as <-. }
  destruct (insert_target _ _ _ _ _ OK Hparts Hi)
    as (leaf & σw & m & Hw & Ww & Ew & Hm & Hb & Ht & Hm1 & _).
  pose proof OK as [W _].
  pose proof (bubble_sbs _ _ _ _ Ww Hb) as S.
  assert (W1 : wf σ1).
  { destruct (insert_total tr key s1 σ OK) as (x & Hx & [Wx _] & _). congruence. }
  set (f := λ x, Node.set_key key (Node.set_size s2 x)).
  unfold Tree.insert.
  rewrite (walk_existing key s2 (length (Tree.parts_of key)) _ 0%nat _ σ1 leaf
             eq_refl Hparts Ht).
  rewrite (walk_size_indep key s1 s2 (length (Tree.parts_of key)) _ 0%nat _ σ leaf σw
             eq_refl Hparts W Hw).
  simpl. rewrite (deref_update_eq _ _ _ _ Hm1), (deref_update_eq _ _ _ _ Hm). simpl.
  rewrite ?next_update. pose proof (sbs_extends _ _ S) as E2.
  destruct S as [Hnext Hcells]. rewrite Hnext.
  apply bubble_agree; [by eapply wf_overwrite, parts_of_truthy..|].
  split; [by rewrite !next_update|].
  intros a. rewrite !deref_update. destruct (decide (leaf = a)) as [<-|Hne].
  - rewrite Hm1, Hm. simpl. split; [|done]. by destruct m.
  - specialize (Hcells a).
    destruct (deref σw a) as [y|] eqn:Hy, (deref σ1 a) as [x|] eqn:Hx; try done.
    split; [rewrite Hcells; by destruct y|].
    intros Hc.
    assert (deref σ1 a = deref σw a) as Heq; [|congruence].
    apply (bubble_frame _ _ _ _ a Ww Hb). intros Hc'. apply Hc.
    eapply chain_extends; [|eapply chain_extends; [|exact Hc']].
    + apply extends_update. by intros ? _.
    + exact E2.
Qed.

Lemma insert_last_wins_witness :
  ∃ σ σ1 σ2,
    run_inserts [("a/b", 3); ("c", 4)] t0.1 t0.2 = Some σ ∧
    Tree.insert t0.1 "a/b" 10 σ = Some σ1 ∧
    Tree.insert t0.1 "a/b" 5 σ1 = Some σ2 ∧
    Tree.insert t0.1 "a/b" 5 σ = Some σ2.
Proof.
  destruct (run_inserts_total [("a/b", 3); ("c", 4)] t0.1 t0.2 t0_ok)
    as (σ & Hrun & OK & _).
  destruct (insert_total t0.1 "a/b" 10 σ OK) as (σ1 & Hi1 & OK1 & _).
  destruct (insert_total t0.1 "a/b" 5 σ1 OK1) as (σ2 & Hi2 & _).
  exists σ, σ1, σ2. split; [exact Hrun|]. split; [exact Hi1|]. split; [exact Hi2|].
  rewrite <- (insert_last_wins t0.1 σ "a/b" 10 5 σ1 OK Hi1). exact Hi2.
Defined.

(** ** What [remove] does *)

Lemma chain_update_par σ a f p b :
  (∀ n, Node.par (f n) = Node.par n) → chain (update a f σ) p b → chain σ p b.
Proof.
  intros Hf. induction 1 as [x|x n' y Hn' _ IH]; [constructor|].
  destruct (deref_update_Some _ _ _ _ _ Hn') as (n & Hn & [->|[-> ->]]).
  - by eapply chain_up.
  - eapply chain_up; [exact Hn|]. by rewrite <- Hf.
Qed.

Lemma remove_detaches_aux tr σ node n p pn σ' :
  built tr σ → deref σ node = Some n → Node.par n = Some p → deref σ p = Some pn →
  dict_mem (Node.name n) (Node.ch pn) = true →
  Tree.remove tr node σ = Some σ' →
  (∃ pn', deref σ' p = Some pn' ∧ dict_get (Node.name n) (Node.ch pn') = None) ∧
  ∀ a m, deref σ a = Some m →
    ∃ s, deref σ' a =
           Some (Node.set_size s
                   (if decide (a = p)
                    then Node.set_ch (dict_del (Node.name n) (Node.ch m)) m else m)) ∧
         (¬ chain σ (Some p) a → s = Node.size m).
Proof.
  intros B Hn Hp Hpn Hmem. pose proof (built_tree_ok _ _ B) as [W _].
  pose proof (built_links _ _ B) as L.
  unfold Tree.remove. rewrite Hn. simpl. rewrite Hp, Hpn. simpl. rewrite Hmem.
  set (f := Node.set_ch (dict_del (Node.name n) (Node.ch pn))).
  intros Hr. unfold NodeOps.recalc in Hr.
  assert (W1 : wf (update p f σ)).
  { apply (wf_update σ p _ pn W Hpn); simpl; [done| |].
    - by eapply wf_key.
    - intros k c Hin%dict_del_elem. by eapply wf_ch. }
  pose proof (recalc_sbs _ _ _ _ W1 Hr) as S.
  assert (Hall : ∀ a m, deref σ a = Some m →
    ∃ s, deref σ' a =
           Some (Node.set_size s
                   (if decide (a = p)
                    then Node.set_ch (dict_del (Node.name n) (Node.ch m)) m else m)) ∧
         (¬ chain σ (Some p) a → s = Node.size m)).
  { intros a m Hm.
    assert (H1 : deref (update p f σ) a =
                 Some (if decide (a = p)
                       then Node.set_ch (dict_del (Node.name n) (Node.ch m)) m else m)).
    { rewrite deref_update. destruct (decide (p = a)) as [<-|].
      - rewrite decide_True by done. rewrite Hpn in *. by injection Hm as <-.
      - by rewrite decide_False by done. }
    destruct (sbs_deref _ _ _ _ S H1) as [s Hs]. exists s. split; [done|].
    intros Hc. rewrite (recalc_frame _ _ _ _ a W1 Hr) in Hs.
    - rewrite H1 in Hs. injection Hs as Hs.
      rewrite decide_False in Hs by (intros ->; apply Hc; constructor).
      by rewrite Hs.
    - intros Hc'. apply Hc. eapply chain_update_par; [|exact Hc']. done. }
  split; [|done].
  destruct (Hall p pn Hpn) as (s & Hs & _). rewrite decide_True in Hs by done.
  eexists. split; [exact Hs|]. simpl.
  rewrite dict_get_del by by eapply links_nodup. by rewrite String.eqb_refl.
Qed.

(** X4. What [remove] changes, when its guard holds: the entry with the
    node's name leaves the [ch] dictionary of the parent (the other entries
    keep their order), sizes change only on the parent and its ancestors,
    and every other field of every node object stays as it was. *)
Theorem remove_detaches tr σ node n p pn σ' :
  built tr σ → deref σ node = Some n → Node.par n = Some p → deref σ p = Some pn →
  dict_mem (Node.name n) (Node.ch pn) = true →
  Tree.remove tr node σ = Some σ' →
  (∃ pn', deref σ' p = Some pn' ∧ dict_get (Node.name n) (Node.ch pn') = None) ∧
  ∀ a m, deref σ a = Some m →
    ∃ s, deref σ' a =
           Some (Node.set_size s
                   (if decide (a = p)
                    then Node.set_ch (dict_del (Node.name n) (Node.ch m)) m else m)) ∧
         (¬ chain σ (Some p) a → s = Node.size m).
Proof. apply remove_detaches_aux. Qed.

Lemma remove_detaches_witness :
  ∃ σ σ' n,
    run_inserts [("a/b", 3); ("a/c", 4); ("d", 5)] t0.1 t0.2 = Some σ ∧
    Tree.remove t0.1 3%positive σ = Some σ' ∧
    deref σ 5%positive = Some n ∧ deref σ' 5%positive = Some n.
Proof.
  destruct (run_inserts_total [("a/b", 3); ("a/c", 4); ("d", 5)] t0.1 t0.2 t0_ok)
    as (σ & Hrun & OK & _).
  assert (B : built t0.1 σ) by (eapply built_run_inserts; [apply built_init | exact Hrun]).
  pose proof OK as [W _].
  pose proof Hrun as Hc. vm_compute in Hc. injection Hc as <-.
  destruct (remove_total t0.1 3%positive _ OK ltac:(by eexists)) as (σ' & Hrem & _).
  destruct (remove_detaches t0.1 _ 3%positive _ 2%positive _ σ' B eq_refl eq_refl eq_refl
              eq_refl Hrem) as [_ H].
  destruct (H 5%positive _ eq_refl) as (s & Hs & Hsz).
  rewrite Hsz in Hs.
  - eexists _, σ', _. split; [exact Hrun|]. split; [exact Hrem|].
    split; [reflexivity | exact Hs].
  - intros Hc%chain_le; [lia | exact W].
Defined.

(** X5. [remove] is idempotent: removing a node a second time finds its
    name gone from the parent's dictionary and changes nothing. *)
Theorem remove_twice tr σ node σ' :
  built tr σ → Tree.remove tr node σ = Some σ' → Tree.remove tr node σ' = Some σ'.
Proof.
  intros B Hr. pose proof (built_tree_ok _ _ B) as [W _].
  destruct (deref σ node) as [n|] eqn:Hn; [|by unfold Tree.remove in Hr; rewrite Hn in Hr].
  destruct (Node.par n) as [p|] eqn:Hp.
  2:{ unfold Tree.remove in Hr. rewrite Hn in Hr. simpl in Hr. rewrite Hp in Hr.
      injection Hr as <-. unfold Tree.remove. rewrite Hn. simpl. by rewrite Hp. }
  destruct (wf_par _ W _ _ _ Hn Hp) as [Hlt [pn Hpn]].
  destruct (dict_mem (Node.name n) (Node.ch pn)) eqn:Hmem.
  2:{ unfold Tree.remove in Hr. rewrite Hn in Hr. simpl in Hr. rewrite Hp, Hpn in Hr.
      simpl in Hr. rewrite Hmem in Hr. injection Hr as <-.
      unfold Tree.remove. rewrite Hn. simpl. rewrite Hp, Hpn. simpl. by rewrite Hmem. }
  destruct (remove_detaches_aux tr σ node n p pn σ' B Hn Hp Hpn Hmem Hr)
    as [(pn' & Hpn' & Hg) Hall].
  destruct (Hall node n Hn) as (s & Hs & _). rewrite decide_False in Hs by lia.
  unfold Tree.remove. rewrite Hs. simpl. rewrite Hp, Hpn'. simpl.
  unfold dict_mem. by rewrite Hg.
Qed.

Lemma remove_twice_witness :
  ∃ σ σ',
    run_inserts [("a/b", 3); ("a/c", 4)] t0.1 t0.2 = Some σ ∧
    Tree.remove t0.1 2%positive σ = Some σ' ∧
    Tree.remove t0.1 2%positive σ' = Some σ'.
Proof.
  destruct (run_inserts_total [("a/b", 3); ("a/c", 4)] t0.1 t0.2 t0_ok)
    as (σ & Hrun & OK & _).
  assert (B : built t0.1 σ) by (eapply built_run_inserts; [apply built_init | exact Hrun]).
  assert (Hex : is_Some (deref σ 2%positive)).
  { pose proof Hrun as Hc. vm_compute in Hc. injection Hc as <-. by eexists. }
  destruct (remove_total t0.1 2%positive σ OK Hex) as (σ' & Hrem & _).
  exists σ, σ'. split; [exact Hrun|]. split; [exact Hrem|].
  exact (remove_twice t0.1 σ 2%positive σ' B Hrem).
Defined.

(** ** Sizes of directories *)

(** X6. The aggregation invariant under [insert] and [remove]: as long as
    no inserted key is the path of a directory that is already in the tree,
    the size of every directory is the sum of the sizes of its children,
    after any sequence of inserts and removes. *)
Theorem directory_sizes_are_sums tr σ a n :
  built_clean tr σ → deref σ a = Some n → Node.dir n = true →
  sum_sizes σ (Node.ch n) = Some (Node.size n).
Proof. intros [H _]%built_clean_sizes Hn Hd. by apply (H a). Qed.

Lemma directory_sizes_are_sums_witness :
  ∃ σ1 σ2 σ3 n,
    Tree.insert t0.1 "a/b" 3 t0.2 = Some σ1 ∧
    Tree.insert t0.1 "a/c" 4 σ1 = Some σ2 ∧
    Tree.remove t0.1 3%positive σ2 = Some σ3 ∧
    deref σ3 1%positive = Some n ∧ Node.size n = 4 ∧
    sum_sizes σ3 (Node.ch n) = Some 4.
Proof.
  destruct (insert_total t0.1 "a/b" 3 t0.2 t0_ok) as (σ1 & H1 & OK1 & _).
  destruct (insert_total t0.1 "a/c" 4 σ1 OK1) as (σ2 & H2 & OK2 & _).
  assert (Hex : is_Some (deref σ2 3%positive)).
  { pose proof H1 as Hc. vm_compute in Hc. injection Hc as <-.
    pose proof H2 as Hc. vm_compute in Hc. injection Hc as <-. by eexists. }
  destruct (remove_total t0.1 3%positive σ2 OK2 Hex) as (σ3 & H3 & _).
  assert (B : built_clean t0.1 σ3).
  { eapply clean_remove; [|exact Hex|exact H3].
    eapply clean_insert; [|  |exact H2].
    - eapply clean_insert; [apply clean_init| |exact H1].
      intros (_ & c & m & Ht & _). vm_compute in Ht. discriminate.
    - pose proof H1 as Hc. vm_compute in Hc. injection Hc as <-.
      intros (_ & c & m & Ht & _). vm_compute in Ht. discriminate. }
  pose proof H1 as Hc. vm_compute in Hc. injection Hc as <-.
  pose proof H2 as Hc. vm_compute in Hc. injection Hc as <-.
  pose proof H3 as Hc. vm_compute in Hc. injection Hc as <-.
  eexists _, _, _, _. split; [exact H1|]. split; [exact H2|]. split; [exact H3|].
  split; [reflexivity|]. split; [reflexivity|].
  exact (directory_sizes_are_sums t0.1 _ 1%positive _ B eq_refl eq_refl).
Defined.

(** ** Further properties of the scanner *)

Lemma discover_elem cp depth : ∀ prefix q,
  q ∈ Scanner._discover cp prefix depth →
  q = prefix ∨ ∃ p, q ∈ cp p.
Proof.
  induction depth as [|d IH]; intros prefix q; simpl.
  - intros ->%list_elem_of_singleton. by left.
  - destruct (cp prefix) as [|c cs] eqn:Hcp.
    + intros ->%list_elem_of_singleton. by left.
    + intros Hin. right.
      change (q ∈ concat (map (λ x, Scanner._discover cp x d) (c :: cs))) in Hin.
      apply list_elem_of_In, in_concat in Hin as (l & Hl & Hq).
      apply in_map_iff in Hl as (x & <- & Hx).
      apply list_elem_of_In in Hq, Hx.
      destruct (IH _ _ Hq) as [->|H]; [|done].
      exists prefix. by rewrite Hcp.
Qed.

(** X7. A scan always works on at least two partitions, whatever the
    bucket's listing reports: 36 after the fallback, the discovered
    prefixes otherwise. *)
Theorem scan_prefixes_at_least_two (cp : string → list string) :
  (2 ≤ length (Scanner.scan_prefixes cp))%nat.
Proof.
  unfold Scanner.scan_prefixes.
  destruct (length (Scanner._discover cp "" 2) <=? 1)%nat eqn:E.
  - by rewrite (proj1 (split_prefix_spec _)); lia.
  - apply Nat.leb_gt in E. lia.
Qed.

(** X8. No partition of a scan is the empty prefix: when the listing
    reports only non-empty common prefixes, every prefix handed to
    [_list_prefix] is non-empty, so the bucket is never listed as a
    whole. *)
Theorem scan_prefixes_nonempty (cp : string → list string) q :
  (∀ p, "" ∉ cp p) → q ∈ Scanner.scan_prefixes cp → q ≠ "".
Proof.
  intros Hcp. unfold Scanner.scan_prefixes.
  destruct (length (Scanner._discover cp "" 2) <=? 1)%nat eqn:E.
  - unfold Scanner._split_prefix. intros Hin.
    apply list_elem_of_In, in_map_iff in Hin as (c & <- & _).
    destruct (match Scanner._discover cp "" 2 with [] => "" | p :: _ => p end); done.
  - apply Nat.leb_gt in E. intros Hin.
    destruct (discover_elem _ _ _ _ Hin) as [->|[p Hp]].
    + simpl in E, Hin. destruct (cp "") as [|c cs] eqn:H0; [simpl in E; lia|].
      exfalso. clear E.
      change ("" ∈ concat (map (λ x, Scanner._discover cp x 1) (c :: cs))) in Hin.
      apply list_elem_of_In, in_concat in Hin as (l & Hl & Hq).
      apply in_map_iff in Hl as (x & <- & Hx).
      apply list_elem_of_In in Hq, Hx.
      destruct (discover_elem _ _ _ _ Hq) as [Ex|[p Hp]].
      * subst x. apply (Hcp ""). by rewrite H0.
      * by apply (Hcp p).
    + intros ->. by apply (Hcp p).
Qed.

Lemma scan_prefixes_nonempty_witness :
  "a/x/" ∈ Scanner.scan_prefixes nested_listing ∧ "a/x/" ≠ "".
Proof.
  assert (H : "a/x/" ∈ Scanner.scan_prefixes nested_listing).
  { apply list_elem_of_In. simpl. by left. }
  split; [exact H|].
  apply (scan_prefixes_nonempty nested_listing "a/x/"); [|exact H].
  intros p Hin. apply list_elem_of_In in Hin. unfold nested_listing in Hin.
  destruct (String.eqb p ""); [|destruct (String.eqb p "a/")]; simpl in Hin;
    intuition discriminate.
Defined.

(** ** Listing one partition *)

Lemma run_inserts_app ops1 ops2 tr σ :
  run_inserts (ops1 ++ ops2) tr σ = σ1 ← run_inserts ops1 tr σ; run_inserts ops2 tr σ1.
Proof.
  unfold run_inserts. rewrite foldl_app.
  destruct (foldl _ (Some σ) ops1) as [σ1|]; [done|].
  simpl. induction ops2 as [|op ops2 IH]; [done|]. simpl. exact IH.
Qed.

(** X9. Pagination: when the service answers with a finite run of pages,
    each but the last truncated and carrying a non-empty token,
    [_list_prefix] returns after one request per page, has inserted the
    entries of all pages in order, and has reported the length of each page
    to the progress callback. *)
Theorem list_prefix_pages srv progress prefix tr σ log pages fuel :
  tree_ok tr σ → paged srv prefix None pages → (length pages ≤ fuel)%nat →
  ∃ σ',
    Scanner._list_prefix srv progress fuel prefix tr σ log =
      Some (Scanner.Done, σ',
            if progress
            then log ++ map (λ r, length (Scanner.contents_of r)) pages else log) ∧
    run_inserts (concat (map Scanner.contents_of pages)) tr σ = Some σ'.
Proof.
  unfold Scanner._list_prefix. intros OK Hp.
  assert (Hkw : ∀ tok kw, kw = match tok with
                               | Some t => if truthy t then Some t else None
                               | None => None
                               end →
    paged srv prefix kw pages → ∀ fuel σ log, tree_ok tr σ → (length pages ≤ fuel)%nat →
    ∃ σ',
      Scanner.list_loop srv progress fuel prefix tr tok σ log =
        Some (Scanner.Done, σ',
              if progress
              then log ++ map (λ r, length (Scanner.contents_of r)) pages else log) ∧
      run_inserts (concat (map Scanner.contents_of pages)) tr σ = Some σ').
  { clear. intros tok kw Hkw Hp. revert tok Hkw.
    induction Hp as [kw Hlast|kw t rest Htr Htok Ht Hp IH];
      intros tok Hkw [|fuel] σ log OK Hf; simpl in Hf; try lia; simpl; rewrite <- Hkw.
    - destruct (run_inserts_total (Scanner.contents_of (srv prefix kw)) tr σ OK)
        as (σ1 & Hr & _).
      rewrite Hr. simpl. exists σ1. rewrite app_nil_r. split; [|done].
      destruct (Scanner.IsTruncated (srv prefix kw)) as [[]|]; done.
    - destruct (run_inserts_total (Scanner.contents_of (srv prefix kw)) tr σ OK)
        as (σ1 & Hr & OK1 & _).
      rewrite Hr. simpl. rewrite Htr, Htok.
      destruct (IH (Some t) ltac:(simpl; by rewrite Ht) fuel σ1
                  (if progress
                   then log ++ [length (Scanner.contents_of (srv prefix kw))] else log)
                  OK1 ltac:(lia)) as (σ' & Hl & Hrun).
      exists σ'. rewrite Hl, run_inserts_app, Hr. simpl. split; [|done].
      destruct progress; [|done]. by rewrite <- app_assoc. }
  intros Hf. by apply (Hkw None None).
Qed.

Lemma list_prefix_pages_witness :
  ∃ σ',
    Scanner._list_prefix three_pages true 3 "a/" t0.1 t0.2 [] =
      Some (Scanner.Done, σ', [2; 1; 0]%nat) ∧
    run_inserts [("a/1", 1); ("a/2", 2); ("a/3", 3)] t0.1 t0.2 = Some σ'.
Proof.
  apply (list_prefix_pages three_pages true "a/" t0.1 t0.2 []
           [three_pages "a/" None; three_pages "a/" (Some "t1");
            three_pages "a/" (Some "t2")] 3 t0_ok).
  - apply (paged_more three_pages "a/" None "t1"); [done..|].
    apply (paged_more three_pages "a/" (Some "t1") "t2"); [done..|].
    apply (paged_last three_pages "a/" (Some "t2")). done.
  - simpl. lia.
Defined.

(** X10. A truncated page without [NextContinuationToken]: [_list_prefix]
    ends with [KeyError], after it has inserted the entries of that page
    and reported its length. *)
Theorem list_prefix_missing_token srv progress prefix tr σ log fuel :
  tree_ok tr σ →
  Scanner.IsTruncated (srv prefix None) = Some true →
  Scanner.NextContinuationToken (srv prefix None) = None →
  ∃ σ',
    Scanner._list_prefix srv progress (S fuel) prefix tr σ log =
      Some (Scanner.KeyError, σ',
            if progress
            then log ++ [length (Scanner.contents_of (srv prefix None))] else log) ∧
    run_inserts (Scanner.contents_of (srv prefix None)) tr σ = Some σ'.
Proof.
  intros OK Htr Htok. unfold Scanner._list_prefix. simpl.
  destruct (run_inserts_total (Scanner.contents_of (srv prefix None)) tr σ OK)
    as (σ1 & Hr & _).
  rewrite Hr. simpl. rewrite Htr, Htok. by exists σ1.
Qed.

Lemma list_prefix_missing_token_witness :
  ∃ σ',
    Scanner._list_prefix no_token true 1 "a/" t0.1 t0.2 [] =
      Some (Scanner.KeyError, σ', [1%nat]) ∧
    run_inserts [("a/1", 1)] t0.1 t0.2 = Some σ'.
Proof.
  exact (list_prefix_missing_token no_token true "a/" t0.1 t0.2 [] 0 t0_ok
           eq_refl eq_refl).
Defined.

(** X11. The empty continuation token: a truncated page whose token is the
    empty string makes the next request one without a token, so the same
    page is asked for again and [_list_prefix] does not return, whatever
    the number of rounds. *)
Theorem list_prefix_empty_token srv progress prefix tr σ log fuel :
  tree_ok tr σ →
  Scanner.IsTruncated (srv prefix None) = Some true →
  Scanner.NextContinuationToken (srv prefix None) = Some "" →
  Scanner._list_prefix srv progress fuel prefix tr σ log = None.
Proof.
  intros OK Htr Htok. unfold Scanner._list_prefix.
  assert (H : ∀ tok, tok = None ∨ tok = Some "" → ∀ σ log, tree_ok tr σ →
              Scanner.list_loop srv progress fuel prefix tr tok σ log = None).
  { clear σ log OK. induction fuel as [|fuel IH]; intros tok Htok' σ log OK; [done|].
    simpl.
    assert (match tok with
            | Some t => if truthy t then Some t else None
            | None => None
            end = None) as -> by by destruct Htok' as [->| ->].
    destruct (run_inserts_total (Scanner.contents_of (srv prefix None)) tr σ OK)
      as (σ1 & Hr & OK1 & _).
    rewrite Hr. simpl. rewrite Htr, Htok. apply IH; [by right | done]. }
  apply H; [by left | done].
Qed.

Lemma list_prefix_empty_token_witness :
  Scanner._list_prefix empty_token true 5 "a/" t0.1 t0.2 [] = None.
Proof.
  exact (list_prefix_empty_token empty_token true "a/" t0.1 t0.2 [] 5 t0_ok
           eq_refl eq_refl).
Defined.

(** ** Further properties of the controller *)

Lemma update_status_eq u u' :
  UI._update_status u = Some u' → u' = UI.set_status (UI.status u') u.
Proof.
  unfold UI._update_status. intros H.
  destruct (deref _ _) as [r|]; [|done]. simpl in H.
  destruct (NodeOps.count _ _) as [c|]; [|done]. simpl in H.
  injection H as <-. by destruct u.
Qed.

Lemma cancel_confirm_eq u b u' :
  UI._cancel_confirm u = Some (b, u') →
  (b = false ∧ u' = u ∧ UI._confirm_node u = None) ∨
  (b = true ∧ is_Some (UI._confirm_node u) ∧
   u' = UI.set_status (UI.status u') (UI.set_confirm_node None u)).
Proof.
  unfold UI._cancel_confirm. destruct (UI._confirm_node u) as [node|] eqn:Hc.
  - destruct (UI._update_status _) as [u1|] eqn:Hu; [|done]. simpl.
    intros [= <- <-]. right. split; [done|]. split; [by eexists|].
    by apply update_status_eq.
  - intros [= <- <-]. by left.
Qed.

Lemma refresh_eq u u' :
  UI._refresh u = Some u' →
  ∃ l, NodeOps.sorted (UI.store u) (UI.cwd u) (UI.sort_by u) = Some l ∧
       u' = UI.set_status (UI.status u')
              (UI.set_items (map fst l)
                 (UI.set_confirm_node None (UI.set_cursor_row 0 u))).
Proof.
  unfold UI._refresh. simpl.
  destruct (NodeOps.sorted _ _ _) as [l|]; [|done]. simpl.
  intros H%update_status_eq. by exists l.
Qed.

Lemma same_world_refl u : same_world u u.
Proof. done. Qed.

Lemma same_world_trans u1 u2 u3 : same_world u1 u2 → same_world u2 u3 → same_world u1 u3.
Proof. intros (? & ? & ?) (? & ? & ?). repeat split; congruence. Qed.

Lemma cancel_confirm_world u b u' : UI._cancel_confirm u = Some (b, u') → same_world u u'.
Proof. intros [(_ & -> & _)|(_ & _ & ->)]%cancel_confirm_eq; done. Qed.

Lemma refresh_world u u' : UI._refresh u = Some u' → same_world u u'.
Proof. intros (l & _ & ->)%refresh_eq. done. Qed.

Lemma refresh_sync u u' : UI._refresh u = Some u' → in_sync u'.
Proof. intros (l & Hl & ->)%refresh_eq. by exists l. Qed.

Lemma cancel_confirm_sync u b u' :
  UI._cancel_confirm u = Some (b, u') → in_sync u → in_sync u'.
Proof. intros [(_ & -> & _)|(_ & _ & ->)]%cancel_confirm_eq; done. Qed.

Lemma row_selected_world u u' :
  UI.on_data_table_row_selected u = Some u' → same_world u u'.
Proof.
  unfold UI.on_data_table_row_selected.
  destruct (UI._cancel_confirm u) as [[b u1]|] eqn:Hc; [|done]. simpl.
  pose proof (cancel_confirm_world _ _ _ Hc) as S1.
  destruct b; [by intros [= <-]|].
  destruct (UI._sel u1) as [node|]; [|by intros [= <-]].
  destruct (deref _ node) as [n|]; [|done]. simpl.
  destruct (_ && _); [|by intros [= <-]].
  intros S2%refresh_world. eapply same_world_trans; [exact S1|]. exact S2.
Qed.

Lemma go_up_world u u' : UI.action_go_up u = Some u' → same_world u u'.
Proof.
  unfold UI.action_go_up.
  destruct (UI._cancel_confirm u) as [[b u1]|] eqn:Hc; [|done]. simpl.
  pose proof (cancel_confirm_world _ _ _ Hc) as S1.
  destruct b; [by intros [= <-]|].
  destruct (deref _ _) as [c|]; [|done]. simpl.
  destruct (Node.par c) as [p|]; [|by intros [= <-]].
  destruct (UI._refresh _) as [u2|] eqn:Hr; [|done]. simpl.
  pose proof (refresh_world _ _ Hr) as S2.
  destruct (UI.find_row _ _ _ _) as [[i|]|]; [| |done]; simpl; intros [= <-];
    (eapply same_world_trans; [exact S1|]);
    destruct S2 as (? & ? & ?); done.
Qed.

Lemma delete_world u u' : UI.action_delete u = Some u' → same_world u u'.
Proof.
  unfold UI.action_delete.
  destruct (UI._cancel_confirm u) as [[b u1]|] eqn:Hc; [|done]. simpl.
  pose proof (cancel_confirm_world _ _ _ Hc) as S1.
  destruct b; [by intros [= <-]|].
  destruct (UI._sel u1) as [node|]; [|by intros [= <-]].
  destruct (deref _ node) as [n|]; [|done]. simpl.
  destruct (NodeOps.count _ _) as [cnt|]; [|done]. simpl.
  intros [= <-]. exact S1.
Qed.

Lemma sort_world u by_ u' :
  ('(cancelled, u1) ← UI._cancel_confirm u;
   if cancelled : bool then Some u1 else UI._refresh (UI.set_sort_by by_ u1)) = Some u' →
  same_world u u'.
Proof.
  destruct (UI._cancel_confirm u) as [[b u1]|] eqn:Hc; [|done]. simpl.
  pose proof (cancel_confirm_world _ _ _ Hc) as S1.
  destruct b; [by intros [= <-]|].
  intros S2%refresh_world. eapply same_world_trans; [exact S1|]. exact S2.
Qed.

Lemma press_world k u r :
  k ≠ "y" ∨ UI._confirm_node u = None → UI.press k u = Some r →
  ∃ u', r = UI.Returned u' ∧ same_world u u'.
Proof.
  intros Hk. unfold UI.press, UI.BINDINGS.
  assert (Hret : ∀ o : option UI.t, (∀ u', o = Some u' → same_world u u') →
            UI.Returned <$> o = Some r → ∃ u', r = UI.Returned u' ∧ same_world u u').
  { intros o Ho (u' & Hu & ->)%fmap_Some. exists u'. split; [done|]. by apply Ho. }
  simpl.
  destruct (String.eqb_spec k "q") as [->|_].
  { change (UI.run_action "quit" u) with (UI.Returned <$> UI.action_quit u).
    apply Hret. by intros u' [= <-]. }
  destruct (String.eqb_spec k "d") as [->|_].
  { change (UI.run_action "delete" u) with (UI.Returned <$> UI.action_delete u).
    apply Hret. apply delete_world. }
  destruct (String.eqb_spec k "s") as [->|_].
  { change (UI.run_action "sort_size" u) with (UI.Returned <$> UI.action_sort_size u).
    apply Hret. apply (sort_world u "size"). }
  destruct (String.eqb_spec k "n") as [->|_].
  { change (UI.run_action "sort_name" u) with (UI.Returned <$> UI.action_sort_name u).
    apply Hret. apply (sort_world u "name"). }
  destruct (String.eqb_spec k "backspace") as [->|_].
  { change (UI.run_action "go_up" u) with (UI.Returned <$> UI.action_go_up u).
    apply Hret. apply go_up_world. }
  destruct (String.eqb_spec k "y") as [->|_].
  { change (UI.run_action "confirm_yes" u) with (UI.action_confirm_yes u).
    destruct Hk as [?|Hc]; [done|]. unfold UI.action_confirm_yes. rewrite Hc.
    intros [= <-]. eexists. split; [done|]. apply same_world_refl. }
  destruct (String.eqb_spec k "escape") as [->|_].
  { change (UI.run_action "confirm_cancel" u)
      with (UI.Returned <$> UI.action_confirm_cancel u).
    apply Hret. intros u' Hu. unfold UI.action_confirm_cancel in Hu.
    apply fmap_Some in Hu as ([b u1] & Hc & ->). by eapply cancel_confirm_world. }
  intros [= <-]. eexists. split; [done|]. apply same_world_refl.
Qed.

(** X12. Nothing is deleted without a confirmed [y]: every key other than
    [y], the row selection, and [y] itself while no delete is pending,
    return with the tree and the client untouched: no node is removed or
    resized and no request is sent. *)
Theorem only_confirmed_yes_deletes e u r :
  e ≠ UI.Key "y" ∨ UI._confirm_node u = None →
  UI.handle e u = Some r →
  ∃ u', r = UI.Returned u' ∧ UI.store u' = UI.store u ∧ UI.s3 u' = UI.s3 u.
Proof.
  intros He Hh.
  assert (∃ u', r = UI.Returned u' ∧ same_world u u') as (u' & -> & S1 & S2 & _).
  { destruct e as [k|]; simpl in Hh.
    - apply (press_world k); [|done].
      destruct He as [He|]; [left; congruence | by right].
    - apply fmap_Some in Hh as (u' & Hu & ->). exists u'. split; [done|].
      by apply row_selected_world. }
  by exists u'.
Qed.

Lemma only_confirmed_yes_deletes_witness :
  ∃ u',
    UI.handle (UI.Key "n") pending_small = Some (UI.Returned u') ∧
    UI.store u' = UI.store pending_small ∧ UI.s3 u' = UI.s3 pending_small.
Proof.
  destruct (handle_ok (UI.Key "n") pending_small pending_small_ok) as (r & Hr & _).
  destruct (only_confirmed_yes_deletes (UI.Key "n") pending_small r) as (u' & -> & H);
    [by left | exact Hr |].
  exists u'. split; [exact Hr | exact H].
Defined.

Lemma confirm_yes_cases u r :
  UI.action_confirm_yes u = Some r →
  (UI._confirm_node u = None ∧ r = UI.Returned u) ∨
  ∃ node keys c',
    UI._confirm_node u = Some node ∧
    NodeOps.all_keys (UI.store u) node = Some keys ∧
    ((delete_loop_result keys (UI.s3 u) = (c', false) ∧
      r = UI.Raised (UI.set_s3 c' (UI.set_status (UI.StDeleting (length keys)) u))) ∨
     (delete_loop_result keys (UI.s3 u) = (c', true) ∧
      ∃ σ' u4,
        Tree.remove (UI._ftree u) node (UI.store u) = Some σ' ∧
        UI._refresh
          (UI.set_store σ'
             (UI.set_s3 c' (UI.set_status (UI.StDeleting (length keys)) u))) = Some u4 ∧
        r = UI.Returned
              (UI.set_status (UI.StDeleted (length keys))
                 match UI._items u4 with
                 | [] => u4
                 | _ => UI.set_cursor_row
                          (Nat.min (UI.cursor_row u) (length (UI._items u4) - 1)) u4
                 end))).
Proof.
  unfold UI.action_confirm_yes, delete_loop_result.
  destruct (UI._confirm_node u) as [node|]; [|intros [= <-]; by left].
  destruct (NodeOps.all_keys _ _) as [keys|] eqn:Hk; [|done]. simpl.
  destruct (UI.delete_loop _ _ _) as [c' []] eqn:Hl.
  - destruct (Tree.remove _ _ _) as [σ'|] eqn:Hrem; [|done]. simpl.
    destruct (UI._refresh _) as [u4|] eqn:Hr; [|done]. simpl.
    intros [= <-]. right. exists node, keys, c'. split; [done|]. split; [done|].
    right. split; [done|]. exists σ', u4. split; [exact Hrem|]. split; [exact Hr|done].
  - intros [= <-]. right. exists node, keys, c'. split; [done|]. split; [done|].
    by left.
Qed.

Lemma handle_sync e u r :
  in_sync u → UI.handle e u = Some r →
  in_sync (match r with UI.Returned u' | UI.Raised u' => u' end).
Proof.
  intros S. destruct e as [k|]; simpl.
  - destruct (press_cases k u) as [->|[->|[->|[->|[->|[->|[->| ->]]]]]]].
    + by intros [= <-].
    + by intros [= <-].
    + intros (u' & Hu & ->)%fmap_Some. unfold UI.action_delete in Hu.
      destruct (UI._cancel_confirm u) as [[b u1]|] eqn:Hc; [|done]. simpl in Hu.
      pose proof (cancel_confirm_sync _ _ _ Hc S) as S1.
      destruct b; [by injection Hu as <-|].
      destruct (UI._sel u1) as [node|]; [|by injection Hu as <-].
      destruct (deref _ node) as [n|]; [|done]. simpl in Hu.
      destruct (NodeOps.count _ _) as [cnt|]; [|done]. simpl in Hu.
      by injection Hu as <-.
    + intros (u' & Hu & ->)%fmap_Some. unfold UI.action_sort_size in Hu.
      destruct (UI._cancel_confirm u) as [[b u1]|] eqn:Hc; [|done]. simpl in Hu.
      pose proof (cancel_confirm_sync _ _ _ Hc S) as S1.
      destruct b; [by injection Hu as <-|]. by eapply refresh_sync.
    + intros (u' & Hu & ->)%fmap_Some. unfold UI.action_sort_name in Hu.
      destruct (UI._cancel_confirm u) as [[b u1]|] eqn:Hc; [|done]. simpl in Hu.
      pose proof (cancel_confirm_sync _ _ _ Hc S) as S1.
      destruct b; [by injection Hu as <-|]. by eapply refresh_sync.
    + intros (u' & Hu & ->)%fmap_Some. unfold UI.action_go_up in Hu.
      destruct (UI._cancel_confirm u) as [[b u1]|] eqn:Hc; [|done]. simpl in Hu.
      pose proof (cancel_confirm_sync _ _ _ Hc S) as S1.
      destruct b; [by injection Hu as <-|].
      destruct (deref _ _) as [c|]; [|done]. simpl in Hu.
      destruct (Node.par c) as [p|]; [|by injection Hu as <-].
      destruct (UI._refresh _) as [u2|] eqn:Hr; [|done]. simpl in Hu.
      pose proof (refresh_sync _ _ Hr) as S2.
      destruct (UI.find_row _ _ _ _) as [[i|]|]; [| |done]; simpl in Hu;
        by injection Hu as <-.
    + intros [[_ ->]|(node & keys & c' & _ & _ & [[_ ->]|(_ & σ' & u4 & _ & Hr & ->)])]
        %confirm_yes_cases; [done..|].
      pose proof (refresh_sync _ _ Hr) as S4.
      by destruct (UI._items u4).
    + intros (u' & Hu & ->)%fmap_Some. unfold UI.action_confirm_cancel in Hu.
      apply fmap_Some in Hu as ([b u1] & Hc & ->). by eapply cancel_confirm_sync.
  - intros (u' & Hu & ->)%fmap_Some. unfold UI.on_data_table_row_selected in Hu.
    destruct (UI._cancel_confirm u) as [[b u1]|] eqn:Hc; [|done]. simpl in Hu.
    pose proof (cancel_confirm_sync _ _ _ Hc S) as S1.
    destruct b; [by injection Hu as <-|].
    destruct (UI._sel u1) as [node|]; [|by injection Hu as <-].
    destruct (deref _ node) as [n|]; [|done]. simpl in Hu.
    destruct (_ && _); [|by injection Hu as <-]. by eapply refresh_sync.
Qed.

Lemma session_sync u : session u → in_sync u.
Proof.
  induction 1 as [tr σ c u B Hm|u row _ IH|u e u' _ IH He|u e u' _ IH He].
  - by eapply refresh_sync.
  - exact IH.
  - exact (handle_sync e u _ IH He).
  - exact (handle_sync e u _ IH He).
Qed.

(** X13. The table never goes stale: in every state of a session the rows
    are the children of the current directory, in the order that [sorted]
    gives for the current criterion on the current tree. *)
Theorem session_table_in_sync u :
  session u →
  ∃ l, NodeOps.sorted (UI.store u) (UI.cwd u) (UI.sort_by u) = Some l ∧
       UI._items u = map fst l.
Proof. apply session_sync. Qed.

Lemma session_pending_small : session pending_small.
Proof.
  assert (B : built t0.1 (result_state
            (UI.Returned <$> (UI.init t0.1 accept_all <$>
               run_inserts [("a/b/c.txt", 300); ("a/d.txt", 100)] t0.1 t0.2))).(UI.store)).
  { destruct (run_inserts_total [("a/b/c.txt", 300); ("a/d.txt", 100)] t0.1 t0.2 t0_ok)
      as (σ & Hrun & _).
    rewrite Hrun. simpl. eapply built_run_inserts; [apply built_init | exact Hrun]. }
  eapply (session_returned _ (UI.Key "d")).
  - eapply (session_mount t0.1 _ accept_all); [exact B|]. vm_compute. reflexivity.
  - vm_compute. reflexivity.
Qed.

Lemma session_table_in_sync_witness :
  ∃ l, NodeOps.sorted (UI.store pending_small) 1%positive "size" = Some l ∧
       map fst l = [2%positive].
Proof.
  destruct (session_table_in_sync pending_small session_pending_small) as (l & Hl & Hi).
  exists l. split; [exact Hl|]. rewrite <- Hi. reflexivity.
Defined.

Lemma handle_built e u r :
  UI_ok u → built (UI._ftree u) (UI.store u) → UI.handle e u = Some r →
  built (UI._ftree (match r with UI.Returned u' | UI.Raised u' => u' end))
        (UI.store (match r with UI.Returned u' | UI.Raised u' => u' end)).
Proof.
  intros OK B Hh.
  assert (Hw : (∃ u', r = UI.Returned u' ∧ same_world u u') →
               built (UI._ftree (match r with UI.Returned u' | UI.Raised u' => u' end))
                     (UI.store (match r with UI.Returned u' | UI.Raised u' => u' end))).
  { intros (u' & -> & S1 & _ & S3). by rewrite S1, S3. }
  destruct e as [k|]; simpl in Hh.
  - destruct (String.eqb_spec k "y") as [->|Hne].
    + change (UI.press "y" u) with (UI.action_confirm_yes u) in Hh.
      apply confirm_yes_cases in Hh
        as [[_ ->]|(node & keys & c' & Hc & _ & [[_ ->]|(_ & σ' & u4 & Hrem & Hr & ->)])];
        [done..|].
      apply refresh_eq in Hr as (l & _ & E).
      assert (UI.store u4 = σ' ∧ UI._ftree u4 = UI._ftree u) as [E1 E2]
        by (rewrite E; done).
      assert (Hb : built (UI._ftree u) σ').
      { eapply built_remove; [exact B| |exact Hrem].
        by apply (proj1 (proj2 (proj2 OK))). }
      destruct (UI._items u4); simpl; by rewrite E1, E2.
    + apply Hw. apply (press_world k); [by left | done].
  - apply Hw. apply fmap_Some in Hh as (u' & Hu & ->). exists u'. split; [done|].
    by apply row_selected_world.
Qed.

Lemma session_built u : session u → built (UI._ftree u) (UI.store u).
Proof.
  induction 1 as [tr σ c u B Hm|u row S IH|u e u' S IH He|u e u' S IH He].
  - apply refresh_world in Hm as (-> & _ & ->). exact B.
  - exact IH.
  - exact (handle_built e u _ (session_ok _ S) IH He).
  - exact (handle_built e u _ (session_ok _ S) IH He).
Qed.

(** ** The rows of the table are the children *)

Lemma values_fst σ d c : NodeOps.values σ d = Some c → map fst c = dict_values d.
Proof.
  unfold NodeOps.values. revert c.
  induction (dict_values d) as [|a l IH]; intros c; simpl.
  - by intros [= <-].
  - destruct (deref σ a) as [m|]; [|done]. simpl.
    destruct (mapM _ l) as [c'|]; [|done]. simpl.
    intros [= <-]. simpl. f_equal. by apply IH.
Qed.

Lemma sorted_children σ self by_ l :
  NodeOps.sorted σ self by_ = Some l →
  ∃ n, deref σ self = Some n ∧ map fst l ≡ₚ dict_values (Node.ch n).
Proof.
  unfold NodeOps.sorted. destruct (deref σ self) as [n|]; [|done]. simpl.
  destruct (NodeOps.values σ (Node.ch n)) as [c|] eqn:Hc; [|done]. simpl.
  intros [= <-]. exists n. split; [done|].
  rewrite <- (values_fst _ _ _ Hc).
  change (fst <$> py_sort key_lt (NodeOps.sort_lambda by_) (by_ =? "size")%string c
            ≡ₚ fst <$> c).
  by rewrite py_sort_perm.
Qed.

Lemma links_values_nodup σ a n :
  links σ → deref σ a = Some n → NoDup (dict_values (Node.ch n)).
Proof.
  intros L Hn.
  set (f := λ c : addr, match deref σ c with Some m => Node.name m | None => "" end).
  apply (NoDup_fmap_1 f).
  assert (E : f <$> dict_values (Node.ch n) = map fst (Node.ch n)).
  { assert (H : ∀ k c, (k, c) ∈ Node.ch n → f c = k).
    { intros k c Hin. destruct (links_child _ L _ _ _ _ Hn Hin) as (m & Hm & _ & <-).
      unfold f. by rewrite Hm. }
    unfold dict_values. induction (Node.ch n) as [|[k c] d IH]; [done|].
    simpl. f_equal.
    - apply H. by left.
    - apply IH. intros k' c' Hin. apply H. by right. }
  rewrite E. by eapply links_nodup.
Qed.

Lemma dict_values_elem_inv {V} (d : dict V) v : v ∈ dict_values d → ∃ k, (k, v) ∈ d.
Proof.
  unfold dict_values. intros Hin. apply list_elem_of_In, in_map_iff in Hin as ([k v'] & <- & Hin).
  exists k. by apply list_elem_of_In.
Qed.

(** The rows that [sorted] gives are the children, each once, and each
    knows its parent and stands in the dictionary under its name. *)
Lemma sorted_rows σ self by_ l :
  links σ → NodeOps.sorted σ self by_ = Some l →
  ∃ n, deref σ self = Some n ∧ NoDup (map fst l) ∧
       ∀ a, a ∈ map fst l →
         ∃ m, deref σ a = Some m ∧ Node.par m = Some self ∧ (Node.name m, a) ∈ Node.ch n.
Proof.
  intros L (n & Hn & Hp)%sorted_children. exists n. split; [done|]. split.
  - rewrite Hp. by eapply links_values_nodup.
  - intros a Ha. rewrite Hp in Ha. apply dict_values_elem_inv in Ha as [k Hin].
    destruct (links_child _ L _ _ _ _ Hn Hin) as (m & Hm & Hpar & <-). eauto.
Qed.

(** ** A removed node is nobody's child *)

Lemma dict_elem_get {V} k (v : V) d : (k, v) ∈ d → is_Some (dict_get k d).
Proof.
  intros Hin. destruct (dict_get k d) eqn:E; [by eexists|].
  apply dict_get_None in E. exfalso. apply E.
  apply list_elem_of_In, in_map_iff. exists (k, v). split; [done|]. by apply list_elem_of_In.
Qed.

Lemma removed_not_child tr σ node σ' a m k :
  built tr σ → is_Some (deref σ node) → Tree.remove tr node σ = Some σ' →
  deref σ' a = Some m → (k, node) ∉ Node.ch m.
Proof.
  intros B [n Hn] Hr Hm Hin. pose proof (built_tree_ok _ _ B) as [W _].
  pose proof (built_links _ _ B) as L.
  assert (Hnot : ∀ m0, deref σ a = Some m0 → (k, node) ∈ Node.ch m0 →
                 Node.par n = Some a ∧ Node.name n = k).
  { intros m0 Hm0 Hin0. destruct (links_child _ L _ _ _ _ Hm0 Hin0) as (x & Hx & ? & ?).
    assert (x = n) as -> by congruence. done. }
  destruct (Node.par n) as [p|] eqn:Hp.
  2:{ unfold Tree.remove in Hr. rewrite Hn in Hr. simpl in Hr. rewrite Hp in Hr.
      injection Hr as <-. by destruct (Hnot m Hm Hin). }
  destruct (wf_par _ W _ _ _ Hn Hp) as [Hlt [pn Hpn]].
  destruct (dict_mem (Node.name n) (Node.ch pn)) eqn:Hmem.
  2:{ unfold Tree.remove in Hr. rewrite Hn in Hr. simpl in Hr. rewrite Hp, Hpn in Hr.
      simpl in Hr. rewrite Hmem in Hr. injection Hr as <-.
      destruct (Hnot m Hm Hin) as [[= Ea] Ek]. subst a k.
      assert (m = pn) as -> by congruence.
      unfold dict_mem in Hmem. destruct (dict_elem_get _ _ _ Hin) as [x Hx].
      by rewrite Hx in Hmem. }
  destruct (remove_detaches_aux tr σ node n p pn σ' B Hn Hp Hpn Hmem Hr) as [_ Hall].
  destruct (deref σ a) as [m0|] eqn:Hm0.
  - destruct (Hall a m0 Hm0) as (s & Hs & _). rewrite Hm in Hs. injection Hs as ->.
    simpl in Hin. destruct (decide (a = p)) as [->|Hne]; simpl in Hin.
    + rewrite Hpn in Hm0. injection Hm0 as <-.
      pose proof (dict_del_elem _ _ _ Hin) as Hin0.
      destruct (Hnot pn eq_refl Hin0) as [_ Ek]. subst k.
      destruct (dict_elem_get _ _ _ Hin) as [x Hx].
      rewrite dict_get_del, String.eqb_refl in Hx by by eapply links_nodup. done.
    + destruct (Hnot m0 eq_refl Hin) as [[= Ea] _]. by subst a.
  - destruct (remove_total tr node σ (built_tree_ok _ _ B) (mk_is_Some _ _ Hn))
      as (σ1 & Hr1 & [W' _] & E').
    assert (σ1 = σ') as -> by congruence.
    assert (Hd : (a < next σ')%positive) by by eapply wf_dom.
    unfold Tree.remove in Hr. rewrite Hn in Hr. simpl in Hr. rewrite Hp, Hpn in Hr.
    simpl in Hr. rewrite Hmem in Hr.
    apply recalc_sbs in Hr as [Hnx Hc].
    2:{ apply (wf_update σ p _ pn W Hpn); simpl; [done| |].
        - intros Hd'. exact (wf_key _ W _ _ Hpn Hd').
        - intros k' c Hin'%dict_del_elem. exact (wf_ch _ W _ _ _ _ Hpn Hin'). }
    specialize (Hc a). rewrite deref_update, Hm in Hc.
    destruct (decide (p = a)) as [<-|]; [congruence|]. by rewrite Hm0 in Hc.
Qed.

(** ** The confirmed delete *)

Lemma cancel_confirm_row u b u' :
  UI._cancel_confirm u = Some (b, u') → pending_row u → pending_row u'.
Proof. intros [(_ & -> & _)|(_ & _ & ->)]%cancel_confirm_eq; done. Qed.

Lemma refresh_row u u' : UI._refresh u = Some u' → pending_row u'.
Proof. intros (l & _ & ->)%refresh_eq. done. Qed.

Lemma handle_row e u r :
  pending_row u → UI.handle e u = Some r →
  pending_row (match r with UI.Returned u' | UI.Raised u' => u' end).
Proof.
  intros S. destruct e as [k|]; simpl.
  - destruct (press_cases k u) as [->|[->|[->|[->|[->|[->|[->| ->]]]]]]].
    + by intros [= <-].
    + by intros [= <-].
    + intros (u' & Hu & ->)%fmap_Some. unfold UI.action_delete in Hu.
      destruct (UI._cancel_confirm u) as [[b u1]|] eqn:Hc; [|done]. simpl in Hu.
      pose proof (cancel_confirm_row _ _ _ Hc S) as S1.
      destruct b; [by injection Hu as <-|].
      destruct (UI._sel u1) as [node|] eqn:Hsel; [|by injection Hu as <-].
      destruct (deref _ node) as [n|]; [|done]. simpl in Hu.
      destruct (NodeOps.count _ _) as [cnt|]; [|done]. simpl in Hu.
      injection Hu as <-. intros node' [= <-]. simpl.
      by eapply list_elem_of_lookup_2.
    + intros (u' & Hu & ->)%fmap_Some. unfold UI.action_sort_size in Hu.
      destruct (UI._cancel_confirm u) as [[b u1]|] eqn:Hc; [|done]. simpl in Hu.
      pose proof (cancel_confirm_row _ _ _ Hc S) as S1.
      destruct b; [by injection Hu as <-|]. by eapply refresh_row.
    + intros (u' & Hu & ->)%fmap_Some. unfold UI.action_sort_name in Hu.
      destruct (UI._cancel_confirm u) as [[b u1]|] eqn:Hc; [|done]. simpl in Hu.
      pose proof (cancel_confirm_row _ _ _ Hc S) as S1.
      destruct b; [by injection Hu as <-|]. by eapply refresh_row.
    + intros (u' & Hu & ->)%fmap_Some. unfold UI.action_go_up in Hu.
      destruct (UI._cancel_confirm u) as [[b u1]|] eqn:Hc; [|done]. simpl in Hu.
      pose proof (cancel_confirm_row _ _ _ Hc S) as S1.
      destruct b; [by injection Hu as <-|].
      destruct (deref _ _) as [c|]; [|done]. simpl in Hu.
      destruct (Node.par c) as [p|]; [|by injection Hu as <-].
      destruct (UI._refresh _) as [u2|] eqn:Hr; [|done]. simpl in Hu.
      pose proof (refresh_row _ _ Hr) as S2.
      destruct (UI.find_row _ _ _ _) as [[i|]|]; [| |done]; simpl in Hu;
        by injection Hu as <-.
    + intros [[_ ->]|(node & keys & c' & _ & _ & [[_ ->]|(_ & σ' & u4 & _ & Hr & ->)])]
        %confirm_yes_cases; [done..|].
      pose proof (refresh_row _ _ Hr) as S4.
      by destruct (UI._items u4).
    + intros (u' & Hu & ->)%fmap_Some. unfold UI.action_confirm_cancel in Hu.
      apply fmap_Some in Hu as ([b u1] & Hc & ->). by eapply cancel_confirm_row.
  - intros (u' & Hu & ->)%fmap_Some. unfold UI.on_data_table_row_selected in Hu.
    destruct (UI._cancel_confirm u) as [[b u1]|] eqn:Hc; [|done]. simpl in Hu.
    pose proof (cancel_confirm_row _ _ _ Hc S) as S1.
    destruct b; [by injection Hu as <-|].
    destruct (UI._sel u1) as [node|]; [|by injection Hu as <-].
    destruct (deref _ node) as [n|]; [|done]. simpl in Hu.
    destruct (_ && _); [|by injection Hu as <-]. by eapply refresh_row.
Qed.

(** In a session a delete is only ever pending for a row of the table. *)
Lemma session_pending_row u : session u → pending_row u.
Proof.
  induction 1 as [tr σ c u B Hm|u row _ IH|u e u' _ IH He|u e u' _ IH He].
  - by eapply refresh_row.
  - exact IH.
  - exact (handle_row e u _ IH He).
  - exact (handle_row e u _ IH He).
Qed.

(** The node of a pending delete is a child of the current directory. *)
Lemma session_pending_child u node :
  session u → UI._confirm_node u = Some node →
  ∃ n, deref (UI.store u) node = Some n ∧ Node.par n = Some (UI.cwd u).
Proof.
  intros S Hc. destruct (session_sync _ S) as (l & Hl & Hi).
  pose proof (session_pending_row _ S _ Hc) as Hin. rewrite Hi in Hin.
  destruct (sorted_rows _ _ _ _ (built_links _ _ (session_built _ S)) Hl)
    as (cn & _ & _ & Hrows).
  destruct (Hrows _ Hin) as (m & Hm & Hp & _). eauto.
Qed.

(** After [remove], the node and what lies below it are out of the tree:
    no object that the root reaches has the node on its way up. *)
Lemma removed_out_of_tree tr σ node n p σ' :
  built tr σ → deref σ node = Some n → Node.par n = Some p →
  Tree.remove tr node σ = Some σ' →
  ∀ x, in_tree tr σ' x → ¬ chain σ' (Some x) node.
Proof.
  intros B Hn Hp Hr.
  assert (B' : built tr σ') by (eapply built_remove; [exact B|by eexists|exact Hr]).
  pose proof (built_tree_ok _ _ B) as [_ (r0 & Hr0 & Hp0)].
  pose proof (built_tree_ok _ _ B') as [W' (r & Hroot & Hrp)].
  pose proof (built_links _ _ B') as L'.
  assert (Hne : node ≠ Tree._root tr) by (intros ->; congruence).
  induction 1 as [|a m k c Ha IH Hm Hin].
  - intros [E|(m & Hm & Hc)]%chain_inv; [done|].
    assert (m = r) as -> by congruence. rewrite Hrp in Hc. by destruct (chain_None _ _ Hc).
  - intros [E|(mc & Hmc & Hc)]%chain_inv.
    + subst c. by eapply (removed_not_child tr σ node σ' a m k B (mk_is_Some _ _ Hn) Hr Hm).
    + destruct (links_child _ L' _ _ _ _ Hm Hin) as (mc' & Hmc' & Hpar & _).
      assert (mc' = mc) as -> by congruence. rewrite Hpar in Hc. by apply IH.
Qed.

Lemma session_pending_beside : session pending_beside.
Proof.
  assert (B : built t0.1 (result_state
            (UI.Returned <$> (UI.init t0.1 accept_all <$>
               run_inserts [("a/b/c.txt", 300); ("a/d.txt", 100); ("e.txt", 7)]
                 t0.1 t0.2))).(UI.store)).
  { destruct (run_inserts_total [("a/b/c.txt", 300); ("a/d.txt", 100); ("e.txt", 7)]
                t0.1 t0.2 t0_ok) as (σ & Hrun & _).
    rewrite Hrun. simpl. eapply built_run_inserts; [apply built_init | exact Hrun]. }
  eapply (session_returned _ (UI.Key "d")).
  - eapply (session_mount t0.1 _ accept_all); [exact B|]. vm_compute. reflexivity.
  - vm_compute. reflexivity.
Qed.

Lemma session_pending_refused : session pending_refused.
Proof.
  assert (B : built t0.1 (result_state
            (UI.Returned <$> (UI.init t0.1 refuse_all <$>
               run_inserts [("a/b/c.txt", 300); ("a/d.txt", 100)] t0.1 t0.2))).(UI.store)).
  { destruct (run_inserts_total [("a/b/c.txt", 300); ("a/d.txt", 100)] t0.1 t0.2 t0_ok)
      as (σ & Hrun & _).
    rewrite Hrun. simpl. eapply built_run_inserts; [apply built_init | exact Hrun]. }
  eapply (session_returned _ (UI.Key "d")).
  - eapply (session_mount t0.1 _ refuse_all); [exact B|]. vm_compute. reflexivity.
  - vm_compute. reflexivity.
Qed.

(** C2, as the code has it.  In every state of a session with a delete
    pending: the node is removed from the tree once, after the last batch
    has succeeded; the node is then the child of no object, and neither the
    node nor anything below it (so none of the leaves whose keys were
    deleted) is reached from the root any more.  When a batch is refused,
    the batches after it are not sent and the store is the one from before
    the delete, so the leaves of the batches that did succeed are still in
    the tree. *)
Theorem confirm_yes_removes_after_all_batches u node :
  session u → UI._confirm_node u = Some node →
  ∃ keys,
    NodeOps.all_keys (UI.store u) node = Some keys ∧
    ((∀ j b, batches keys !! j = Some b →
             accepts (UI.s3 u) (length (requests (UI.s3 u)) + j) b = true) →
     ∃ σ' u',
       Tree.remove (UI._ftree u) node (UI.store u) = Some σ' ∧
       UI.action_confirm_yes u = Some (UI.Returned u') ∧
       UI.store u' = σ' ∧
       requests (UI.s3 u') =
         requests (UI.s3 u) ++ map (λ b, (b, true)) (batches keys) ∧
       (∀ a m k, deref σ' a = Some m → (k, node) ∉ Node.ch m) ∧
       (∀ x, in_tree (UI._ftree u) σ' x → ¬ chain σ' (Some x) node) ∧
       node ∉ UI._items u') ∧
    (∀ pre b post,
       batches keys = pre ++ b :: post →
       (∀ j b', pre !! j = Some b' →
                accepts (UI.s3 u) (length (requests (UI.s3 u)) + j) b' = true) →
       accepts (UI.s3 u) (length (requests (UI.s3 u)) + length pre) b = false →
       ∃ u',
         UI.action_confirm_yes u = Some (UI.Raised u') ∧
         UI.store u' = UI.store u ∧
         UI._confirm_node u' = Some node ∧
         requests (UI.s3 u') =
           requests (UI.s3 u) ++ map (λ b', (b', true)) pre ++ [(b, false)]).
Proof.
  intros S Hc. pose proof (session_ok _ S) as OK.
  pose proof (session_built _ S) as B.
  pose proof OK as ([W _] & _ & Hn & _).
  destruct (session_pending_child _ _ S Hc) as (n & Hnode & Hpar).
  destruct (count_all_keys _ _ _ W Hnode) as (keys & Hk & _).
  exists keys. split; [done|]. split.
  - intros Hacc.
    destruct (confirm_yes_success u node keys _ OK Hc Hk (send_all _ _ Hacc))
      as (σ' & u' & Hrem & Hyes & Hst & Hs3 & _).
    exists σ', u'. split; [done|]. split; [done|]. split; [done|].
    split; [by rewrite Hs3|].
    assert (Hchild : ∀ a m k, deref σ' a = Some m → (k, node) ∉ Node.ch m).
    { intros a m k. by apply (removed_not_child _ _ _ _ a m k B (mk_is_Some _ _ Hnode) Hrem). }
    split; [exact Hchild|]. split; [by eapply removed_out_of_tree|].
    assert (S' : session u') by (eapply (session_returned u (UI.Key "y")); done).
    destruct (session_sync _ S') as (l & Hl & Hi). rewrite Hi. intros Hin.
    destruct (sorted_rows _ _ _ _ (built_links _ _ (session_built _ S')) Hl)
      as (cn & Hcn & _ & Hrows).
    destruct (Hrows _ Hin) as (m & _ & _ & Hin'). rewrite Hst in Hcn.
    by apply (Hchild _ _ _ Hcn Hin').
  - intros pre b post Hb Hpre Hfail.
    pose proof (send_fail pre b post _ Hpre Hfail) as Hs. rewrite <- Hb in Hs.
    eexists. split; [by eapply confirm_yes_failure|]. done.
Qed.

Lemma confirm_yes_removes_after_all_batches_witness :
  (∃ u',
     UI._confirm_node pending_beside = Some 2%positive ∧
     NodeOps.all_keys (UI.store pending_beside) 1%positive =
       Some ["a/b/c.txt"; "a/d.txt"; "e.txt"] ∧
     UI.action_confirm_yes pending_beside = Some (UI.Returned u') ∧
     requests (UI.s3 u') = [(["a/b/c.txt"; "a/d.txt"], true)] ∧
     NodeOps.all_keys (UI.store u') 1%positive = Some ["e.txt"] ∧
     (∀ x, in_tree t0.1 (UI.store u') x → ¬ chain (UI.store u') (Some x) 2%positive) ∧
     2%positive ∉ UI._items u') ∧
  (∃ u',
     UI._confirm_node pending_refused = Some 2%positive ∧
     UI.action_confirm_yes pending_refused = Some (UI.Raised u') ∧
     UI.store u' = UI.store pending_refused ∧
     requests (UI.s3 u') = [(["a/b/c.txt"; "a/d.txt"], false)]).
Proof.
  split.
  - destruct (confirm_yes_removes_after_all_batches pending_beside 2%positive
                session_pending_beside) as (keys & Hk & Hok & _).
    { vm_compute. reflexivity. }
    vm_compute in Hk. injection Hk as <-.
    destruct Hok as (σ' & u' & Hrem & Hyes & Hst & Hreq & _ & Hout & Hrow).
    { intros j b _. reflexivity. }
    exists u'. split; [vm_compute; reflexivity|]. split; [vm_compute; reflexivity|].
    split; [exact Hyes|]. split; [rewrite Hreq; reflexivity|].
    rewrite Hst. split; [|split; [exact Hout | exact Hrow]].
    vm_compute in Hrem. injection Hrem as <-. vm_compute. reflexivity.
  - destruct (confirm_yes_removes_after_all_batches pending_refused 2%positive
                session_pending_refused) as (keys & Hk & _ & Hfail).
    { vm_compute. reflexivity. }
    vm_compute in Hk. injection Hk as <-.
    destruct (Hfail [] ["a/b/c.txt"; "a/d.txt"] []) as (u' & Hyes & Hst & _ & Hreq).
    + reflexivity.
    + intros j b' Hj. discriminate.
    + reflexivity.
    + exists u'. split; [vm_compute; reflexivity|]. split; [exact Hyes|].
      split; [exact Hst|]. rewrite Hreq. reflexivity.
Defined.

(** ** Entering a directory and going back *)

Lemma dict_key_unique {V} (d : dict V) k a b :
  NoDup (map fst d) → (k, a) ∈ d → (k, b) ∈ d → a = b.
Proof.
  induction d as [|[k0 v0] d IH]; simpl; [by intros _ ?%elem_of_nil|].
  intros Hnd Ha Hb. apply NoDup_cons in Hnd as [Hnot Hnd].
  assert (Hk : ∀ v, (k0, v) ∈ d → False).
  { intros v Hin. apply Hnot. apply list_elem_of_In, in_map_iff.
    exists (k0, v). split; [done|]. by apply list_elem_of_In. }
  apply elem_of_cons in Ha as [Ea|Ha]; apply elem_of_cons in Hb as [Eb|Hb].
  - congruence.
  - injection Ea as -> ->. by destruct (Hk _ Hb).
  - injection Eb as -> ->. by destruct (Hk _ Ha).
  - by apply IH.
Qed.

(** The loop of [action_go_up] stops on the first row with the name; when
    no row before [r] has it, that row is [r]. *)
Lemma find_row_first σ nm : ∀ items i r node n,
  items !! r = Some node → deref σ node = Some n → Node.name n = nm →
  (∀ j a, (j < r)%nat → items !! j = Some a →
          ∃ m, deref σ a = Some m ∧ Node.name m ≠ nm) →
  UI.find_row σ nm i items = Some (Some (i + r)%nat).
Proof.
  induction items as [|a rest IH]; intros i r node n Hr Hn Hnm Hbefore; [done|].
  destruct r as [|r]; simpl in *.
  - injection Hr as ->. rewrite Hn. simpl. rewrite Hnm, String.eqb_refl.
    by rewrite Nat.add_0_r.
  - destruct (Hbefore 0%nat a ltac:(lia) eq_refl) as (m & Hm & Hne).
    rewrite Hm. simpl. apply String.eqb_neq in Hne. rewrite Hne.
    rewrite (IH (S i) r node n Hr Hn Hnm).
    + do 2 f_equal. lia.
    + intros j b Hj Hb. apply (Hbefore (S j) b); [lia | done].
Qed.

(** X14. Enter, then back: in a session with no delete pending, selecting
    the row of a non-empty directory makes it the current directory with
    the cursor on the first row, and backspace then returns to the
    directory left, with the same rows and the cursor on the row of the
    directory that was entered; the tree is untouched. *)
Theorem enter_then_back u node n :
  session u → UI._confirm_node u = None → UI._sel u = Some node →
  deref (UI.store u) node = Some n → Node.dir n = true → Node.ch n ≠ [] →
  ∃ u1 u2,
    UI.on_data_table_row_selected u = Some u1 ∧
    UI.cwd u1 = node ∧ UI.cursor_row u1 = 0%nat ∧
    UI.action_go_up u1 = Some u2 ∧
    UI.cwd u2 = UI.cwd u ∧ UI._items u2 = UI._items u ∧
    UI.cursor_row u2 = UI.cursor_row u ∧ UI.store u2 = UI.store u.
Proof.
  intros S Hc Hsel Hn Hdir Hch.
  pose proof (session_ok _ S) as OK. pose proof OK as (TOK & Hcwd & _).
  pose proof (built_links _ _ (session_built _ S)) as L.
  destruct (session_sync _ S) as (l & Hl & Hi).
  assert (Hin : node ∈ map fst l).
  { rewrite <- Hi. by eapply list_elem_of_lookup_2. }
  destruct (sorted_rows _ _ _ _ L Hl) as (cn & Hcn & Hnd & Hrows).
  destruct (Hrows _ Hin) as (n' & Hn' & Hpar & Hentry).
  assert (n' = n) as -> by congruence.
  (* entering *)
  destruct (refresh_total (UI.set_cwd node u) TOK (mk_is_Some _ _ Hn))
    as (u1 & Hr1 & _).
  pose proof Hr1 as (l1 & Hl1 & E1)%refresh_eq.
  assert (Hsel1 : UI.on_data_table_row_selected u = Some u1).
  { unfold UI.on_data_table_row_selected, UI._cancel_confirm. rewrite Hc. simpl.
    rewrite Hsel, Hn. simpl. rewrite Hdir. simpl.
    rewrite bool_decide_eq_false_2 by done. exact Hr1. }
  assert (F1 : UI.store u1 = UI.store u ∧ UI._ftree u1 = UI._ftree u ∧
               UI.cwd u1 = node ∧ UI.sort_by u1 = UI.sort_by u ∧
               UI._confirm_node u1 = None ∧ UI.cursor_row u1 = 0%nat)
    by (rewrite E1; done).
  destruct F1 as (Fs & Ft & Fc & Fb & Fp & Fr).
  (* going back *)
  assert (TOK1 : tree_ok (UI._ftree (UI.set_cwd (UI.cwd u) u1))
                         (UI.store (UI.set_cwd (UI.cwd u) u1))).
  { simpl. by rewrite Fs, Ft. }
  destruct (refresh_total (UI.set_cwd (UI.cwd u) u1) TOK1) as (u2 & Hr2 & _).
  { simpl. by rewrite Fs. }
  pose proof Hr2 as (l2 & Hl2 & E2)%refresh_eq. simpl in Hl2.
  rewrite Fs, Fb, Hl in Hl2. injection Hl2 as <-.
  assert (F2 : UI.store u2 = UI.store u ∧ UI.cwd u2 = UI.cwd u ∧
               UI._items u2 = UI._items u).
  { rewrite E2. simpl. by rewrite Fs, Hi. }
  destruct F2 as (Gs & Gc & Gi).
  assert (Hfind : UI.find_row (UI.store u2) (Node.name n) 0 (UI._items u2) =
                  Some (Some (UI.cursor_row u))).
  { rewrite Gs, Gi.
    apply (find_row_first _ _ _ 0%nat (UI.cursor_row u) node n Hsel Hn eq_refl).
    intros j a Hj Ha.
    assert (Ha' : a ∈ map fst l).
    { rewrite <- Hi. by eapply list_elem_of_lookup_2. }
    destruct (Hrows _ Ha') as (m & Hm & _ & Hentry').
    exists m. split; [done|]. intros Hnm. rewrite Hnm in Hentry'.
    assert (a = node) as ->
      by exact (dict_key_unique _ _ _ _ (links_nodup _ L _ _ Hcn) Hentry' Hentry).
    unfold UI._sel in Hsel. rewrite Hi in Ha, Hsel.
    pose proof (NoDup_lookup _ _ _ _ Hnd Ha Hsel). lia. }
  exists u1, (UI.set_cursor_row (UI.cursor_row u) u2).
  split; [exact Hsel1|]. split; [exact Fc|]. split; [exact Fr|].
  split; [|done].
  unfold UI.action_go_up, UI._cancel_confirm. rewrite Fp. simpl.
  rewrite Fs, Fc, Hn. simpl. rewrite Hpar, Hr2. simpl. by rewrite Hfind.
Qed.

Lemma session_browsing_small :
  session (result_state (UI.handle (UI.Key "escape") pending_small)).
Proof.
  eapply (session_returned _ (UI.Key "escape")); [apply session_pending_small|].
  vm_compute. reflexivity.
Qed.

Lemma enter_then_back_witness :
  ∃ u1 u2,
    UI.on_data_table_row_selected
      (result_state (UI.handle (UI.Key "escape") pending_small)) = Some u1 ∧
    UI.cwd u1 = 2%positive ∧
    UI.action_go_up u1 = Some u2 ∧
    UI.cwd u2 = 1%positive ∧ UI.cursor_row u2 = 0%nat.
Proof.
  destruct (enter_then_back (result_state (UI.handle (UI.Key "escape") pending_small))
              2%positive
              (Node.mk "a" true 400 "" [("b", 3%positive); ("d.txt", 5%positive)]
                 (Some 1%positive))
              session_browsing_small)
    as (u1 & u2 & H1 & Hc1 & _ & H2 & Hc2 & _ & Hr2 & _).
  - vm_compute. reflexivity.
  - vm_compute. reflexivity.
  - vm_compute. reflexivity.
  - reflexivity.
  - discriminate.
  - exists u1, u2. split; [exact H1|]. split; [exact Hc1|]. split; [exact H2|].
    split; [exact Hc2 | exact Hr2].
Defined.

(** X15. After a confirmed delete that went through, the cursor is on a
    row of the new table whenever the table has one: it stays where it was,
    or moves up to the last row; on an empty table it is on row 0.  No
    delete is pending any more. *)
Theorem confirmed_delete_cursor u node u' :
  UI._confirm_node u = Some node →
  UI.action_confirm_yes u = Some (UI.Returned u') →
  UI._confirm_node u' = None ∧
  ((UI._items u' = [] ∧ UI.cursor_row u' = 0%nat) ∨
   ((UI.cursor_row u' < length (UI._items u'))%nat ∧
    UI.cursor_row u' = Nat.min (UI.cursor_row u) (length (UI._items u') - 1))).
Proof.
  intros Hc [[Hn _]|(x & keys & c' & _ & _ & [[_ [=]]|(_ & σ' & u4 & _ & Hr & [= ->])])]
    %confirm_yes_cases; [congruence|].
  apply refresh_eq in Hr as (l & _ & ->). simpl.
  destruct (map fst l) as [|a rest] eqn:E; simpl.
  - split; [done|]. by left.
  - split; [done|]. right. split; [lia | done].
Qed.

Lemma confirmed_delete_cursor_witness :
  ∃ u', UI.action_confirm_yes pending_beside = Some (UI.Returned u') ∧
        UI._confirm_node u' = None ∧ UI._items u' = [6%positive] ∧
        UI.cursor_row u' = 0%nat.
Proof.
  destruct (confirm_yes_ok pending_beside (session_ok _ session_pending_beside))
    as (r & Hr & _).
  pose proof Hr as Hr'. vm_compute in Hr'. injection Hr' as <-.
  destruct (confirmed_delete_cursor pending_beside 2%positive _ ltac:(vm_compute; reflexivity) Hr)
    as [Hp _].
  eexists. split; [exact Hr|]. split; [exact Hp|]. split; reflexivity.
Defined.

(** ** The path line *)

Lemma split_on_no_sep sep s seg :
  seg ∈ split_on sep s → ∀ rest, seg ≠ String sep rest.
Proof.
  revert seg. induction s as [|c s IH]; intros seg; simpl.
  - intros ->%list_elem_of_singleton. done.
  - destruct (Ascii.eqb_spec c sep) as [->|Hne].
    + intros [->|Hin]%elem_of_cons; [done | by apply IH].
    + destruct (split_on sep s) as [|seg0 segs] eqn:E.
      * intros ->%list_elem_of_singleton rest [= ?]. done.
      * intros [->|Hin]%elem_of_cons.
        -- intros rest [= ? _]. done.
        -- apply IH. by right.
Qed.

Lemma parts_of_not_slash key p : p ∈ Tree.parts_of key → p ≠ "/".
Proof.
  unfold Tree.parts_of. intros [_ Hin]%list_elem_of_filter.
  by apply (split_on_no_sep _ _ _ Hin).
Qed.

(** No key of a [ch] dictionary is ["/"]. *)
Lemma walk_keys key size len : ∀ parts i node σ node' σ',
  wf σ → is_Some (deref σ node) → truthy key = true →
  Forall (λ p, p ≠ "/") parts →
  (∀ a n k c, deref σ a = Some n → (k, c) ∈ Node.ch n → k ≠ "/") →
  Tree.walk key size len i parts node σ = Some (node', σ') →
  ∀ a n k c, deref σ' a = Some n → (k, c) ∈ Node.ch n → k ≠ "/".
Proof.
  induction parts as [|p rest IH]; intros i node σ node' σ' W [n Hn] Hk HF HP; simpl.
  - by intros [= <- <-].
  - apply Forall_cons in HF as [Hp HF].
    rewrite Hn. simpl. destruct (dict_get p (Node.ch n)) as [c|] eqn:Hg.
    + pose proof (dict_get_elem _ _ _ Hg) as Hin.
      destruct (wf_ch _ W _ _ _ _ Hn Hin) as [_ [m Hm]].
      destruct (i =? len - 1)%nat.
      * apply IH; [by eapply wf_overwrite| |done|done|].
        -- eapply extends_is_Some; [|by eexists]. apply extends_update. by intros ? _.
        -- intros a na k c0 Ha Hin0.
           destruct (deref_update_Some _ _ _ _ _ Ha) as (n0 & Hn0 & [->|[-> ->]]);
             by eapply HP.
      * apply IH; eauto.
    + set (new := Node.mk p _ _ _ [] (Some node)).
      change (mkStore (<[next σ:=new]> (cells σ)) (Pos.succ (next σ)))
        with (alloc new σ).2.
      apply IH; [| |done|done|].
      * apply wf_attach; [done..|]. simpl. by destruct (i =? len - 1)%nat.
      * rewrite (deref_attach _ _ _ _ _ _ W Hn).
        destruct (decide (next σ = node)); [eauto|]. rewrite decide_True by done. eauto.
      * intros a na k c0. rewrite (deref_attach _ _ _ _ _ _ W Hn).
        destruct (decide (a = node)) as [->|].
        -- intros [= <-]. simpl. intros [[= -> ->]|Hin]%dict_set_elem; [done|].
           by eapply HP.
        -- destruct (decide (a = next σ)) as [->|].
           ++ intros [= <-]. simpl. by intros ?%elem_of_nil.
           ++ intros Ha. by eapply HP.
Qed.

Lemma built_keys tr σ :
  built tr σ → ∀ a n k c, deref σ a = Some n → (k, c) ∈ Node.ch n → k ≠ "/".
Proof.
  induction 1 as [|tr σ key size σ' B IH Hi|tr σ node σ' B IH Hex Hr].
  - intros a n k c [-> ->]%deref_t0 ?%elem_of_nil. done.
  - pose proof (built_tree_ok _ _ B) as OK.
    destruct (decide (Tree.parts_of key = [])) as [E|Hparts].
    { unfold Tree.insert in Hi. rewrite E in Hi. simpl in Hi.
      destruct OK as [_ (r & Hr & Hp)]. rewrite Hr in Hi. simpl in Hi.
      rewrite Hp, bubble_None in Hi. by injection Hi as <-. }
    destruct (insert_steps _ _ _ _ _ OK Hparts Hi) as (leaf & σ1 & m & Hw & W1 & _ & _ & Hb).
    destruct OK as [W (r & Hr & _)].
    refine (bubble_invariant
              (λ s, ∀ a n k c, deref s a = Some n → (k, c) ∈ Node.ch n → k ≠ "/")
              _ _ _ _ _ W1 _ Hb).
    + intros s a s0 _ HP b nb k c Hb' Hin.
      destruct (deref_update_Some _ _ _ _ _ Hb') as (n0 & Hn0 & [->|[-> ->]]);
        by eapply HP.
    + eapply (walk_keys key size _ _ 0%nat); [exact W|by eexists| | |exact IH|exact Hw].
      * by apply parts_of_truthy.
      * apply Forall_forall. intros p Hp. by eapply parts_of_not_slash.
  - pose proof (built_tree_ok _ _ B) as [W _].
    refine (remove_invariant
              (λ s, ∀ a n k c, deref s a = Some n → (k, c) ∈ Node.ch n → k ≠ "/")
              tr node σ σ' _ _ W IH Hr).
    + intros s p pn k0 _ HP Hpn b nb k c Hb' Hin.
      destruct (deref_update_Some _ _ _ _ _ Hb') as (n0 & Hn0 & [->|[-> ->]]).
      * by eapply HP.
      * simpl in Hin. apply dict_del_elem in Hin. exact (HP _ _ _ _ Hpn Hin).
    + intros s a s0 _ HP b nb k c Hb' Hin.
      destruct (deref_update_Some _ _ _ _ _ Hb') as (n0 & Hn0 & [->|[-> ->]]);
        by eapply HP.
Qed.

Lemma built_root tr σ :
  built tr σ → ∃ r, deref σ (Tree._root tr) = Some r ∧ Node.name r = "/".
Proof.
  induction 1 as [|tr σ key size σ' B (r & Hr & Hn) Hi|tr σ node σ' B (r & Hr & Hn) Hex Hrm].
  - eexists. split; [apply lookup_insert_eq | done].
  - destruct (insert_total tr key size σ (built_tree_ok _ _ B)) as (σ1 & Hi1 & _ & [_ E]).
    assert (σ1 = σ') as -> by congruence.
    destruct (E _ _ Hr) as (r' & Hr' & _ & _ & Hn'). exists r'. split; [done | congruence].
  - destruct (remove_total tr node σ (built_tree_ok _ _ B) Hex) as (σ1 & Hr1 & _ & [_ E]).
    assert (σ1 = σ') as -> by congruence.
    destruct (E _ _ Hr) as (r' & Hr' & _ & _ & Hn'). exists r'. split; [done | congruence].
Qed.

Lemma target_snoc σ : ∀ parts node p c,
  target σ node (parts ++ [p]) = Some c ↔
  ∃ c0 n0, target σ node parts = Some c0 ∧ deref σ c0 = Some n0 ∧
           dict_get p (Node.ch n0) = Some c.
Proof.
  induction parts as [|q rest IH]; intros node p c; simpl.
  - split.
    + destruct (deref σ node) as [n|] eqn:Hn; [|done]. simpl.
      destruct (dict_get p (Node.ch n)) as [x|] eqn:Hg; [|done]. simpl.
      intros [= <-]. by exists node, n.
    + intros (c0 & n0 & [= <-] & Hn0 & Hg). rewrite Hn0. simpl. by rewrite Hg.
  - destruct (deref σ node) as [n|]; simpl.
    2:{ split; [done|]. by intros (? & ? & ? & _). }
    destruct (dict_get q (Node.ch n)) as [x|]; simpl.
    2:{ split; [done|]. by intros (? & ? & ? & _). }
    apply IH.
Qed.

(** The loop of [_path], started on the node that the segments [parts]
    lead to from the root, collects the segments from the last to the
    first and stops at the root. *)
Lemma path_loop_target tr σ : built tr σ →
  ∀ parts c acc fuel,
    target σ (Tree._root tr) parts = Some c → (Pos.to_nat c ≤ fuel)%nat →
    UI.path_loop fuel σ acc (Some c) = Some (acc ++ reverse parts).
Proof.
  intros B. pose proof (built_tree_ok _ _ B) as [W _].
  pose proof (built_links _ _ B) as L.
  destruct (built_root _ _ B) as (r & Hr & Hname).
  induction parts as [|p parts IH] using rev_ind; intros c acc fuel Ht Hf.
  - simpl in Ht. injection Ht as <-. destruct fuel as [|fuel]; [lia|]. simpl.
    rewrite Hr. simpl. rewrite Hname. simpl. by rewrite app_nil_r.
  - apply target_snoc in Ht as (c0 & n0 & Ht0 & Hn0 & Hg).
    apply dict_get_elem in Hg.
    destruct (links_child _ L _ _ _ _ Hn0 Hg) as (m & Hm & Hpar & Hnm).
    destruct (wf_par _ W _ _ _ Hm Hpar) as [Hlt _].
    destruct fuel as [|fuel]; [lia|]. simpl. rewrite Hm. simpl.
    pose proof (built_keys _ _ B _ _ _ _ Hn0 Hg) as Hne.
    apply String.eqb_neq in Hne. rewrite Hnm, Hne, Hpar.
    rewrite (IH c0 (acc ++ [p]) fuel Ht0) by lia.
    by rewrite reverse_app, <- app_assoc.
Qed.

(** X16. The path line: when the current directory is the node that the
    segments [parts] lead to from the root of a tree built by inserts and
    removes, [_path] returns ["/"] followed by the segments joined by
    ["/"], and ["/"] alone at the root. *)
Theorem path_of_current_directory u parts :
  built (UI._ftree u) (UI.store u) →
  target (UI.store u) (Tree._root (UI._ftree u)) parts = Some (UI.cwd u) →
  UI._path u = Some (if bool_decide (parts = []) then "/" else "/" +:+ join "/" parts).
Proof.
  intros B Ht. pose proof (built_tree_ok _ _ B) as [W _]. unfold UI._path.
  assert (Hex : is_Some (deref (UI.store u) (UI.cwd u))).
  { destruct parts as [|p parts _] using rev_ind.
    - simpl in Ht. injection Ht as <-. by destruct (built_tree_ok _ _ B) as [_ (r & -> & _)].
    - apply target_snoc in Ht as (c0 & n0 & _ & Hn0 & Hg).
      apply dict_get_elem in Hg. by destruct (wf_ch _ W _ _ _ _ Hn0 Hg). }
  destruct Hex as [m Hm]. pose proof (wf_dom _ W _ _ Hm) as Hd.
  rewrite (path_loop_target _ _ B parts _ [] _ Ht) by lia. simpl.
  destruct parts as [|p parts]; [done|].
  rewrite bool_decide_eq_false_2.
  - by rewrite reverse_involutive, bool_decide_eq_false_2.
  - intros E. apply (f_equal reverse) in E. by rewrite reverse_involutive in E.
Qed.

Lemma built_set_cwd u c :
  built (UI._ftree u) (UI.store u) →
  built (UI._ftree (UI.set_cwd c u)) (UI.store (UI.set_cwd c u)).
Proof. done. Qed.

Lemma path_of_current_directory_witness :
  UI._path (UI.set_cwd 3%positive pending_small) = Some "/a/b" ∧
  UI._path (UI.set_cwd 1%positive pending_small) = Some "/".
Proof.
  pose proof (session_built _ session_pending_small) as B.
  split.
  - apply (path_of_current_directory (UI.set_cwd 3%positive pending_small) ["a"; "b"]
             (built_set_cwd _ _ B)).
    vm_compute. reflexivity.
  - apply (path_of_current_directory (UI.set_cwd 1%positive pending_small) []
             (built_set_cwd _ _ B)).
    vm_compute. reflexivity.
Defined.

(** ** Sorting the table *)

(** X17. Sorting re-orders and nothing else: in a session with no delete
    pending, [s] and [n] set the criterion, keep the current directory and
    the tree, put the cursor on the first row, and the new rows are the old
    rows in another order: none is lost and none is added. *)
Theorem sort_keeps_rows u k by_ :
  session u → UI._confirm_node u = None →
  (k, by_) ∈ [("s", "size"); ("n", "name")] →
  ∃ u',
    UI.handle (UI.Key k) u = Some (UI.Returned u') ∧
    UI.sort_by u' = by_ ∧ UI.cwd u' = UI.cwd u ∧ UI.store u' = UI.store u ∧
    UI.cursor_row u' = 0%nat ∧ UI._items u' ≡ₚ UI._items u.
Proof.
  intros S Hc Hk. pose proof (session_ok _ S) as (TOK & Hcwd & _).
  destruct (session_sync _ S) as (l & Hl & Hi).
  destruct (sorted_children _ _ _ _ Hl) as (cn & Hcn & Hperm).
  destruct (refresh_total (UI.set_sort_by by_ u) TOK Hcwd) as (u' & Hr & _).
  pose proof Hr as (l' & Hl' & E)%refresh_eq. simpl in Hl'.
  destruct (sorted_children _ _ _ _ Hl') as (cn' & Hcn' & Hperm').
  assert (cn' = cn) as -> by congruence.
  exists u'. split.
  - assert (Hs : ('(cancelled, u1) ← UI._cancel_confirm u;
                  if cancelled : bool then Some u1
                  else UI._refresh (UI.set_sort_by by_ u1)) = Some u').
    { unfold UI._cancel_confirm. rewrite Hc. simpl. exact Hr. }
    apply elem_of_cons in Hk as [[= -> ->]|Hk].
    + change (UI.handle (UI.Key "s") u) with (UI.Returned <$> UI.action_sort_size u).
      unfold UI.action_sort_size. by rewrite Hs.
    + apply list_elem_of_singleton in Hk as [= -> ->].
      change (UI.handle (UI.Key "n") u) with (UI.Returned <$> UI.action_sort_name u).
      unfold UI.action_sort_name. by rewrite Hs.
  - rewrite E. simpl. repeat (split; [done|]). by rewrite Hi, Hperm, Hperm'.
Qed.

Lemma sort_keeps_rows_witness :
  ∃ u',
    UI.handle (UI.Key "n")
      (result_state (UI.handle (UI.Key "escape") pending_small)) =
      Some (UI.Returned u') ∧
    UI.sort_by u' = "name" ∧ UI.cwd u' = 1%positive ∧ UI.cursor_row u' = 0%nat.
Proof.
  destruct (sort_keeps_rows (result_state (UI.handle (UI.Key "escape") pending_small))
              "n" "name" session_browsing_small)
    as (u' & Hh & Hs & Hc & _ & Hr & _).
  - vm_compute. reflexivity.
  - right. left.
  - exists u'. split; [exact Hh|]. split; [exact Hs|]. split; [|exact Hr].
    rewrite Hc. vm_compute. reflexivity.
Defined.
